(** * The portfolio dashboard: synthetic data generation and aggregation

    A shallow embedding of the data pipeline of [jpm-dashboard/src/App.jsx]:
    [generatePortfolioData] (the generator), the derived values
    [filteredData], [metrics], [segmentData], [regionData] and
    [riskVsRevData] (the aggregator), and the expressions of the KPI
    cards, the default insights, the prompt and the report that read them.

    JavaScript numbers are IEEE 754 binary64 values; they are modelled by
    Rocq's primitive [float], whose operations are the same binary64
    operations.  Exact values are read through [Prim2SF]. *)

From Stdlib Require Import ZArith List String Bool Lia Floats DecimalString DecimalNat.
From Stdlib Require Import Sorted Permutation FinFun.
Import ListNotations.

#[local] Set Warnings "-inexact-float".

(* ================================================================= *)
(** ** JavaScript number primitives *)

Module JS.

Local Open Scope float_scope.

(** The Number nearest to the integer [z] (exact up to 2^53 in magnitude). *)
Definition Z2F (z : Z) : float := SF2Prim (binary_normalize prec emax z 0 false).

Definition of_nat (n : nat) : float := Z2F (Z.of_nat n).

Definition signed (s : bool) (m : positive) : Z := if s then Zneg m else Zpos m.

(** [Math.min]: NaN if either argument is NaN, and -0 is below +0. *)
Definition Math_min (x y : float) : float :=
  if is_nan x || is_nan y then nan
  else if x <? y then x
  else if y <? x then y
  else if get_sign x then x else y.

(** [Math.max]: NaN if either argument is NaN, and +0 is above -0. *)
Definition Math_max (x y : float) : float :=
  if is_nan x || is_nan y then nan
  else if x <? y then y
  else if y <? x then x
  else if get_sign x then y else x.

(** [Math.floor]: the largest integral Number not above [x].  A finite
    binary64 value with a non-negative exponent is already integral. *)
Definition Math_floor (x : float) : float :=
  match Prim2SF x with
  | S754_finite s m e =>
      if (0 <=? e)%Z then x
      else let n := (signed s m / 2 ^ (- e))%Z in
           if (n =? 0)%Z then zero else Z2F n
  | _ => x
  end.

(** [Math.round]: the integral Number nearest to [x], ties towards
    +Infinity, that is floor (x + 1/2) computed exactly; a result of zero
    keeps the sign of [x]. *)
Definition Math_round (x : float) : float :=
  match Prim2SF x with
  | S754_finite s m e =>
      if (0 <=? e)%Z then x
      else let n := ((2 * signed s m + 2 ^ (- e)) / 2 ^ (1 - e))%Z in
           if (n =? 0)%Z then (if s then neg_zero else zero) else Z2F n
  | _ => x
  end.

(** The text produced by [Number.prototype.toFixed], kept as the number it
    spells rather than as characters. *)
Inductive numeral : Type :=
| NumNaN                                   (* "NaN" *)
| NumInfinity (neg : bool)                 (* "Infinity", "-Infinity" *)
| NumFixed (neg : bool) (n : Z) (fd : nat) (* [-]n / 10^fd, with fd decimals *)
| NumToString (x : float).                 (* 1e21 and above: Number::toString *)

(** The integer [n] for which [n / 10^fd - m * 2^e] is closest to zero, the
    larger one on a tie. *)
Definition nearest_scaled (m : positive) (e : Z) (fd : nat) : Z :=
  let k := (Zpos m * 10 ^ Z.of_nat fd)%Z in
  if (0 <=? e)%Z then (k * 2 ^ e)%Z
  else ((2 * k + 2 ^ (- e)) / 2 ^ (1 - e))%Z.

Definition toFixed (x : float) (fd : nat) : numeral :=
  match Prim2SF x with
  | S754_nan => NumNaN
  | S754_infinity s => NumInfinity s
  | S754_zero _ => NumFixed false 0 fd
  | S754_finite s m e =>
      if 1e21 <=? abs x then NumToString x
      else NumFixed s (nearest_scaled m e fd) fd
  end.

(** The correctly rounded quotient of two positive integers. *)
Definition quotient (n d : positive) : float :=
  SF2Prim (SFdiv prec emax (S754_finite false n 0) (S754_finite false d 0)).

(** [parseFloat] on the texts [toFixed] produces: the Number nearest to
    the decimal value that is spelled. *)
Definition parseFloat (t : numeral) : float :=
  match t with
  | NumNaN => nan
  | NumInfinity s => if s then neg_infinity else infinity
  | NumFixed s n fd =>
      let q := match n with
               | Zpos p => quotient p (Pos.pow 10 (Pos.of_nat fd))
               | _ => zero
               end in
      if s then - q else q
  | NumToString x => x
  end.

(** [a[x]] for an array [a] and a Number [x]: the element when [x] is an
    integral index in range, [undefined] ([None]) otherwise. *)
Definition to_index (x : float) : option nat :=
  match Prim2SF x with
  | S754_zero _ => Some 0%nat
  | S754_finite false m e =>
      if (0 <=? e)%Z then Some (Z.to_nat (Zpos m * 2 ^ e))
      else if (Zpos m mod 2 ^ (- e) =? 0)%Z then Some (Z.to_nat (Zpos m / 2 ^ (- e)))
      else None
  | _ => None
  end.

Definition index {A : Type} (a : list A) (x : float) : option A :=
  match to_index x with
  | Some i => nth_error a i
  | None => None
  end.

End JS.

(* ================================================================= *)
(** ** [Math.random] as an explicit source of draws *)

(** The generator reads [Math.random()] six times per record.  The global
    random source is made explicit: a computation reads a fixed sequence
    of draws and threads the position of the next one. *)
Module Rand.

Definition source : Type := nat -> float.

Definition M (A : Type) : Type := source -> nat -> A * nat.

Definition ret {A : Type} (a : A) : M A := fun _ k => (a, k).

Definition bind {A B : Type} (c : M A) (f : A -> M B) : M B :=
  fun g k => let (a, k') := c g k in f a g k'.

Definition Math_random : M float := fun g k => (g k, S k).

Definition run {A : Type} (c : M A) (g : source) : A := fst (c g 0%nat).

End Rand.

Notation "x <- c ;; f" := (Rand.bind c (fun x => f))
  (at level 61, c at next level, right associativity).
Notation "' pat <- c ;; f" := (Rand.bind c (fun x => match x with pat => f end))
  (at level 61, pat pattern, c at next level, right associativity).

(* ================================================================= *)
(** ** Data model *)

Inductive Segment : Type := MassMarket | Affluent | HighNetWorth.
Inductive Region : Type := NorthAmerica | EMEA | APAC | LatAm.

Definition Segment_name (s : Segment) : string :=
  match s with
  | MassMarket => "Mass Market"
  | Affluent => "Affluent"
  | HighNetWorth => "High Net Worth"
  end.

Definition Region_name (r : Region) : string :=
  match r with
  | NorthAmerica => "North America"
  | EMEA => "EMEA"
  | APAC => "APAC"
  | LatAm => "LatAm"
  end.

Definition Segment_eqb (a b : Segment) : bool :=
  match a, b with
  | MassMarket, MassMarket | Affluent, Affluent | HighNetWorth, HighNetWorth => true
  | _, _ => false
  end.

Definition Region_eqb (a b : Region) : bool :=
  match a, b with
  | NorthAmerica, NorthAmerica | EMEA, EMEA | APAC, APAC | LatAm, LatAm => true
  | _, _ => false
  end.

(** A value read out of one of the two name arrays: a name, or [undefined]
    ([None]) when the index was out of range. *)
Definition name_eqb {A : Type} (eqb : A -> A -> bool) (x y : option A) : bool :=
  match x, y with
  | Some a, Some b => eqb a b
  | None, None => true
  | _, _ => false
  end.

Record PortfolioRecord : Type := {
  customerId : string;
  segment : option Segment;
  region : option Region;
  accountBalance : float;
  creditLimit : float;
  utilization : float;
  riskScore : float;
  annualRevenue : float;
  defaultFlag : bool
}.

(* ================================================================= *)
(** ** 1. The generator: [generatePortfolioData] *)

Section Generator.

Import JS Rand.
Local Open Scope float_scope.

Definition segments : list Segment := [MassMarket; Affluent; HighNetWorth].
Definition regions : list Region := [NorthAmerica; EMEA; APAC; LatAm].

(** [segment === "..."] for a value read out of [segments]. *)
Definition is_segment (segment : option Segment) (s : Segment) : bool :=
  name_eqb Segment_eqb segment (Some s).

(** The three branches that fix [baseBalance], [baseLimit] and
    [riskFactor]; each draws once. *)
Definition base_parameters (segment : option Segment) : M (float * float * float) :=
  if is_segment segment HighNetWorth then
    u <- Math_random ;; ret (50000 + u * 150000, 100000, 0.1)
  else if is_segment segment Affluent then
    u <- Math_random ;; ret (15000 + u * 50000, 40000, 0.3)
  else
    u <- Math_random ;; ret (1000 + u * 10000, 15000, 0.6).

(** [`CUST-${1000 + i}`] *)
Definition customer_id (i : nat) : string :=
  "CUST-" ++ NilEmpty.string_of_uint (Nat.to_uint (1000 + i)).

(** The body of the [for] loop, for the counter value [i]. *)
Definition iteration (i : nat) : M PortfolioRecord :=
  u1 <- Math_random ;;
  let segment := index segments (Math_floor (u1 * of_nat (List.length segments))) in
  u2 <- Math_random ;;
  let region := index regions (Math_floor (u2 * of_nat (List.length regions))) in
  '(baseBalance, baseLimit, riskFactor) <- base_parameters segment ;;
  let utilization := Math_min (baseBalance / baseLimit) 1.2 in
  u4 <- Math_random ;;
  let riskScore := u4 * 0.4 + utilization * 0.5 in
  let riskScore := if is_segment segment MassMarket then riskScore + 0.1 else riskScore in
  let riskScore := Math_min (Math_max riskScore 0.01) 0.99 in
  u5 <- Math_random ;;
  let defaultFlag := u5 <? (if 0.75 <? riskScore then 0.4 else 0.02) in
  u6 <- Math_random ;;
  let annualRevenue := baseBalance * 0.04 + u6 * 500 in
  ret {| customerId := customer_id i;
         segment := segment;
         region := region;
         accountBalance := Math_round baseBalance;
         creditLimit := baseLimit;
         utilization := parseFloat (toFixed utilization 2);
         riskScore := parseFloat (toFixed riskScore 3);
         annualRevenue := Math_round annualRevenue;
         defaultFlag := defaultFlag |}.

(** [for (let i = 0; i < 200; i++) { ...; data.push(...) }], with [n] the
    number of iterations still to run. *)
Fixpoint loop (n i : nat) (data : list PortfolioRecord) : M (list PortfolioRecord) :=
  match n with
  | O => ret data
  | S n' => r <- iteration i ;; loop n' (S i) (data ++ [r])
  end.

Definition generatePortfolioData : M (list PortfolioRecord) := loop 200 0 [].

End Generator.

(* ================================================================= *)
(** ** 2. The aggregator *)

(** The value of a filter drop-down: ["all"] or one of the names. *)
Inductive Selection (A : Type) : Type :=
| all
| only (a : A).
Arguments all {A}.
Arguments only {A} a.

Definition is_all {A : Type} (s : Selection A) : bool :=
  match s with all => true | only _ => false end.

(** [d.field === selected] *)
Definition selected {A : Type} (eqb : A -> A -> bool)
    (field : option A) (s : Selection A) : bool :=
  match s, field with
  | only a, Some b => eqb b a
  | _, _ => false
  end.

Definition filteredData (portfolioData : list PortfolioRecord)
    (selectedSegment : Selection Segment) (selectedRegion : Selection Region)
    : list PortfolioRecord :=
  filter (fun d =>
            let segmentMatch :=
              is_all selectedSegment || selected Segment_eqb (segment d) selectedSegment in
            let regionMatch :=
              is_all selectedRegion || selected Region_eqb (region d) selectedRegion in
            segmentMatch && regionMatch)
         portfolioData.

Record Metrics : Type := {
  totalBalance : float;
  totalRevenue : float;
  avgRisk : float;
  defaultRate : float
}.

Section Aggregator.

Import JS.
Local Open Scope float_scope.

(** [a.reduce((acc, curr) => acc + f(curr), 0)] *)
Definition reduce_sum {A : Type} (f : A -> float) (a : list A) : float :=
  fold_left (fun acc curr => acc + f curr) a 0.

Definition metrics (filteredData : list PortfolioRecord) : Metrics :=
  let totalBalance := reduce_sum accountBalance filteredData in
  let totalRevenue := reduce_sum annualRevenue filteredData in
  let avgRisk := reduce_sum riskScore filteredData / of_nat (List.length filteredData) in
  let defaults := List.length (filter defaultFlag filteredData) in
  let defaultRate := (of_nat defaults / of_nat (List.length filteredData)) * 100 in
  {| totalBalance := totalBalance;
     totalRevenue := totalRevenue;
     avgRisk := avgRisk;
     defaultRate := defaultRate |}.

End Aggregator.

(** The object [agg]: its own properties in insertion order, which is the
    order [Object.values] lists them in.  Keys are the values of
    [d.segment] or [d.region]: a name of the array, or [undefined], which
    becomes the property name "undefined".  None of them is an array index
    and none names a property of [Object.prototype], so [agg[k]] finds own
    properties only, and every stored value is an object, hence truthy:
    [!agg[k]] holds exactly when [k] is not yet a property. *)
Module Obj.
Section Obj.
Context {K V : Type} (eqb : K -> K -> bool).

Definition t : Type := list (K * V).

(** [agg[k]] *)
Fixpoint get (agg : t) (k : K) : option V :=
  match agg with
  | [] => None
  | (k', v) :: rest => if eqb k k' then Some v else get rest k
  end.

(** [agg[k] = v] for a key that is not yet a property: appended last. *)
Definition add (agg : t) (k : K) (v : V) : t := agg ++ [(k, v)].

(** [agg[k].field += ...]: the object stored under [k] is updated in place. *)
Fixpoint update (agg : t) (k : K) (f : V -> V) : t :=
  match agg with
  | [] => []
  | (k', v) :: rest =>
      if eqb k k' then (k', f v) :: rest else (k', v) :: update rest k f
  end.

(** [Object.values(agg)] *)
Definition values (agg : t) : list V := map snd agg.

End Obj.
End Obj.

Module Seg.
Record t : Type := {
  name : option Segment;
  value : float;
  balance : float;
  count : float;
  revenue : float
}.
End Seg.

Module Reg.
Record t : Type := {
  name : option Region;
  revenue : float
}.
End Reg.

Section Grouping.

Import JS.
Local Open Scope float_scope.

Definition segment_key := name_eqb Segment_eqb.
Definition region_key := name_eqb Region_eqb.

(** The body of [filteredData.forEach] in [segmentData]. *)
Definition segment_step (agg : Obj.t) (d : PortfolioRecord) : Obj.t :=
  let agg :=
    match Obj.get segment_key agg (segment d) with
    | None =>
        Obj.add agg (segment d)
          {| Seg.name := segment d; Seg.value := 0; Seg.balance := 0;
             Seg.count := 0; Seg.revenue := 0 |}
    | Some _ => agg
    end in
  let agg := Obj.update segment_key agg (segment d)
    (fun s => {| Seg.name := Seg.name s; Seg.value := Seg.value s + annualRevenue d;
                 Seg.balance := Seg.balance s; Seg.count := Seg.count s;
                 Seg.revenue := Seg.revenue s |}) in
  let agg := Obj.update segment_key agg (segment d)
    (fun s => {| Seg.name := Seg.name s; Seg.value := Seg.value s;
                 Seg.balance := Seg.balance s + accountBalance d; Seg.count := Seg.count s;
                 Seg.revenue := Seg.revenue s |}) in
  let agg := Obj.update segment_key agg (segment d)
    (fun s => {| Seg.name := Seg.name s; Seg.value := Seg.value s;
                 Seg.balance := Seg.balance s; Seg.count := Seg.count s;
                 Seg.revenue := Seg.revenue s + annualRevenue d |}) in
  Obj.update segment_key agg (segment d)
    (fun s => {| Seg.name := Seg.name s; Seg.value := Seg.value s;
                 Seg.balance := Seg.balance s; Seg.count := Seg.count s + 1;
                 Seg.revenue := Seg.revenue s |}).

Definition segmentData (filteredData : list PortfolioRecord) : list Seg.t :=
  Obj.values (fold_left segment_step filteredData []).

(** The body of [filteredData.forEach] in [regionData]. *)
Definition region_step (agg : Obj.t) (d : PortfolioRecord) : Obj.t :=
  let agg :=
    match Obj.get region_key agg (region d) with
    | None => Obj.add agg (region d) {| Reg.name := region d; Reg.revenue := 0 |}
    | Some _ => agg
    end in
  Obj.update region_key agg (region d)
    (fun s => {| Reg.name := Reg.name s; Reg.revenue := Reg.revenue s + annualRevenue d |}).

(** [Array.prototype.sort] with a comparator: a stable sort, in which [x]
    stays in front of [y] unless [cmp x y] is positive (a NaN result counts
    as zero). *)
Fixpoint insert {A : Type} (cmp : A -> A -> float) (x : A) (l : list A) : list A :=
  match l with
  | [] => [x]
  | y :: l' => if 0 <? cmp x y then y :: insert cmp x l' else x :: l
  end.

Definition sort {A : Type} (cmp : A -> A -> float) (l : list A) : list A :=
  fold_right (insert cmp) [] l.

Definition regionData (filteredData : list PortfolioRecord) : list Reg.t :=
  sort (fun a b => Reg.revenue b - Reg.revenue a)
       (Obj.values (fold_left region_step filteredData [])).

End Grouping.

(* ================================================================= *)
(** ** 3. Values read by the charts, the prompt and the report *)

Module Point.
Record t : Type := {
  x : float;
  y : float;
  z : option Segment;
  fill : string
}.
End Point.

(** The result of evaluating an expression: a value, or a thrown
    [TypeError]. *)
Inductive completion (A : Type) : Type :=
| Normal (a : A)
| TypeError.
Arguments Normal {A} a.
Arguments TypeError {A}.

Section Display.

Import JS.
Local Open Scope float_scope.

(** [filteredData.map((d) => ({...})).slice(0, 150)] *)
Definition riskVsRevData (filteredData : list PortfolioRecord) : list Point.t :=
  firstn 150
    (map (fun d => {| Point.x := riskScore d;
                      Point.y := annualRevenue d;
                      Point.z := segment d;
                      Point.fill := if defaultFlag d then "#ef4444" else "#14b8a6" |})
         filteredData).

(** [regionData[0]?.name || "N/A"], in the prompt and in the report.  A
    region name is a non-empty string, hence truthy; [undefined] is not. *)
Definition leading_region_or_NA (regionData : list Reg.t) : string :=
  match nth_error regionData 0 with
  | Some r => match Reg.name r with
              | Some n => Region_name n
              | None => "N/A"
              end
  | None => "N/A"
  end.

(** [regionData[0].name], in the third of the default insights: reading a
    property of [undefined] throws. *)
Definition leading_region (regionData : list Reg.t) : completion (option Region) :=
  match nth_error regionData 0 with
  | Some r => Normal (Reg.name r)
  | None => TypeError
  end.

(** [((segmentData.find((s) => s.name === "High Net Worth")?.value /
       metrics.totalRevenue) * 100).toFixed(0)], in the first of the default
    insights and in the report.  When [find] returns [undefined] the
    optional chain gives [undefined], which the division converts to NaN. *)
Definition high_net_worth_share (segmentData : list Seg.t) (metrics : Metrics) : numeral :=
  let value :=
    match find (fun s => is_segment (Seg.name s) HighNetWorth) segmentData with
    | Some s => Seg.value s
    | None => nan
    end in
  toFixed (value / totalRevenue metrics * 100) 0.

(** [metrics.avgRisk.toFixed(3)] and [metrics.defaultRate.toFixed(1)], the
    texts of the third and fourth KPI cards and of the report. *)
Definition avgRisk_text (metrics : Metrics) : numeral := toFixed (avgRisk metrics) 3.

Definition defaultRate_text (metrics : Metrics) : numeral := toFixed (defaultRate metrics) 1.

(** [((region.revenue / metrics.totalRevenue) * 100).toFixed(1)], the
    "% of Total" column of the report. *)
Definition region_percent (region : Reg.t) (metrics : Metrics) : numeral :=
  toFixed (Reg.revenue region / totalRevenue metrics * 100) 1.

End Display.

(* ================================================================= *)
(** ** The generator, draw by draw *)

Section Draws.

Import JS Rand.
Local Open Scope float_scope.

(** The three values fixed by the segment branches, as functions of the
    segment and of the draw made in the branch. *)
Definition baseBalance_of (segment : option Segment) (u : float) : float :=
  if is_segment segment HighNetWorth then 50000 + u * 150000
  else if is_segment segment Affluent then 15000 + u * 50000
  else 1000 + u * 10000.

Definition baseLimit_of (segment : option Segment) : float :=
  if is_segment segment HighNetWorth then 100000
  else if is_segment segment Affluent then 40000
  else 15000.

Definition riskFactor_of (segment : option Segment) : float :=
  if is_segment segment HighNetWorth then 0.1
  else if is_segment segment Affluent then 0.3
  else 0.6.

(** The value of [utilization] before it is rounded for storage. *)
Definition utilization_of (segment : option Segment) (u3 : float) : float :=
  Math_min (baseBalance_of segment u3 / baseLimit_of segment) 1.2.

(** The value of [riskScore] after the clamp, before it is rounded. *)
Definition riskScore_of (segment : option Segment) (u3 u4 : float) : float :=
  let riskScore := u4 * 0.4 + utilization_of segment u3 * 0.5 in
  let riskScore := if is_segment segment MassMarket then riskScore + 0.1 else riskScore in
  Math_min (Math_max riskScore 0.01) 0.99.

(** The record pushed by one iteration, from its six draws. *)
Definition record_of_draws (i : nat) (u1 u2 u3 u4 u5 u6 : float) : PortfolioRecord :=
  let segment := index segments (Math_floor (u1 * of_nat (List.length segments))) in
  let region := index regions (Math_floor (u2 * of_nat (List.length regions))) in
  {| customerId := customer_id i;
     segment := segment;
     region := region;
     accountBalance := Math_round (baseBalance_of segment u3);
     creditLimit := baseLimit_of segment;
     utilization := parseFloat (toFixed (utilization_of segment u3) 2);
     riskScore := parseFloat (toFixed (riskScore_of segment u3 u4) 3);
     annualRevenue := Math_round (baseBalance_of segment u3 * 0.04 + u6 * 500);
     defaultFlag := u5 <? (if 0.75 <? riskScore_of segment u3 u4 then 0.4 else 0.02) |}.

(** The [i]-th record of a run: draws [6 i] to [6 i + 5] of the source. *)
Definition nth_record (g : source) (i : nat) : PortfolioRecord :=
  record_of_draws i (g (6 * i)%nat) (g (6 * i + 1)%nat) (g (6 * i + 2)%nat)
                    (g (6 * i + 3)%nat) (g (6 * i + 4)%nat) (g (6 * i + 5)%nat).

(** [Math.random()] returns a Number that is at least 0 and below 1. *)
Definition unit_draws (g : source) : Prop :=
  forall k : nat, (0 <=? g k) = true /\ (g k <? 1) = true.

(** A call [generatePortfolioData(count)].  The arrow function declares no
    parameter, so the argument is evaluated and dropped and the body runs
    unchanged. *)
Definition generate (count : float) : M (list PortfolioRecord) :=
  generatePortfolioData.

(** A source whose draws are all one half. *)
Definition halves : source := fun _ => 0.5.

(** A source whose third draw gives an Affluent balance just below 25000. *)
Definition near_tie : source :=
  fun k => match k with 2%nat => 0.199994 | _ => 0.5 end.

End Draws.

(* ================================================================= *)
(** ** The rules of the specification *)

Section Rules.

Import JS.
Local Open Scope float_scope.

(** The rule of the data model, read on stored fields: [balance / limit],
    clamped to [0, 1.2], rounded to 2 decimals. *)
Definition utilization_rule (balance limit : float) : float :=
  parseFloat (toFixed (Math_min (Math_max (balance / limit) 0) 1.2) 2).

(** The rule of the algorithm for the risk score of a record of segment
    [s], from the draw [u] and the utilization of step 3. *)
Definition riskScore_rule (s : Segment) (u utilization : float) : float :=
  let raw := u * 0.4 + utilization * 0.5 in
  let raw := match s with
             | MassMarket => raw + 0.1
             | Affluent | HighNetWorth => raw
             end in
  parseFloat (toFixed (Math_min (Math_max raw 0.01) 0.99) 3).

(** The filter rule: the drop-down is on ["all"], or the record carries
    the selected name. *)
Definition matches {A : Type} (field : option A) (s : Selection A) : Prop :=
  s = all \/ exists a : A, s = only a /\ field = Some a.

Definition keeps (selectedSegment : Selection Segment)
    (selectedRegion : Selection Region) (d : PortfolioRecord) : Prop :=
  matches (segment d) selectedSegment /\ matches (region d) selectedRegion.

(** [out] lists the elements of [l] that satisfy [keep], in the order of
    [l]. *)
Inductive filtered_by {A : Type} (keep : A -> Prop) : list A -> list A -> Prop :=
| filtered_nil : filtered_by keep [] []
| filtered_keep (x : A) (l out : list A) :
    keep x -> filtered_by keep l out -> filtered_by keep (x :: l) (x :: out)
| filtered_drop (x : A) (l out : list A) :
    ~ keep x -> filtered_by keep l out -> filtered_by keep (x :: l) out.

(** The three records of the end-to-end scenario; the scenario leaves the
    identifiers, limits and utilizations open. *)
Definition scenario (id1 id2 id3 : string) (limit1 limit2 limit3 : float)
    (util1 util2 util3 : float) : list PortfolioRecord :=
  [ {| customerId := id1; segment := Some MassMarket; region := Some NorthAmerica;
       accountBalance := 5000; creditLimit := limit1; utilization := util1;
       riskScore := 0.3; annualRevenue := 700; defaultFlag := false |};
    {| customerId := id2; segment := Some Affluent; region := Some EMEA;
       accountBalance := 20000; creditLimit := limit2; utilization := util2;
       riskScore := 0.5; annualRevenue := 1300; defaultFlag := false |};
    {| customerId := id3; segment := Some HighNetWorth; region := Some EMEA;
       accountBalance := 100000; creditLimit := limit3; utilization := util3;
       riskScore := 0.2; annualRevenue := 4500; defaultFlag := true |} ].

(** The scenario with its open fields filled in. *)
Definition sample : list PortfolioRecord :=
  scenario "CUST-1" "CUST-2" "CUST-3" 15000 40000 100000 0.33 0.5 1.

End Rules.

(* ================================================================= *)
(** ** Binary64 numbers: signs and exact values

    Predicates and values on [spec_float], which the axioms of [FloatAxioms]
    relate to the primitive operations, and their counterparts on [float]. *)

Module SF.

Local Open Scope Z_scope.

(** Non-negative values: a zero of either sign, a positive finite number
    or +Infinity. *)
Definition nonneg (x : spec_float) : Prop :=
  match x with
  | S754_zero _ => True
  | S754_finite s _ _ => s = false
  | S754_infinity s => s = false
  | S754_nan => False
  end.

(** The exact value of a number, in units of 2^-1074 (the smallest positive
    binary64 number); the infinities lie beyond every finite value. *)
Definition value (x : spec_float) : Z :=
  match x with
  | S754_zero _ | S754_nan => 0
  | S754_finite s m e => cond_Zopp s (Z.pos m * 2 ^ (e + 1074))
  | S754_infinity s => cond_Zopp s (2 ^ 2098)
  end.

Definition is_nan (x : spec_float) : bool :=
  match x with S754_nan => true | _ => false end.

(** The binary64 form of a positive integer [p] below 2^53. *)
Definition canon (s : bool) (p : positive) : spec_float :=
  let d := Z.pos (digits2_pos p) in
  S754_finite s (Z.to_pos (Z.pos p * 2 ^ (53 - d))) (d - 53).

(** Zero or a positive finite number with value at most that of [w]. *)
Definition at_most (w r : spec_float) : Prop :=
  match r with
  | S754_zero _ => True
  | S754_finite false f ef =>
      Z.pos f * 2 ^ (ef + 2200) <= value w * 2 ^ 1126
  | _ => False
  end.

End SF.

Section Values.

Import JS.
Local Open Scope Z_scope.

(** The exact value of a Number, in units of 2^-1074. *)
Definition val (x : float) : Z := SF.value (Prim2SF x).

(** [x] is not NaN and not below zero. *)
Definition Nonneg (x : float) : Prop := SF.nonneg (Prim2SF x).

(** Multiplication and division by a positive finite constant. *)
Definition positive_finite (c : float) : Prop :=
  match Prim2SF c with
  | S754_finite false _ _ => True
  | _ => False
  end.

(** [x] is a positive finite number or +Infinity. *)
Definition Positive (x : float) : Prop :=
  match Prim2SF x with
  | S754_finite s _ _ | S754_infinity s => s = false
  | _ => False
  end.

(** [toFixed] rounds the exact value: for a value [v] in units of 2^-1074,
    the integer nearest to [v * 10^fd], ties upwards. *)
Definition scaled_round (v : Z) (fd : nat) : Z :=
  (2 * v * 10 ^ Z.of_nat fd + 2 ^ 1074) / 2 ^ 1075.

(** The integers from [a] to [b]. *)
Definition range (a b : Z) : list Z :=
  map (fun k => a + Z.of_nat k) (seq 0 (Z.to_nat (b - a + 1))).

(** The sum of a list of integers. *)
Fixpoint total (zs : list Z) : Z :=
  match zs with
  | [] => 0%Z
  | z :: zs' => (z + total zs')%Z
  end.

End Values.

(* ================================================================= *)
(** ** Order of the summaries and balances of the groups *)

Section Summaries.

Import JS.
Local Open Scope float_scope.

(** [a] may stand in front of [b]: its revenue is not below that of [b]. *)
Definition desc (a b : Reg.t) : Prop := (Reg.revenue b <=? Reg.revenue a) = true.

Definition by_revenue (a b : Reg.t) : float := Reg.revenue b - Reg.revenue a.

Definition revenue_Nonneg (s : Reg.t) : Prop := Nonneg (Reg.revenue s).

(** The balances of the groups are the integers [zs]. *)
Definition balances (agg : @Obj.t (option Segment) Seg.t) (zs : list Z) : Prop :=
  map Seg.balance (Obj.values agg) = map Z2F zs /\ Forall (fun z => 0 <= z)%Z zs.

End Summaries.

(* ================================================================= *)
(** ** Grouping by a key *)

Section Groups.

Context {K V D : Type} (eqb : K -> K -> bool) (key : D -> K)
        (init : K -> V) (upd : D -> V -> V).

(** The shape shared by the two [forEach] bodies: the property of the key
    is created on first use, then updated. *)
Definition group_step (agg : @Obj.t K V) (d : D) : @Obj.t K V :=
  Obj.update eqb
    (match Obj.get eqb agg (key d) with
     | None => Obj.add agg (key d) (init (key d))
     | Some _ => agg
     end)
    (key d) (upd d).

(** The keys of [l], each once, in the order of their first occurrence. *)
Definition first_keys (l : list D) : list K :=
  fold_left (fun seen d => if existsb (eqb (key d)) seen then seen else seen ++ [key d])
            l [].

(** The elements of [l] filed under [k], in the order of [l]. *)
Definition members (k : K) (l : list D) : list D :=
  filter (fun d => eqb (key d) k) l.

(** The accumulator of [k] after a pass over [l]. *)
Definition group (k : K) (l : list D) : V :=
  fold_left (fun v d => upd d v) (members k l) (init k).

End Groups.

Section Accumulators.

Import JS.
Local Open Scope float_scope.

Definition segment_init (k : option Segment) : Seg.t :=
  {| Seg.name := k; Seg.value := 0; Seg.balance := 0; Seg.count := 0; Seg.revenue := 0 |}.

(** The four compound assignments of [segmentData], as one update. *)
Definition segment_update (d : PortfolioRecord) (s : Seg.t) : Seg.t :=
  {| Seg.name := Seg.name s;
     Seg.value := Seg.value s + annualRevenue d;
     Seg.balance := Seg.balance s + accountBalance d;
     Seg.count := Seg.count s + 1;
     Seg.revenue := Seg.revenue s + annualRevenue d |}.

Definition region_init (k : option Region) : Reg.t :=
  {| Reg.name := k; Reg.revenue := 0 |}.

Definition region_update (d : PortfolioRecord) (s : Reg.t) : Reg.t :=
  {| Reg.name := Reg.name s; Reg.revenue := Reg.revenue s + annualRevenue d |}.

End Accumulators.

(* ================================================================= *)
(** ** Binary64 numbers: lower bounds and whole parts *)

Section LowerBounds.

Local Open Scope Z_scope.

(** A positive finite number with value at least that of [w], or
    +Infinity. *)
Definition at_least (w r : spec_float) : Prop :=
  match r with
  | S754_finite false f ef =>
      SF.value w * 2 ^ 1126 <= Z.pos f * 2 ^ (ef + 2200)
  | S754_infinity false => True
  | _ => False
  end.

(** [x] is +0, a positive finite number or +Infinity. *)
Definition Plus (x : float) : Prop :=
  match Prim2SF x with
  | S754_zero s | S754_finite s _ _ | S754_infinity s => s = false
  | S754_nan => False
  end.

(** The integer part of a non-negative Number. *)
Definition whole (x : float) : Z := val x / 2 ^ 1074.

End LowerBounds.

(* ================================================================= *)
(** ** Facts about the binary64 specification *)

Ltac constant := vm_compute; exact I.

Module SFacts.

Import SF.
Local Open Scope Z_scope.

Abbreviation SFround_aux := (binary_round_aux prec emax).

Lemma iter_pos_nat {A : Type} (f : A -> A) (p : positive) : forall x : A,
  iter_pos f p x = Nat.iter (Pos.to_nat p) f x.
Proof.
  induction p as [p IH|p IH|]; intros x; cbn [iter_pos].
  - rewrite !IH, Pos2Nat.inj_xI.
    rewrite <- Nat.iter_succ_r, <- Nat.iter_add. f_equal. lia.
  - rewrite !IH, Pos2Nat.inj_xO. rewrite <- Nat.iter_add. f_equal. lia.
  - reflexivity.
Qed.

Lemma shr_1_m (r : shr_record) :
  0 <= shr_m r -> shr_m (shr_1 r) = shr_m r / 2.
Proof.
  destruct r as [m r s]. cbn [shr_m]. intros Hm.
  destruct m as [|[p|p|]|p]; cbn [shr_1 shr_m]; try reflexivity; try lia.
  - apply Z.div_unique with (r := 1); lia.
  - apply Z.div_unique with (r := 0); lia.
Qed.

Lemma iter_shr_1_m (n : nat) (r : shr_record) :
  0 <= shr_m r -> shr_m (Nat.iter n shr_1 r) = shr_m r / 2 ^ Z.of_nat n.
Proof.
  intros Hm. induction n as [|n IH].
  - change (2 ^ Z.of_nat 0) with 1. now rewrite Z.div_1_r.
  - rewrite Nat.iter_succ, shr_1_m.
    + rewrite IH, Nat2Z.inj_succ, Z.pow_succ_r by lia.
      rewrite Z.div_div by lia. f_equal. lia.
    + rewrite IH. apply Z.div_pos; lia.
Qed.

Lemma shr_m_shr (r : shr_record) (e n : Z) :
  0 <= shr_m r ->
  shr_m (fst (shr r e n)) = shr_m r / 2 ^ Z.max 0 n.
Proof.
  intros Hm. destruct n as [|p|p]; cbn [shr fst].
  - now rewrite Z.div_1_r.
  - rewrite iter_pos_nat, iter_shr_1_m by assumption.
    rewrite positive_nat_Z. now rewrite Z.max_r by lia.
  - cbn. now rewrite Z.div_1_r.
Qed.

Lemma shr_m_shr_record_of_loc (m : Z) (l : location) :
  shr_m (shr_record_of_loc m l) = m.
Proof. destruct l as [|[]]; reflexivity. Qed.

Lemma shr_m_shr_record_of_loc_eq (m : Z) :
  shr_record_of_loc m loc_Exact = Build_shr_record m false false.
Proof. reflexivity. Qed.

Lemma shr_fexp_m_nonneg (m e : Z) (l : location) :
  0 <= m -> 0 <= shr_m (fst (shr_fexp prec emax m e l)).
Proof.
  intros Hm. unfold shr_fexp. rewrite shr_m_shr.
  - rewrite shr_m_shr_record_of_loc. apply Z.div_pos; lia.
  - now rewrite shr_m_shr_record_of_loc.
Qed.

Lemma round_nearest_even_bounds (m : Z) (l : location) :
  m <= round_nearest_even m l <= m + 1.
Proof.
  destruct l as [|[]]; cbn [round_nearest_even]; try lia.
  destruct (Z.even m); lia.
Qed.

Lemma binary_round_aux_sign (s : bool) (m e : Z) (l : location) :
  0 <= m ->
  match SFround_aux s m e l with
  | S754_zero s' | S754_infinity s' | S754_finite s' _ _ => s' = s
  | S754_nan => False
  end.
Proof.
  intros Hm. unfold binary_round_aux.
  pose proof (shr_fexp_m_nonneg m e l Hm) as H1.
  destruct (shr_fexp prec emax m e l) as [mrs' e'] eqn:E1. cbn [fst] in H1.
  pose proof (round_nearest_even_bounds (shr_m mrs') (loc_of_shr_record mrs')) as H2.
  set (m2 := round_nearest_even _ _) in *.
  assert (H3 : 0 <= m2) by lia.
  pose proof (shr_fexp_m_nonneg m2 e' loc_Exact H3) as H4.
  destruct (shr_fexp prec emax m2 e' loc_Exact) as [mrs'' e''] eqn:E2. cbn [fst] in H4.
  destruct (shr_m mrs'') as [|p|p]; try reflexivity; try lia.
  destruct (e'' <=? emax - prec); reflexivity.
Qed.

Lemma binary_round_aux_nonneg (m e : Z) (l : location) :
  0 <= m -> nonneg (SFround_aux false m e l).
Proof.
  intros Hm. pose proof (binary_round_aux_sign false m e l Hm) as H.
  destruct (SFround_aux false m e l); cbn; auto.
Qed.

Lemma binary_normalize_nonneg (m e : Z) :
  0 <= m -> nonneg (binary_normalize prec emax m e false).
Proof.
  intros Hm. destruct m as [|p|p]; cbn [binary_normalize]; [exact I| |lia].
  unfold binary_round. destruct (shl_align _ _ _) as [mz ez].
  now apply binary_round_aux_nonneg.
Qed.

Lemma SFadd_nonneg (x y : spec_float) :
  nonneg x -> nonneg y -> nonneg (SF64add x y).
Proof.
  destruct x as [sx|sx| |sx mx ex], y as [sy|sy| |sy my ey]; cbn [nonneg];
    try contradiction; intros Hx Hy; subst; cbn [SF64add SFadd nonneg]; auto.
  - now destruct sx, sy.
  - apply binary_normalize_nonneg. cbn [cond_Zopp]. lia.
Qed.

Lemma SFmul_nonneg (x y : spec_float) (my : positive) (ey : Z) :
  nonneg x -> y = S754_finite false my ey -> nonneg (SF64mul x y).
Proof.
  intros Hx ->. destruct x as [sx|sx| |sx mx ex]; cbn [nonneg] in Hx;
    try contradiction; subst; cbn [SF64mul SFmul nonneg xorb]; auto.
  apply binary_round_aux_nonneg. lia.
Qed.

Lemma SFdiv_nonneg (x y : spec_float) (my : positive) (ey : Z) :
  nonneg x -> y = S754_finite false my ey -> nonneg (SF64div x y).
Proof.
  intros Hx ->. destruct x as [sx|sx| |sx mx ex]; cbn [nonneg] in Hx;
    try contradiction; subst; cbn [SF64div SFdiv nonneg xorb]; auto.
  unfold SFdiv_core_binary.
  set (m' := match _ with Z0 => Z.pos mx | Z.pos _ => _ | Z.neg _ => 0 end).
  assert (Hm' : 0 <= m').
  { subst m'. destruct (_ - _ - _); [lia | | lia].
    rewrite Z.shiftl_mul_pow2 by lia. apply Z.mul_nonneg_nonneg; [lia|]. apply Z.pow_nonneg; lia. }
  pose proof (Z.div_pos m' (Z.pos my) Hm' ltac:(lia)) as Hq.
  unfold Z.div in Hq. destruct (Z.div_eucl m' (Z.pos my)) as [q r]. cbn [fst] in Hq.
  now apply binary_round_aux_nonneg.
Qed.

Lemma SFcompare_antisym (x y : spec_float) :
  SFcompare y x = option_map CompOpp (SFcompare x y).
Proof.
  destruct x as [sx|sx| |sx mx ex], y as [sy|sy| |sy my ey]; cbn [SFcompare option_map];
    try reflexivity;
    try (destruct sx; reflexivity); try (destruct sy; reflexivity);
    try (destruct sx, sy; reflexivity).
  destruct sx, sy; try reflexivity; f_equal;
    rewrite (Z.compare_antisym ex ey); destruct (ex ?= ey); cbn [CompOpp]; try reflexivity.
  all: rewrite ?Pos.compare_cont_antisym; cbn [CompOpp]; try reflexivity.
  all: match goal with |- ?g => idtac g end.
Qed.

(** What a valid finite binary64 number looks like. *)
Lemma digits2_pos_size (m : positive) : digits2_pos m = Pos.size m.
Proof. induction m as [m IH|m IH|]; cbn; now rewrite ?IH. Qed.

Lemma digits2_bounds (m : positive) :
  2 ^ (Z.pos (digits2_pos m) - 1) <= Z.pos m < 2 ^ Z.pos (digits2_pos m).
Proof.
  rewrite digits2_pos_size.
  assert (Hgt : Z.pos m < 2 ^ Z.pos (Pos.size m)).
  { rewrite <- (Pos2Z.inj_pow 2). apply Pos2Z.pos_lt_pos, Pos.size_gt. }
  assert (Hle : 2 ^ Z.pos (Pos.size m) <= 2 * Z.pos m).
  { change (2 * Z.pos m) with (Z.pos m~0). rewrite <- (Pos2Z.inj_pow 2).
    apply Pos2Z.pos_le_pos, Pos.size_le. }
  split; [|exact Hgt].
  replace (Z.pos (Pos.size m)) with (Z.succ (Z.pos (Pos.size m) - 1)) in Hle by lia.
  rewrite Z.pow_succ_r in Hle by lia. lia.
Qed.

Lemma bounded_shape (m : positive) (e : Z) :
  bounded prec emax m e = true ->
  -1074 <= e <= 971 /\ Z.pos m < 2 ^ 53 /\ (e = -1074 \/ 2 ^ 52 <= Z.pos m).
Proof.
  unfold bounded, canonical_mantissa, fexp, SpecFloat.emin, prec, emax.
  intros H. apply andb_prop in H as [H1 H2].
  apply Z.eqb_eq in H1. apply Z.leb_le in H2.
  pose proof (digits2_bounds m) as [Hlo Hhi].
  set (d := Z.pos (digits2_pos m)) in *.
  assert (Hd : d <= 53) by lia.
  split; [lia|]. split.
  - eapply Z.lt_le_trans; [exact Hhi|]. apply Z.pow_le_mono_r; lia.
  - destruct (Z.eq_dec e (-1074)) as [|Hne]; [now left|right].
    assert (d = 53) by lia. replace 52 with (d - 1) by lia. exact Hlo.
Qed.

Lemma finite_value_bounds (m : positive) (e : Z) :
  bounded prec emax m e = true ->
  0 < Z.pos m * 2 ^ (e + 1074) < 2 ^ 2098.
Proof.
  intros H. apply bounded_shape in H as (He & Hm & _).
  assert (0 < 2 ^ (e + 1074)) by (apply Z.pow_pos_nonneg; lia).
  split; [lia|].
  assert (2 ^ (e + 1074) <= 2 ^ 2045) by (apply Z.pow_le_mono_r; lia).
  change (2 ^ 2098) with (2 ^ 53 * 2 ^ 2045). nia.
Qed.

Lemma compare_finite (m1 m2 : positive) (e1 e2 : Z) :
  bounded prec emax m1 e1 = true -> bounded prec emax m2 e2 = true ->
  match e1 ?= e2 with
  | Lt => Lt
  | Gt => Gt
  | Eq => Pos.compare_cont Eq m1 m2
  end = (Z.pos m1 * 2 ^ (e1 + 1074) ?= Z.pos m2 * 2 ^ (e2 + 1074)).
Proof.
  intros H1 H2.
  apply bounded_shape in H1 as (He1 & Hm1 & Hn1).
  apply bounded_shape in H2 as (He2 & Hm2 & Hn2).
  change (2 ^ 53) with (2 * 2 ^ 52) in Hm1, Hm2.
  destruct (Z.compare_spec e1 e2) as [->|Hlt|Hgt].
  - rewrite <- Zmult_compare_compat_r by (apply Z.lt_gt, Z.pow_pos_nonneg; lia).
    reflexivity.
  - symmetry. apply Z.compare_lt_iff.
    replace (e2 + 1074) with ((e1 + 1074) + (e2 - e1)) by lia.
    rewrite (Z.pow_add_r 2 (e1 + 1074) (e2 - e1)) by lia.
    assert (0 < 2 ^ (e1 + 1074)) by (apply Z.pow_pos_nonneg; lia).
    assert (2 ^ 1 <= 2 ^ (e2 - e1)) by (apply Z.pow_le_mono_r; lia).
    change (2 ^ 1) with 2 in *. destruct Hn2 as [|Hn2]; [exfalso; clear - He1 H1 Hlt; lia|].
    set (a := 2 ^ (e1 + 1074)) in *. set (b := 2 ^ (e2 - e1)) in *.
    set (c := 2 ^ 52) in *. clearbody a b c.
    assert (Z.pos m1 * a < 2 * c * a) by nia.
    assert (2 * c <= Z.pos m2 * b) by nia.
    assert (2 * c * a <= Z.pos m2 * b * a) by nia. lia.
  - symmetry. apply Z.compare_gt_iff.
    replace (e1 + 1074) with ((e2 + 1074) + (e1 - e2)) by lia.
    rewrite (Z.pow_add_r 2 (e2 + 1074) (e1 - e2)) by lia.
    assert (0 < 2 ^ (e2 + 1074)) by (apply Z.pow_pos_nonneg; lia).
    assert (2 ^ 1 <= 2 ^ (e1 - e2)) by (apply Z.pow_le_mono_r; lia).
    change (2 ^ 1) with 2 in *.
    destruct Hn1 as [|Hn1]; [exfalso; clear - He2 H1 Hgt; lia|].
    set (a := 2 ^ (e2 + 1074)) in *. set (b := 2 ^ (e1 - e2)) in *.
    set (c := 2 ^ 52) in *. clearbody a b c.
    assert (Z.pos m2 * a < 2 * c * a) by nia.
    assert (2 * c <= Z.pos m1 * b) by nia.
    assert (2 * c * a <= Z.pos m1 * b * a) by nia. lia.
Qed.

Lemma compare_value (x y : spec_float) :
  valid_binary x = true -> valid_binary y = true ->
  is_nan x = false -> is_nan y = false ->
  SFcompare x y = Some (value x ?= value y).
Proof.
  destruct x as [sx|sx| |sx mx ex], y as [sy|sy| |sy my ey];
    cbn [valid_binary is_nan SFcompare value]; intros Vx Vy Nx Ny;
    try discriminate; try reflexivity.
  - destruct sy; reflexivity.
  - pose proof (finite_value_bounds _ _ Vy). destruct sy; cbn [cond_Zopp]; f_equal; symmetry.
    + apply Z.compare_gt_iff; lia.
    + apply Z.compare_lt_iff; lia.
  - destruct sx; reflexivity.
  - destruct sx, sy; reflexivity.
  - pose proof (finite_value_bounds _ _ Vy).
    destruct sx, sy; cbn [cond_Zopp]; f_equal; symmetry;
      first [apply Z.compare_gt_iff; lia | apply Z.compare_lt_iff; lia].
  - pose proof (finite_value_bounds _ _ Vx). destruct sx; cbn [cond_Zopp]; f_equal; symmetry.
    + apply Z.compare_lt_iff; lia.
    + apply Z.compare_gt_iff; lia.
  - pose proof (finite_value_bounds _ _ Vx).
    destruct sx, sy; cbn [cond_Zopp]; f_equal; symmetry;
      first [apply Z.compare_gt_iff; lia | apply Z.compare_lt_iff; lia].
  - pose proof (finite_value_bounds _ _ Vx). pose proof (finite_value_bounds _ _ Vy).
    pose proof (compare_finite _ _ _ _ Vx Vy) as Hc.
    destruct sx, sy; cbn [cond_Zopp]; f_equal.
    + rewrite Z.compare_opp, <- (compare_finite _ _ _ _ Vy Vx).
      rewrite (Z.compare_antisym ex ey). destruct (ex ?= ey); cbn [CompOpp]; try reflexivity.
      now rewrite Pos.compare_cont_antisym.
    + symmetry. apply Z.compare_lt_iff; lia.
    + symmetry. apply Z.compare_gt_iff; lia.
    + exact Hc.
Qed.

Lemma iter_xO (m d : positive) : Z.pos (Pos.iter xO m d) = Z.pos m * 2 ^ Z.pos d.
Proof.
  induction d as [|d IH] using Pos.peano_ind.
  - cbn [Pos.iter]. rewrite Pos2Z.inj_xO. change (2 ^ 1) with 2. lia.
  - rewrite Pos.iter_succ, Pos2Z.inj_xO, IH, Pos2Z.inj_succ, Z.pow_succ_r by lia. ring.
Qed.

Lemma shl_align_spec (m : positive) (e e' : Z) :
  snd (shl_align m e e') = Z.min e e' /\
  Z.pos (fst (shl_align m e e')) = Z.pos m * 2 ^ (e - Z.min e e').
Proof.
  unfold shl_align. destruct (e' - e) as [|d|d] eqn:E; cbn [fst snd].
  - rewrite Z.min_l by lia. rewrite Z.sub_diag. cbn. lia.
  - rewrite Z.min_l by lia. rewrite Z.sub_diag. cbn. lia.
  - rewrite Z.min_r by lia. split; [reflexivity|].
    rewrite iter_xO. f_equal. f_equal. lia.
Qed.

Lemma snd_shr (r : shr_record) (e n : Z) : snd (shr r e n) = e + Z.max 0 n.
Proof. destruct n; cbn [shr snd]; lia. Qed.

Lemma fexp_bounds (z : Z) : -1074 <= fexp prec emax z /\ fexp prec emax z = Z.max (z - 53) (-1074).
Proof. unfold fexp, SpecFloat.emin, prec, emax. lia. Qed.

Lemma shr_fexp_pos (m e : Z) (l : location) :
  0 < m -> -1074 <= e ->
  0 < shr_m (fst (shr_fexp prec emax m e l)) /\ -1074 <= snd (shr_fexp prec emax m e l).
Proof.
  intros Hm He. unfold shr_fexp. rewrite snd_shr.
  rewrite shr_m_shr by (rewrite shr_m_shr_record_of_loc; lia).
  rewrite shr_m_shr_record_of_loc. split; [|lia].
  destruct m as [|p|p]; try lia. cbn [Zdigits2].
  pose proof (digits2_bounds p) as [Hlo _].
  destruct (fexp_bounds (Z.pos (digits2_pos p) + e)) as [_ ->].
  set (d := Z.pos (digits2_pos p)) in *.
  apply Z.div_str_pos. split; [apply Z.pow_pos_nonneg; lia|].
  eapply Z.le_trans; [|exact Hlo]. apply Z.pow_le_mono_r; lia.
Qed.

Lemma binary_round_aux_pos (s : bool) (m e : Z) (l : location) :
  0 < m -> -1074 <= e ->
  match SFround_aux s m e l with
  | S754_infinity s' | S754_finite s' _ _ => s' = s
  | S754_zero _ | S754_nan => False
  end.
Proof.
  intros Hm He. unfold binary_round_aux.
  pose proof (shr_fexp_pos m e l Hm He) as [H1 H1'].
  destruct (shr_fexp prec emax m e l) as [mrs' e'] eqn:E1. cbn [fst snd] in H1, H1'.
  pose proof (round_nearest_even_bounds (shr_m mrs') (loc_of_shr_record mrs')) as H2.
  set (m2 := round_nearest_even _ _) in *.
  assert (H3 : 0 < m2) by lia.
  pose proof (shr_fexp_pos m2 e' loc_Exact H3 H1') as [H4 _].
  destruct (shr_fexp prec emax m2 e' loc_Exact) as [mrs'' e''] eqn:E2. cbn [fst] in H4.
  destruct (shr_m mrs'') as [|p|p]; try lia.
  destruct (e'' <=? emax - prec); reflexivity.
Qed.

Lemma binary_round_pos (s : bool) (m : positive) (e : Z) :
  -1074 <= e ->
  match binary_round prec emax s m e with
  | S754_infinity s' | S754_finite s' _ _ => s' = s
  | S754_zero _ | S754_nan => False
  end.
Proof.
  intros He. unfold binary_round.
  pose proof (shl_align_spec m e (fexp prec emax (Z.pos (digits2_pos m) + e))) as [Hs _].
  destruct (shl_align _ _ _) as [mz ez]. cbn [snd] in Hs.
  apply binary_round_aux_pos; [lia|].
  destruct (fexp_bounds (Z.pos (digits2_pos m) + e)) as [Hf _]. lia.
Qed.

(** The sign of a difference of non-negative numbers decides their order. *)
Lemma SFsub_sign (x y : spec_float) :
  valid_binary x = true -> valid_binary y = true -> nonneg x -> nonneg y ->
  SFltb (S754_zero false) (SF64sub y x) = SFltb x y.
Proof.
  intros Vx Vy Hx Hy.
  destruct x as [sx|sx| |sx mx ex], y as [sy|sy| |sy my ey]; cbn [nonneg] in Hx, Hy;
    try contradiction; subst; try (destruct sx; reflexivity); try (destruct sy; reflexivity);
    try (destruct sx, sy; reflexivity); try reflexivity.
  unfold SFltb at 2. rewrite compare_value by (assumption || reflexivity).
  cbn [value cond_Zopp]. cbn [valid_binary] in Vx, Vy.
  apply bounded_shape in Vx as (Hex & _). apply bounded_shape in Vy as (Hey & _).
  cbn [SF64sub SFsub cond_Zopp].
  pose proof (shl_align_spec my ey (Z.min ey ex)) as [_ Hmy].
  pose proof (shl_align_spec mx ex (Z.min ey ex)) as [_ Hmx].
  rewrite Hmy, Hmx.
  rewrite (Z.min_r ey (Z.min ey ex)), (Z.min_r ex (Z.min ey ex)) by lia.
  set (ez := Z.min ey ex) in *.
  assert (Hvy : Z.pos my * 2 ^ (ey + 1074) = Z.pos my * 2 ^ (ey - ez) * 2 ^ (ez + 1074)).
  { rewrite <- Z.mul_assoc, <- Z.pow_add_r by lia. do 2 f_equal. lia. }
  assert (Hvx : Z.pos mx * 2 ^ (ex + 1074) = Z.pos mx * 2 ^ (ex - ez) * 2 ^ (ez + 1074)).
  { rewrite <- Z.mul_assoc, <- Z.pow_add_r by lia. do 2 f_equal. lia. }
  rewrite Hvy, Hvx.
  assert (HP : 0 < 2 ^ (ez + 1074)) by (apply Z.pow_pos_nonneg; lia).
  set (a := Z.pos my * 2 ^ (ey - ez)) in *. set (b := Z.pos mx * 2 ^ (ex - ez)) in *.
  destruct (a - b) as [|p|p] eqn:E; cbn [binary_normalize].
  - replace a with b by lia. now rewrite Z.compare_refl.
  - pose proof (binary_round_pos false p ez ltac:(lia)) as Hr.
    assert (Hlt : b * 2 ^ (ez + 1074) < a * 2 ^ (ez + 1074)) by nia.
    apply Z.compare_lt_iff in Hlt. rewrite Hlt.
    destruct (binary_round prec emax false p ez) as [| | |]; try contradiction; now subst.
  - pose proof (binary_round_pos true p ez ltac:(lia)) as Hr.
    assert (Hlt : a * 2 ^ (ez + 1074) < b * 2 ^ (ez + 1074)) by nia.
    apply Z.compare_gt_iff in Hlt. rewrite Hlt.
    destruct (binary_round prec emax true p ez) as [| | |]; try contradiction; now subst.
Qed.

Lemma digits2_unique (m : positive) (n : Z) :
  2 ^ (n - 1) <= Z.pos m < 2 ^ n -> Z.pos (digits2_pos m) = n.
Proof.
  intros [Hlo Hhi]. pose proof (digits2_bounds m) as [Dlo Dhi].
  set (d := Z.pos (digits2_pos m)) in *.
  assert (Hd : 0 < d) by (subst d; lia).
  destruct (Z.lt_trichotomy d n) as [H|[H|H]]; [exfalso| exact H | exfalso].
  - assert (2 ^ d <= 2 ^ (n - 1)) by (apply Z.pow_le_mono_r; lia). lia.
  - assert (0 <= n).
    { destruct (Z.le_gt_cases 0 n) as [|Hn]; [assumption|].
      rewrite (Z.pow_neg_r 2 n) in Hhi by lia. lia. }
    assert (2 ^ n <= 2 ^ (d - 1)) by (apply Z.pow_le_mono_r; lia). lia.
Qed.

Lemma digits2_shift (p m : positive) (k : Z) :
  0 <= k -> Z.pos m = Z.pos p * 2 ^ k ->
  Z.pos (digits2_pos m) = Z.pos (digits2_pos p) + k.
Proof.
  intros Hk Hm. apply digits2_unique. rewrite Hm.
  pose proof (digits2_bounds p) as [Dlo Dhi].
  set (d := Z.pos (digits2_pos p)) in *.
  assert (Hd : 0 < d) by (subst d; lia).
  replace (d + k - 1) with (d - 1 + k) by lia.
  rewrite !Z.pow_add_r by lia.
  assert (0 < 2 ^ k) by (apply Z.pow_pos_nonneg; lia). nia.
Qed.

Lemma iter_shr_1_exact (n : nat) (m : Z) :
  0 <= m ->
  Nat.iter n shr_1 (Build_shr_record (m * 2 ^ Z.of_nat n) false false) =
  Build_shr_record m false false.
Proof.
  intros Hm. induction n as [|n IH].
  - cbn [Nat.iter nat_rect]. change (2 ^ Z.of_nat 0) with 1. now rewrite Z.mul_1_r.
  - rewrite Nat.iter_succ_r.
    replace (m * 2 ^ Z.of_nat (S n)) with (2 * (m * 2 ^ Z.of_nat n))
      by (rewrite Nat2Z.inj_succ, Z.pow_succ_r by lia; ring).
    assert (Hs : shr_1 (Build_shr_record (2 * (m * 2 ^ Z.of_nat n)) false false) =
                 Build_shr_record (m * 2 ^ Z.of_nat n) false false).
    { assert (0 <= m * 2 ^ Z.of_nat n) by (apply Z.mul_nonneg_nonneg; [lia|apply Z.pow_nonneg; lia]).
      destruct (m * 2 ^ Z.of_nat n) as [|q|q]; [reflexivity | reflexivity | lia]. }
    rewrite Hs. exact IH.
Qed.

Lemma shr_exact (m e n : Z) :
  0 <= m -> 0 <= n ->
  shr (Build_shr_record (m * 2 ^ n) false false) e n =
  (Build_shr_record m false false, e + n).
Proof.
  intros Hm Hn. destruct n as [|q|q]; [| |lia].
  - cbn [shr]. change (2 ^ 0) with 1. now rewrite Z.mul_1_r, Z.add_0_r.
  - cbn [shr]. rewrite iter_pos_nat. f_equal.
    rewrite <- (positive_nat_Z q). now apply iter_shr_1_exact.
Qed.

Lemma binary_round_aux_exact (s : bool) (p : positive) (j e : Z) :
  let d := Z.pos (digits2_pos p) in
  0 <= j -> 53 <= d + j -> d <= 53 ->
  -1074 <= e + d + j - 53 <= 971 ->
  SFround_aux s (Z.pos p * 2 ^ j) e loc_Exact =
  S754_finite s (Z.to_pos (Z.pos p * 2 ^ (53 - d))) (e + d + j - 53).
Proof.
  intros d Hj Hdj Hd He.
  assert (Hpos : 0 < Z.pos p * 2 ^ (53 - d)).
  { apply Z.mul_pos_pos; [lia|]. apply Z.pow_pos_nonneg; lia. }
  set (c := Z.to_pos (Z.pos p * 2 ^ (53 - d))).
  assert (Hc : Z.pos c = Z.pos p * 2 ^ (53 - d)) by (subst c; now rewrite Z2Pos.id).
  assert (Hdc : Z.pos (digits2_pos c) = 53).
  { rewrite (digits2_shift p c (53 - d)) by (lia || exact Hc). fold d. lia. }
  assert (Hm : Z.pos p * 2 ^ j = Z.pos c * 2 ^ (d + j - 53)).
  { rewrite Hc, <- Z.mul_assoc, <- Z.pow_add_r by lia. do 2 f_equal. lia. }
  assert (Hpj : 0 < Z.pos p * 2 ^ j).
  { apply Z.mul_pos_pos; [lia|]. apply Z.pow_pos_nonneg; lia. }
  assert (Hdm : Zdigits2 (Z.pos p * 2 ^ j) = d + j).
  { destruct (Z.pos p * 2 ^ j) as [|q|q] eqn:E; try lia. cbn [Zdigits2].
    apply digits2_shift; [lia | now rewrite E]. }
  unfold binary_round_aux.
  assert (H1 : shr_fexp prec emax (Z.pos p * 2 ^ j) e loc_Exact =
               (Build_shr_record (Z.pos c) false false, e + (d + j - 53))).
  { unfold shr_fexp. rewrite Hdm.
    destruct (fexp_bounds (d + j + e)) as [_ ->].
    replace (Z.max (d + j + e - 53) (-1074) - e) with (d + j - 53) by lia.
    cbn [shr_record_of_loc]. rewrite Hm. apply shr_exact; lia. }
  rewrite H1. cbn [shr_m loc_of_shr_record round_nearest_even].
  assert (H2 : shr_fexp prec emax (Z.pos c) (e + (d + j - 53)) loc_Exact =
               (Build_shr_record (Z.pos c) false false, e + (d + j - 53))).
  { unfold shr_fexp. cbn [Zdigits2]. rewrite Hdc.
    destruct (fexp_bounds (53 + (e + (d + j - 53)))) as [_ ->].
    replace (Z.max (53 + (e + (d + j - 53)) - 53) (-1074) - (e + (d + j - 53))) with 0 by lia.
    reflexivity. }
  rewrite H2. cbn [shr_m].
  replace (e + (d + j - 53)) with (e + d + j - 53) by lia.
  destruct (Z.leb_spec (e + d + j - 53) (emax - prec)) as [_|Hgt]; [reflexivity|].
  unfold emax, prec in Hgt. lia.
Qed.

Lemma binary_round_exact (s : bool) (m p : positive) (k : Z) :
  0 <= k -> Z.pos m = Z.pos p * 2 ^ k -> Z.pos p < 2 ^ 53 ->
  binary_round prec emax s m (- k) = canon s p.
Proof.
  intros Hk Hm Hp. unfold binary_round, canon.
  pose proof (digits2_bounds p) as [Dlo Dhi].
  set (d := Z.pos (digits2_pos p)) in *.
  assert (Hd0 : 0 < d) by (subst d; lia).
  assert (Hd : d <= 53).
  { destruct (Z.le_gt_cases d 53) as [|Hgt]; [assumption|exfalso].
    assert (2 ^ 53 <= 2 ^ (d - 1)) by (apply Z.pow_le_mono_r; lia). lia. }
  rewrite (digits2_shift p m k Hk Hm). fold d.
  destruct (fexp_bounds (d + k + - k)) as [_ ->].
  replace (Z.max (d + k + - k - 53) (-1074)) with (d - 53) by lia.
  pose proof (shl_align_spec m (- k) (d - 53)) as [He' Hm'].
  destruct (shl_align m (- k) (d - 53)) as [m' e']. cbn [fst snd] in He', Hm'.
  set (j := - e').
  assert (Hj : 0 <= j) by lia.
  assert (Hmj : Z.pos m' = Z.pos p * 2 ^ j).
  { rewrite Hm', Hm, <- Z.mul_assoc, <- Z.pow_add_r by lia. do 2 f_equal. lia. }
  rewrite Hmj.
  rewrite (binary_round_aux_exact s p j e') by (fold d; lia).
  fold d. f_equal. lia.
Qed.

Lemma canon_add (a b : positive) :
  Z.pos a + Z.pos b < 2 ^ 53 ->
  SF64add (canon false a) (canon false b) = canon false (a + b).
Proof.
  intros Hab. unfold canon. cbn [SF64add SFadd cond_Zopp].
  pose proof (digits2_bounds a) as [Alo Ahi]. pose proof (digits2_bounds b) as [Blo Bhi].
  set (da := Z.pos (digits2_pos a)) in *. set (db := Z.pos (digits2_pos b)) in *.
  assert (Hda0 : 0 < da) by (subst da; lia). assert (Hdb0 : 0 < db) by (subst db; lia).
  assert (Hda : da <= 53).
  { destruct (Z.le_gt_cases da 53) as [|Hgt]; [assumption|exfalso].
    assert (2 ^ 53 <= 2 ^ (da - 1)) by (apply Z.pow_le_mono_r; lia). lia. }
  assert (Hdb : db <= 53).
  { destruct (Z.le_gt_cases db 53) as [|Hgt]; [assumption|exfalso].
    assert (2 ^ 53 <= 2 ^ (db - 1)) by (apply Z.pow_le_mono_r; lia). lia. }
  set (ez := Z.min (da - 53) (db - 53)).
  set (ma := Z.to_pos (Z.pos a * 2 ^ (53 - da))). set (mb := Z.to_pos (Z.pos b * 2 ^ (53 - db))).
  assert (Hma : Z.pos ma = Z.pos a * 2 ^ (53 - da)).
  { subst ma. rewrite Z2Pos.id; [reflexivity|].
    apply Z.mul_pos_pos; [lia|]. apply Z.pow_pos_nonneg; lia. }
  assert (Hmb : Z.pos mb = Z.pos b * 2 ^ (53 - db)).
  { subst mb. rewrite Z2Pos.id; [reflexivity|].
    apply Z.mul_pos_pos; [lia|]. apply Z.pow_pos_nonneg; lia. }
  pose proof (shl_align_spec ma (da - 53) ez) as [_ Ha'].
  pose proof (shl_align_spec mb (db - 53) ez) as [_ Hb'].
  rewrite (Z.min_r (da - 53) ez) in Ha' by lia.
  rewrite (Z.min_r (db - 53) ez) in Hb' by lia.
  assert (Ha2 : Z.pos (fst (shl_align ma (da - 53) ez)) = Z.pos a * 2 ^ (- ez)).
  { rewrite Ha', Hma, <- Z.mul_assoc, <- Z.pow_add_r by lia. do 2 f_equal. lia. }
  assert (Hb2 : Z.pos (fst (shl_align mb (db - 53) ez)) = Z.pos b * 2 ^ (- ez)).
  { rewrite Hb', Hmb, <- Z.mul_assoc, <- Z.pow_add_r by lia. do 2 f_equal. lia. }
  set (xa := fst (shl_align ma (da - 53) ez)) in *.
  set (xb := fst (shl_align mb (db - 53) ez)) in *.
  change (Z.pos xa + Z.pos xb) with (Z.pos (xa + xb)). cbn [binary_normalize].
  replace ez with (- (- ez)) at 1 by lia.
  apply binary_round_exact; [lia| |exact Hab].
  rewrite !Pos2Z.inj_add, Ha2, Hb2. ring.
Qed.

Lemma normalize_canon (p : positive) :
  Z.pos p < 2 ^ 53 -> binary_normalize prec emax (Z.pos p) 0 false = canon false p.
Proof.
  intros Hp. cbn [binary_normalize]. change 0 with (- 0).
  apply binary_round_exact; [lia | | exact Hp]. change (2 ^ 0) with 1. lia.
Qed.

(** Sums of non-negative integers that stay below 2^53 are exact. *)
Lemma normalize_add (a b : Z) :
  0 <= a -> 0 <= b -> a + b < 2 ^ 53 ->
  SF64add (binary_normalize prec emax a 0 false) (binary_normalize prec emax b 0 false) =
  binary_normalize prec emax (a + b) 0 false.
Proof.
  intros Ha Hb Hab.
  destruct a as [|a|a]; [|clear Ha|lia]; (destruct b as [|b|b]; [|clear Hb|lia]).
  - reflexivity.
  - rewrite Z.add_0_l, normalize_canon by lia. reflexivity.
  - rewrite Z.add_0_r, normalize_canon by lia. reflexivity.
  - rewrite !normalize_canon by lia. rewrite canon_add by exact Hab.
    change (Z.pos a + Z.pos b) with (Z.pos (a + b)).
    rewrite normalize_canon; [reflexivity|]. rewrite Pos2Z.inj_add. exact Hab.
Qed.

Lemma shr_1_bits (R : shr_record) :
  0 <= shr_m R ->
  shr_r (shr_1 R) || shr_s (shr_1 R) = true ->
  shr_r R || shr_s R = true \/ Z.odd (shr_m R) = true.
Proof.
  destruct R as [m r s]. cbn [shr_m shr_r shr_s]. intros Hm.
  destruct m as [|[p|p|]|p]; cbn [shr_1 shr_r shr_s]; try lia; auto.
Qed.

Lemma pow2_divide (n : Z) (m : Z) :
  0 <= n -> m mod 2 ^ (Z.succ n) = 0 -> m mod 2 ^ n = 0 /\ Z.odd (m / 2 ^ n) = false.
Proof.
  intros Hn H.
  assert (Hp : 0 < 2 ^ n) by (apply Z.pow_pos_nonneg; lia).
  apply Z.mod_divide in H; [|rewrite Z.pow_succ_r by lia; lia].
  destruct H as [t Ht]. rewrite Z.pow_succ_r in Ht by lia.
  assert (Hm : m = (t * 2) * 2 ^ n) by (rewrite Ht; ring).
  rewrite Hm. split.
  - apply Z.mod_mul. lia.
  - rewrite Z.div_mul by lia. rewrite Z.odd_mul. cbn. now rewrite andb_false_r.
Qed.

Lemma iter_shr_1_bits (n : nat) (m : Z) :
  0 <= m ->
  let R := Nat.iter n shr_1 (Build_shr_record m false false) in
  shr_r R || shr_s R = true -> m mod 2 ^ Z.of_nat n <> 0.
Proof.
  intros Hm. induction n as [|n IH]; cbn zeta in *.
  - cbn. discriminate.
  - rewrite Nat.iter_succ. intros Hb Hmod.
    rewrite Nat2Z.inj_succ in Hmod. apply pow2_divide in Hmod as [H0 Hodd]; [|lia].
    apply shr_1_bits in Hb.
    + destruct Hb as [Hb|Hb]; [now apply IH|].
      rewrite iter_shr_1_m in Hb by (cbn; lia). cbn [shr_m] in Hb. congruence.
    + rewrite iter_shr_1_m by (cbn; lia). cbn [shr_m]. apply Z.div_pos; [lia|].
      apply Z.pow_pos_nonneg; lia.
Qed.

(** The first shift of [binary_round_aux] on an exact input: the quotient,
    and a round-up only when bits were lost. *)
Lemma shr_exact_input (m e n : Z) :
  0 < m -> 0 <= n ->
  let mrs := fst (shr (Build_shr_record m false false) e n) in
  let q := m / 2 ^ n in
  shr_m mrs = q /\
  q <= round_nearest_even (shr_m mrs) (loc_of_shr_record mrs) <= q + 1 /\
  (round_nearest_even (shr_m mrs) (loc_of_shr_record mrs) = q \/ q * 2 ^ n < m).
Proof.
  intros Hm Hn. cbn zeta.
  assert (Hq : shr_m (fst (shr (Build_shr_record m false false) e n)) = m / 2 ^ n).
  { rewrite shr_m_shr by (cbn; lia). cbn [shr_m]. now rewrite Z.max_r by lia. }
  split; [exact Hq|]. split; [rewrite <- Hq; apply round_nearest_even_bounds|].
  set (mrs := fst (shr (Build_shr_record m false false) e n)) in *.
  destruct (shr_r mrs || shr_s mrs) eqn:B.
  - right. assert (Hmod : m mod 2 ^ n <> 0).
    { subst mrs. destruct n as [|p|p]; [cbn in B; discriminate| |lia].
      cbn [shr fst] in B. rewrite iter_pos_nat in B.
      rewrite <- (positive_nat_Z p). now apply iter_shr_1_bits; [lia|]. }
    assert (Hp : 0 < 2 ^ n) by (apply Z.pow_pos_nonneg; lia).
    pose proof (Z.div_mod m (2 ^ n) ltac:(lia)) as Hdm.
    pose proof (Z.mod_pos_bound m (2 ^ n) Hp). lia.
  - left. rewrite <- Hq. apply orb_false_elim in B as [Br Bs].
    destruct mrs as [mm r s]. cbn [shr_r shr_s] in Br, Bs. subst. reflexivity.
Qed.

Lemma pow2_split (a b : Z) : 0 <= a <= b -> 2 ^ b = 2 ^ a * 2 ^ (b - a).
Proof. intros H. rewrite <- Z.pow_add_r by lia. f_equal. lia. Qed.

Lemma pow2_pos (a : Z) : 0 <= a -> 0 < 2 ^ a.
Proof. intros H. apply Z.pow_pos_nonneg; lia. Qed.

Lemma div_pow2_normal (m : positive) (k : Z) :
  0 <= k -> k = Z.pos (digits2_pos m) - 53 -> 2 ^ 52 <= Z.pos m / 2 ^ k.
Proof.
  intros Hk Hd. pose proof (digits2_bounds m) as [Hlo _].
  apply Z.div_le_lower_bound; [now apply pow2_pos|].
  rewrite <- Z.pow_add_r by lia.
  replace (k + 52) with (Z.pos (digits2_pos m) - 1) by lia. exact Hlo.
Qed.

(** No binary64 number lies strictly between two neighbours [q * 2^E] and
    [(q + 1) * 2^E] of the format. *)
Lemma no_number_between (q E : Z) (mw : positive) (ew : Z) :
  bounded prec emax mw ew = true ->
  -1074 <= E -> (E = -1074 \/ 2 ^ 52 <= q) ->
  q * 2 ^ (E + 2200) < Z.pos mw * 2 ^ (ew + 2200) ->
  (q + 1) * 2 ^ (E + 2200) <= Z.pos mw * 2 ^ (ew + 2200).
Proof.
  intros Hw HE Hq Hlt. apply bounded_shape in Hw as (Hew & Hmw & Hnw).
  destruct (Z.le_gt_cases E ew) as [Hle|Hgt].
  - rewrite (pow2_split (E + 2200) (ew + 2200)) in * by lia.
    pose proof (pow2_pos (E + 2200) ltac:(lia)) as HP.
    pose proof (pow2_pos (ew + 2200 - (E + 2200)) ltac:(lia)) as HK.
    set (P := 2 ^ (E + 2200)) in *. set (K := 2 ^ (ew + 2200 - (E + 2200))) in *.
    clearbody P K. assert (q < Z.pos mw * K) by nia. nia.
  - exfalso. destruct Hq as [Hq|Hq]; [lia|].
    rewrite (pow2_split (ew + 2200) (E + 2200)) in Hlt by lia.
    pose proof (pow2_pos (ew + 2200) ltac:(lia)) as HP.
    assert (HK : 2 ^ 1 <= 2 ^ (E + 2200 - (ew + 2200))) by (apply Z.pow_le_mono_r; lia).
    change (2 ^ 1) with 2 in HK. change (2 ^ 53) with (2 * 2 ^ 52) in Hmw.
    set (P := 2 ^ (ew + 2200)) in *. set (K := 2 ^ (E + 2200 - (ew + 2200))) in *.
    set (c := 2 ^ 52) in *. clearbody P K c.
    assert (Z.pos mw * P < 2 * c * P) by nia.
    assert (2 * c <= q * K) by nia.
    assert (2 * c * P <= q * K * P) by nia. nia.
Qed.

Lemma round_aux_le (m : positive) (e : Z) (mw : positive) (ew : Z) :
  -2200 <= e -> bounded prec emax mw ew = true ->
  e <= fexp prec emax (Z.pos (digits2_pos m) + e) ->
  Z.pos m * 2 ^ (e + 2200) <= Z.pos mw * 2 ^ (ew + 2200) ->
  match SFround_aux false (Z.pos m) e loc_Exact with
  | S754_zero _ => True
  | S754_finite _ f ef => Z.pos f * 2 ^ (ef + 2200) <= Z.pos mw * 2 ^ (ew + 2200)
  | _ => False
  end.
Proof.
  intros He Hw Hn Hle.
  pose proof (bounded_shape _ _ Hw) as (Hew & Hmw & _).
  set (d := Z.pos (digits2_pos m)) in *.
  destruct (fexp_bounds (d + e)) as [HE HEeq].
  set (E := fexp prec emax (d + e)) in *.
  set (W := Z.pos mw * 2 ^ (ew + 2200)) in *.
  unfold binary_round_aux. unfold shr_fexp at 1. cbn [Zdigits2 shr_record_of_loc].
  fold d E.
  destruct (shr_exact_input (Z.pos m) e (E - e) ltac:(lia) ltac:(lia)) as (Hq & Hq' & Hup).
  pose proof (snd_shr (Build_shr_record (Z.pos m) false false) e (E - e)) as He'.
  destruct (shr (Build_shr_record (Z.pos m) false false) e (E - e)) as [mrs' e'].
  cbn [fst snd] in Hq, Hq', Hup, He'. rewrite Z.max_r in He' by lia.
  assert (HeE : e' = E) by lia. clear He'. subst e'.
  set (q := Z.pos m / 2 ^ (E - e)) in *.
  set (q' := round_nearest_even (shr_m mrs') (loc_of_shr_record mrs')) in *.
  assert (Hq0 : 0 <= q) by (apply Z.div_pos; [lia|now apply pow2_pos; lia]).
  assert (Hnorm : -1074 < E -> 2 ^ 52 <= q).
  { intros HEn. apply div_pow2_normal; [lia|]. fold d. lia. }
  (* the rounded mantissa stays below the bound *)
  assert (HK : q' * 2 ^ (E + 2200) <= W).
  { assert (Hqm : q * 2 ^ (E - e) <= Z.pos m).
    { rewrite Z.mul_comm. apply Z.mul_div_le. apply pow2_pos; lia. }
    assert (Hqe : q * 2 ^ (E + 2200) <= Z.pos m * 2 ^ (e + 2200)).
    { rewrite (pow2_split (e + 2200) (E + 2200)) by lia.
      replace (E + 2200 - (e + 2200)) with (E - e) by lia.
      pose proof (pow2_pos (e + 2200) ltac:(lia)). nia. }
    destruct Hup as [Hup|Hup]; [rewrite Hup; lia|].
    assert (Hlt : q * 2 ^ (E + 2200) < W).
    { eapply Z.lt_le_trans; [|exact Hle].
      rewrite (pow2_split (e + 2200) (E + 2200)) by lia.
      replace (E + 2200 - (e + 2200)) with (E - e) by lia.
      pose proof (pow2_pos (e + 2200) ltac:(lia)). nia. }
    assert (Hnb : (q + 1) * 2 ^ (E + 2200) <= W).
    { apply no_number_between; try assumption.
      destruct (Z.eq_dec E (-1074)); [now left | right; apply Hnorm; lia]. }
    pose proof (pow2_pos (E + 2200) ltac:(lia)). nia. }
  (* the second shift *)
  unfold shr_fexp. rewrite shr_m_shr_record_of_loc_eq.
  set (n2 := fexp prec emax (Zdigits2 q' + E) - E).
  pose proof (shr_m_shr (Build_shr_record q' false false) E n2 ltac:(cbn; lia)) as Hf.
  pose proof (snd_shr (Build_shr_record q' false false) E n2) as He''.
  destruct (shr (Build_shr_record q' false false) E n2) as [mrs'' e''].
  cbn [fst snd shr_m] in Hf, He''. rewrite Hf.
  pose proof (pow2_pos (Z.max 0 n2) ltac:(lia)) as HP2.
  assert (Hfq : q' / 2 ^ Z.max 0 n2 * 2 ^ Z.max 0 n2 <= q').
  { rewrite Z.mul_comm. now apply Z.mul_div_le. }
  assert (Hfle : q' / 2 ^ Z.max 0 n2 * 2 ^ (e'' + 2200) <= W).
  { eapply Z.le_trans; [|exact HK]. rewrite He''.
    rewrite (pow2_split (E + 2200) (E + Z.max 0 n2 + 2200)) by lia.
    replace (E + Z.max 0 n2 + 2200 - (E + 2200)) with (Z.max 0 n2) by lia.
    pose proof (pow2_pos (E + 2200) ltac:(lia)). nia. }
  assert (Hf0 : 0 <= q' / 2 ^ Z.max 0 n2) by (apply Z.div_pos; lia).
  destruct (q' / 2 ^ Z.max 0 n2) as [|f|f] eqn:Ef; [exact I| |lia].
  destruct (Z.leb_spec e'' (emax - prec)) as [_|Hbig]; [exact Hfle|].
  unfold emax, prec in Hbig.
  (* an overflow would exceed every finite number *)
  assert (Hf52 : 2 ^ 52 <= Z.pos f).
  { destruct (Z.le_gt_cases n2 0) as [Hn2|Hn2].
    - rewrite Z.max_l in * by lia. change (2 ^ 0) with 1 in Ef. rewrite Z.div_1_r in Ef.
      assert (2 ^ 52 <= q) by (apply Hnorm; lia). lia.
    - rewrite Z.max_r in * by lia. rewrite <- Ef.
      assert (Hq'pos : 0 < q') by nia.
      destruct q' as [|pq|pq] eqn:Eq'; try lia. cbn [Zdigits2] in n2.
      apply div_pow2_normal; [lia|].
      destruct (fexp_bounds (Z.pos (digits2_pos pq) + E)) as [_ Hfe].
      subst n2. rewrite Hfe in *. lia. }
  pose proof (pow2_pos (ew + 2200) ltac:(lia)).
  assert (2 ^ (ew + 2200) <= 2 ^ (971 + 2200)) by (apply Z.pow_le_mono_r; lia).
  assert (2 ^ (972 + 2200) <= 2 ^ (e'' + 2200)) by (apply Z.pow_le_mono_r; lia).
  assert (H2 : 2 ^ (972 + 2200) = 2 * 2 ^ (971 + 2200)).
  { replace (972 + 2200) with (Z.succ (971 + 2200)) by lia. apply Z.pow_succ_r. lia. }
  change (2 ^ 53) with (2 * 2 ^ 52) in Hmw.
  subst W. set (c := 2 ^ 52) in *. set (A := 2 ^ (971 + 2200)) in *.
  set (B := 2 ^ (e'' + 2200)) in *. set (C := 2 ^ (ew + 2200)) in *.
  set (D := 2 ^ (972 + 2200)) in *. clearbody c A B C D.
  assert (Z.pos mw * C < 2 * c * A) by nia.
  assert (c * D <= Z.pos f * B) by nia. nia.
Qed.

Lemma value_scaled (m : positive) (e : Z) :
  -1074 <= e ->
  Z.pos m * 2 ^ (e + 2200) = value (S754_finite false m e) * 2 ^ 1126.
Proof.
  intros He. cbn [value cond_Zopp]. rewrite <- Z.mul_assoc, <- Z.pow_add_r by lia.
  do 2 f_equal. lia.
Qed.

Lemma round_aux_at_most (m : positive) (e : Z) (mw : positive) (ew : Z) :
  -2200 <= e -> bounded prec emax mw ew = true ->
  e <= fexp prec emax (Z.pos (digits2_pos m) + e) ->
  Z.pos m * 2 ^ (e + 2200) <= value (S754_finite false mw ew) * 2 ^ 1126 ->
  at_most (S754_finite false mw ew) (SFround_aux false (Z.pos m) e loc_Exact).
Proof.
  intros He Hw Hn Hle. pose proof (bounded_shape _ _ Hw) as (Hew & _).
  rewrite <- value_scaled in Hle by lia.
  pose proof (round_aux_le m e mw ew He Hw Hn Hle) as H.
  pose proof (binary_round_aux_sign false (Z.pos m) e loc_Exact ltac:(lia)) as Hs.
  unfold at_most. destruct (SFround_aux false (Z.pos m) e loc_Exact) as [|?| |s f ef];
    try contradiction; [exact I|]. subst s.
  now rewrite <- value_scaled by lia.
Qed.

Lemma digits2_ge_53 (p : positive) : 2 ^ 52 <= Z.pos p -> 53 <= Z.pos (digits2_pos p).
Proof.
  intros H. pose proof (digits2_bounds p) as [_ Hhi].
  assert (Hlt : 2 ^ 52 < 2 ^ Z.pos (digits2_pos p)) by lia.
  apply Z.pow_lt_mono_r_iff in Hlt; lia.
Qed.

(** A product that does not exceed [w] is rounded to at most [w]. *)
Lemma SFmul_at_most (mx mc mw : positive) (ex ec ew : Z) :
  bounded prec emax mx ex = true -> bounded prec emax mc ec = true ->
  bounded prec emax mw ew = true ->
  value (S754_finite false mx ex) * value (S754_finite false mc ec) <=
    value (S754_finite false mw ew) * 2 ^ 1074 ->
  at_most (S754_finite false mw ew)
          (SF64mul (S754_finite false mx ex) (S754_finite false mc ec)).
Proof.
  intros Vx Vc Vw Hle.
  pose proof (bounded_shape _ _ Vx) as (Hex & Hmx & Hnx).
  pose proof (bounded_shape _ _ Vc) as (Hec & Hmc & Hnc).
  cbn [SF64mul SFmul xorb]. change (Z.pos (mx * mc)) with (Z.pos mx * Z.pos mc) in *.
  apply round_aux_at_most; [lia | exact Vw | |].
  - destruct (fexp_bounds (Z.pos (digits2_pos (mx * mc)) + (ex + ec))) as [Hf ->].
    destruct Hnx as [Hnx|Hnx]; [destruct Hnc as [Hnc|Hnc]; [lia|]|].
    + assert (53 <= Z.pos (digits2_pos (mx * mc))); [|lia].
      apply digits2_ge_53. rewrite Pos2Z.inj_mul. nia.
    + assert (53 <= Z.pos (digits2_pos (mx * mc))); [|lia].
      apply digits2_ge_53. rewrite Pos2Z.inj_mul. nia.
  - rewrite Pos2Z.inj_mul. cbn [value cond_Zopp] in *.
    replace (ex + ec + 2200) with ((ex + 1074) + (ec + 1074) + 52) by lia.
    rewrite !Z.pow_add_r by lia.
    change (2 ^ 1126) with (2 ^ 1074 * 2 ^ 52).
    pose proof (pow2_pos 52 ltac:(lia)).
    set (X := 2 ^ (ex + 1074)) in *. set (C := 2 ^ (ec + 1074)) in *.
    set (Wv := Z.pos mw * 2 ^ (ew + 1074)) in *. set (T := 2 ^ 1074) in *.
    set (F := 2 ^ 52) in *. clearbody X C Wv T F. nia.
Qed.

(** A sum that does not exceed [w] is rounded to at most [w]. *)
Lemma SFadd_at_most (mx my mw : positive) (ex ey ew : Z) :
  bounded prec emax mx ex = true -> bounded prec emax my ey = true ->
  bounded prec emax mw ew = true ->
  value (S754_finite false mx ex) + value (S754_finite false my ey) <=
    value (S754_finite false mw ew) ->
  at_most (S754_finite false mw ew)
          (SF64add (S754_finite false mx ex) (S754_finite false my ey)).
Proof.
  intros Vx Vy Vw Hle.
  pose proof (bounded_shape _ _ Vx) as (Hex & _).
  pose proof (bounded_shape _ _ Vy) as (Hey & _).
  cbn [SF64add SFadd cond_Zopp].
  pose proof (shl_align_spec mx ex (Z.min ex ey)) as [_ Hmx].
  pose proof (shl_align_spec my ey (Z.min ex ey)) as [_ Hmy].
  rewrite (Z.min_r ex (Z.min ex ey)) in Hmx by lia.
  rewrite (Z.min_r ey (Z.min ex ey)) in Hmy by lia.
  set (ez := Z.min ex ey) in *.
  set (xa := fst (shl_align mx ex ez)) in *. set (xb := fst (shl_align my ey ez)) in *.
  change (Z.pos xa + Z.pos xb) with (Z.pos (xa + xb)). cbn [binary_normalize].
  unfold binary_round.
  set (p := (xa + xb)%positive).
  destruct (fexp_bounds (Z.pos (digits2_pos p) + ez)) as [Ht _].
  set (t := fexp prec emax (Z.pos (digits2_pos p) + ez)) in *.
  pose proof (shl_align_spec p ez t) as [He' Hm'].
  destruct (shl_align p ez t) as [mz ez']. cbn [fst snd] in He', Hm'.
  assert (Hdz : Z.pos (digits2_pos mz) + ez' = Z.pos (digits2_pos p) + ez).
  { rewrite (digits2_shift p mz (ez - ez')) by (lia || (rewrite Hm'; do 2 f_equal; lia)). lia. }
  apply round_aux_at_most; [lia | exact Vw | rewrite Hdz; fold t; lia |].
  rewrite Hm'. subst p. rewrite Pos2Z.inj_add, Hmx, Hmy.
  cbn [value cond_Zopp] in *.
  change (2 ^ 1126) with (2 ^ 1126) in *.
  rewrite <- He'.
  assert (E1 : (Z.pos mx * 2 ^ (ex - ez) + Z.pos my * 2 ^ (ey - ez)) * 2 ^ (ez - ez') * 2 ^ (ez' + 2200)
               = (Z.pos mx * 2 ^ (ex + 1074) + Z.pos my * 2 ^ (ey + 1074)) * 2 ^ 1126).
  { rewrite <- (Z.mul_assoc _ (2 ^ (ez - ez'))), <- Z.pow_add_r by lia.
    replace (ez - ez' + (ez' + 2200)) with (ez + 1074 + 1126) by lia.
    rewrite (pow2_split (ez + 1074) (ex + 1074)), (pow2_split (ez + 1074) (ey + 1074)) by lia.
    replace (ex + 1074 - (ez + 1074)) with (ex - ez) by lia.
    replace (ey + 1074 - (ez + 1074)) with (ey - ez) by lia.
    rewrite (Z.pow_add_r 2 (ez + 1074) 1126) by lia. ring. }
  rewrite E1. apply Z.mul_le_mono_nonneg_r; [apply Z.pow_nonneg; lia | exact Hle].
Qed.

(** Adding a non-negative number to a positive finite one gives a positive
    number. *)
Lemma SFadd_positive (mx : positive) (ex : Z) (y : spec_float) :
  bounded prec emax mx ex = true -> valid_binary y = true -> nonneg y ->
  match SF64add (S754_finite false mx ex) y with
  | S754_finite s _ _ | S754_infinity s => s = false
  | _ => False
  end.
Proof.
  intros Vx Vy Hy. pose proof (bounded_shape _ _ Vx) as (Hex & _).
  destruct y as [sy|sy| |sy my ey]; cbn [nonneg] in Hy; try contradiction; subst;
    cbn [SF64add SFadd]; try reflexivity.
  cbn [valid_binary] in Vy. pose proof (bounded_shape _ _ Vy) as (Hey & _).
  cbn [cond_Zopp].
  set (xa := fst (shl_align mx ex (Z.min ex ey))). set (xb := fst (shl_align my ey (Z.min ex ey))).
  change (Z.pos xa + Z.pos xb) with (Z.pos (xa + xb)). cbn [binary_normalize].
  pose proof (binary_round_pos false (xa + xb) (Z.min ex ey) ltac:(lia)) as H.
  destruct (binary_round prec emax false (xa + xb) (Z.min ex ey)); auto.
Qed.

Lemma shr_1_r (R : shr_record) :
  0 <= shr_m R -> shr_r (shr_1 R) = Z.odd (shr_m R).
Proof.
  destruct R as [m r s]. cbn [shr_m]. intros Hm.
  destruct m as [|[p|p|]|p]; cbn [shr_1 shr_r]; try lia; reflexivity.
Qed.

Lemma odd_half (m n : Z) :
  0 <= m -> 1 <= n -> Z.odd (m / 2 ^ (n - 1)) = true ->
  2 * (m / 2 ^ n + 1) * 2 ^ n <= 2 * m + 2 ^ n.
Proof.
  intros Hm Hn Hodd.
  pose proof (pow2_pos (n - 1) ltac:(lia)) as Hp.
  assert (Hn2 : 2 ^ n = 2 * 2 ^ (n - 1)).
  { replace n with (Z.succ (n - 1)) at 1 by lia. apply Z.pow_succ_r. lia. }
  set (a := m / 2 ^ (n - 1)) in *.
  assert (Hq : m / 2 ^ n = a / 2).
  { rewrite Hn2, Z.mul_comm. subst a. now rewrite Z.div_div by lia. }
  assert (Ha : 2 ^ (n - 1) * a <= m) by (subst a; apply Z.mul_div_le; lia).
  rewrite Hq, Hn2. rewrite (Zodd_div2 a) in Ha.
  - rewrite Z.div2_div in Ha. set (h := a / 2) in *. set (P := 2 ^ (n - 1)) in *.
    clearbody h P. nia.
  - now apply Zodd_bool_iff.
Qed.

Lemma shr_half (m e n : Z) :
  0 < m -> 0 <= n ->
  let mrs := fst (shr (Build_shr_record m false false) e n) in
  let q' := round_nearest_even (shr_m mrs) (loc_of_shr_record mrs) in
  2 * q' * 2 ^ n <= 2 * m + 2 ^ n.
Proof.
  intros Hm Hn. cbn zeta.
  destruct (shr_exact_input m e n Hm Hn) as (Hq & Hq' & Hup).
  pose proof (pow2_pos n Hn) as Hp.
  assert (Hqm : m / 2 ^ n * 2 ^ n <= m) by (rewrite Z.mul_comm; now apply Z.mul_div_le).
  set (mrs := fst (shr (Build_shr_record m false false) e n)) in *.
  destruct (shr_r mrs) eqn:Br.
  - assert (Hodd : 1 <= n /\ Z.odd (m / 2 ^ (n - 1)) = true).
    { subst mrs. destruct n as [|p|p]; [cbn in Br; discriminate| |lia].
      cbn [shr fst] in Br. rewrite iter_pos_nat in Br.
      destruct (Pos2Nat.is_succ p) as [k Hk]. rewrite Hk in Br.
      rewrite Nat.iter_succ, shr_1_r in Br.
      + rewrite iter_shr_1_m in Br by (cbn; lia). cbn [shr_m] in Br.
        split; [lia|]. replace (Z.pos p - 1) with (Z.of_nat k) by lia. exact Br.
      + rewrite iter_shr_1_m by (cbn; lia). cbn [shr_m]. apply Z.div_pos; [lia|].
        apply pow2_pos; lia. }
    destruct Hodd as [Hn1 Hodd]. pose proof (odd_half m n ltac:(lia) Hn1 Hodd). nia.
  - assert (Heq : round_nearest_even (shr_m mrs) (loc_of_shr_record mrs) = shr_m mrs).
    { destruct mrs as [mm r s]. cbn [shr_r] in Br. subst r. now destruct s. }
    rewrite Heq, Hq. nia.
Qed.

Lemma round_aux_half_ulp (m : positive) (e : Z) :
  -2200 <= e ->
  let E := fexp prec emax (Z.pos (digits2_pos m) + e) in
  e <= E ->
  match SFround_aux false (Z.pos m) e loc_Exact with
  | S754_finite _ f ef =>
      2 * (Z.pos f * 2 ^ (ef + 2200)) <= 2 * (Z.pos m * 2 ^ (e + 2200)) + 2 ^ (E + 2200)
  | _ => True
  end.
Proof.
  intros He E Hn.
  unfold binary_round_aux. unfold shr_fexp at 1. cbn [Zdigits2 shr_record_of_loc]. fold E.
  pose proof (shr_half (Z.pos m) e (E - e) ltac:(lia) ltac:(lia)) as Hh.
  pose proof (round_nearest_even_bounds
                (shr_m (fst (shr (Build_shr_record (Z.pos m) false false) e (E - e))))
                (loc_of_shr_record (fst (shr (Build_shr_record (Z.pos m) false false) e (E - e)))))
    as Hb.
  pose proof (shr_m_shr (Build_shr_record (Z.pos m) false false) e (E - e) ltac:(cbn; lia)) as Hq.
  pose proof (snd_shr (Build_shr_record (Z.pos m) false false) e (E - e)) as He'.
  destruct (shr (Build_shr_record (Z.pos m) false false) e (E - e)) as [mrs' e'].
  cbn [fst snd shr_m] in Hh, Hb, Hq, He'. cbn zeta in Hh. rewrite Z.max_r in He', Hq by lia.
  assert (HeE : e' = E) by lia. clear He'. subst e'.
  set (q' := round_nearest_even (shr_m mrs') (loc_of_shr_record mrs')) in *.
  assert (Hq0 : 0 <= q').
  { rewrite Hq in Hb. assert (0 <= Z.pos m / 2 ^ (E - e)); [|lia].
    apply Z.div_pos; [lia|]. apply pow2_pos; lia. }
  unfold shr_fexp. rewrite shr_m_shr_record_of_loc_eq.
  set (n2 := fexp prec emax (Zdigits2 q' + E) - E).
  pose proof (shr_m_shr (Build_shr_record q' false false) E n2 ltac:(cbn; lia)) as Hf.
  pose proof (snd_shr (Build_shr_record q' false false) E n2) as He''.
  destruct (shr (Build_shr_record q' false false) E n2) as [mrs'' e''].
  cbn [fst snd shr_m] in Hf, He''. rewrite Hf.
  pose proof (pow2_pos (Z.max 0 n2) ltac:(lia)) as HP2.
  assert (Hfq : q' / 2 ^ Z.max 0 n2 * 2 ^ Z.max 0 n2 <= q').
  { rewrite Z.mul_comm. now apply Z.mul_div_le. }
  destruct (q' / 2 ^ Z.max 0 n2) as [|f|f] eqn:Ef; [exact I| |exact I].
  destruct (e'' <=? emax - prec); [|exact I].
  destruct (fexp_bounds (Z.pos (digits2_pos m) + e)) as [HE _]. fold E in HE.
  rewrite He''.
  rewrite (pow2_split (E + 2200) (E + Z.max 0 n2 + 2200)) by lia.
  replace (E + Z.max 0 n2 + 2200 - (E + 2200)) with (Z.max 0 n2) by lia.
  rewrite (pow2_split (e + 2200) (E + 2200)) by lia.
  replace (E + 2200 - (e + 2200)) with (E - e) by lia.
  pose proof (pow2_pos (e + 2200) ltac:(lia)).
  set (A := 2 ^ (e + 2200)) in *. set (B := 2 ^ (E - e)) in *.
  set (C := 2 ^ Z.max 0 n2) in *.
  pose proof (pow2_pos (E - e) ltac:(lia)) as HB. fold B in HB. clearbody A B C.
  assert (H1 : 2 * (Z.pos f * C) * B <= 2 * q' * B) by nia.
  assert (H2 : (2 * (Z.pos f * C) * B) * A <= (2 * Z.pos m + B) * A) by nia.
  nia.
Qed.

Lemma mul_exponent_ok (mx mc : positive) (ex ec : Z) :
  bounded prec emax mx ex = true -> bounded prec emax mc ec = true ->
  ex + ec <= fexp prec emax (Z.pos (digits2_pos (mx * mc)) + (ex + ec)).
Proof.
  intros Vx Vc.
  pose proof (bounded_shape _ _ Vx) as (Hex & Hmx & Hnx).
  pose proof (bounded_shape _ _ Vc) as (Hec & Hmc & Hnc).
  destruct (fexp_bounds (Z.pos (digits2_pos (mx * mc)) + (ex + ec))) as [Hf ->].
  destruct Hnx as [Hnx|Hnx]; [destruct Hnc as [Hnc|Hnc]; [lia|]|].
  - assert (53 <= Z.pos (digits2_pos (mx * mc))); [|lia].
    apply digits2_ge_53. rewrite Pos2Z.inj_mul. nia.
  - assert (53 <= Z.pos (digits2_pos (mx * mc))); [|lia].
    apply digits2_ge_53. rewrite Pos2Z.inj_mul. nia.
Qed.

(** A product below [2^k] is rounded with an error of at most half a unit
    in the last place of numbers below [2^k]. *)
Lemma SFmul_half_ulp (mx mc : positive) (ex ec k X : Z) :
  bounded prec emax mx ex = true -> bounded prec emax mc ec = true ->
  Z.pos mx * Z.pos mc * 2 ^ (ex + ec + 2200) <= X -> X < 2 ^ (k + 2200) ->
  match SF64mul (S754_finite false mx ex) (S754_finite false mc ec) with
  | S754_finite _ f ef =>
      2 * (Z.pos f * 2 ^ (ef + 2200)) <= 2 * X + 2 ^ (Z.max (k - 53) (-1074) + 2200)
  | _ => True
  end.
Proof.
  intros Vx Vc HX Hk.
  pose proof (bounded_shape _ _ Vx) as (Hex & _).
  pose proof (bounded_shape _ _ Vc) as (Hec & _).
  pose proof (mul_exponent_ok mx mc ex ec Vx Vc) as Hok.
  cbn [SF64mul SFmul xorb].
  pose proof (round_aux_half_ulp (mx * mc) (ex + ec) ltac:(lia) Hok) as H.
  destruct (SFround_aux false (Z.pos (mx * mc)) (ex + ec) loc_Exact) as [| | |s f ef]; auto.
  eapply Z.le_trans; [exact H|]. rewrite Pos2Z.inj_mul.
  apply Z.add_le_mono; [lia|]. apply Z.pow_le_mono_r; [lia|].
  destruct (fexp_bounds (Z.pos (digits2_pos (mx * mc)) + (ex + ec))) as [_ ->].
  pose proof (digits2_bounds (mx * mc)) as [Hlo _]. rewrite Pos2Z.inj_mul in Hlo.
  set (d := Z.pos (digits2_pos (mx * mc))) in *.
  assert (Hd : 0 < d) by (subst d; lia).
  assert (Hlt : 2 ^ (d - 1 + (ex + ec + 2200)) < 2 ^ (k + 2200)).
  { rewrite Z.pow_add_r by lia. pose proof (pow2_pos (ex + ec + 2200) ltac:(lia)).
    eapply Z.le_lt_trans; [|exact Hk]. eapply Z.le_trans; [|exact HX].
    apply Z.mul_le_mono_nonneg_r; lia. }
  assert (Hk0 : 0 <= k + 2200).
  { destruct (Z.le_gt_cases 0 (k + 2200)) as [|Hneg]; [assumption|exfalso].
    rewrite (Z.pow_neg_r 2 (k + 2200)) in Hk by lia.
    pose proof (pow2_pos (ex + ec + 2200) ltac:(lia)). nia. }
  apply Z.pow_lt_mono_r_iff in Hlt; lia.
Qed.

(** A valid number below 1 is at most the predecessor of 1. *)
Lemma below_one (m : positive) (e : Z) :
  bounded prec emax m e = true ->
  Z.pos m * 2 ^ (e + 1074) < 2 ^ 1074 ->
  Z.pos m * 2 ^ (e + 1074) <= 2 ^ 1074 - 2 ^ 1021.
Proof.
  intros V Hlt. pose proof (bounded_shape _ _ V) as (He & _).
  destruct (Z.le_gt_cases (Z.pos m * 2 ^ (e + 1074)) (2 ^ 1074 - 2 ^ 1021)) as [|Hgt];
    [assumption|exfalso].
  pose proof (no_number_between (2 ^ 53 - 1) (-53) m e V ltac:(lia)
                ltac:(right; vm_compute; discriminate)) as H.
  assert (Hm : Z.pos m * 2 ^ (e + 2200) = Z.pos m * 2 ^ (e + 1074) * 2 ^ 1126).
  { rewrite <- Z.mul_assoc, <- Z.pow_add_r by lia. do 2 f_equal. lia. }
  assert (Hq : (2 ^ 53 - 1) * 2 ^ (-53 + 2200) = (2 ^ 1074 - 2 ^ 1021) * 2 ^ 1126)
    by (vm_compute; reflexivity).
  assert (Hq1 : (2 ^ 53 - 1 + 1) * 2 ^ (-53 + 2200) = 2 ^ 1074 * 2 ^ 1126)
    by (vm_compute; reflexivity).
  rewrite Hm, Hq, Hq1 in H.
  pose proof (pow2_pos 1126 ltac:(lia)) as HP.
  set (v := Z.pos m * 2 ^ (e + 1074)) in *.
  set (T := 2 ^ 1074) in *. set (S := 2 ^ 1021) in *. set (P := 2 ^ 1126) in *.
  clearbody v T S P.
  assert (H' : T * P <= v * P) by (apply H; nia). nia.
Qed.

End SFacts.

(* ================================================================= *)
(** ** Rounding does not fall below a representable lower bound *)

Module SFlower.

Import SF SFacts.
Local Open Scope Z_scope.

Lemma round_aux_ge (m : positive) (e : Z) (mw : positive) (ew : Z) :
  -2200 <= e -> bounded prec emax mw ew = true ->
  e <= fexp prec emax (Z.pos (digits2_pos m) + e) ->
  Z.pos mw * 2 ^ (ew + 2200) <= Z.pos m * 2 ^ (e + 2200) ->
  match SFround_aux false (Z.pos m) e loc_Exact with
  | S754_finite _ f ef => Z.pos mw * 2 ^ (ew + 2200) <= Z.pos f * 2 ^ (ef + 2200)
  | S754_infinity _ => True
  | _ => False
  end.
Proof.
  intros He Hw Hn Hle.
  pose proof (bounded_shape _ _ Hw) as (Hew & Hmw & _).
  pose proof (digits2_bounds m) as [Dlo Dhi].
  set (d := Z.pos (digits2_pos m)) in *.
  destruct (fexp_bounds (d + e)) as [HE HEeq].
  set (E := fexp prec emax (d + e)) in *.
  set (W := Z.pos mw * 2 ^ (ew + 2200)) in *.
  assert (HW : 0 < W).
  { subst W. pose proof (pow2_pos (ew + 2200) ltac:(lia)). nia. }
  unfold binary_round_aux. unfold shr_fexp at 1. cbn [Zdigits2 shr_record_of_loc].
  fold d E.
  destruct (shr_exact_input (Z.pos m) e (E - e) ltac:(lia) ltac:(lia)) as (Hq & Hq' & _).
  pose proof (snd_shr (Build_shr_record (Z.pos m) false false) e (E - e)) as He'.
  destruct (shr (Build_shr_record (Z.pos m) false false) e (E - e)) as [mrs' e'].
  cbn [fst snd] in Hq, Hq', He'. rewrite Z.max_r in He' by lia.
  assert (HeE : e' = E) by lia. clear He'. subst e'.
  set (q := Z.pos m / 2 ^ (E - e)) in *.
  set (q' := round_nearest_even (shr_m mrs') (loc_of_shr_record mrs')) in *.
  pose proof (pow2_pos (E - e) ltac:(lia)) as HP.
  assert (Hq0 : 0 <= q) by (apply Z.div_pos; lia).
  assert (Hnorm : -1074 < E -> 2 ^ 52 <= q).
  { intros HEn. apply div_pow2_normal; [lia|]. fold d. lia. }
  assert (Hsplit : 2 ^ (E + 2200) = 2 ^ (e + 2200) * 2 ^ (E - e)).
  { rewrite <- Z.pow_add_r by lia. f_equal. lia. }
  pose proof (pow2_pos (e + 2200) ltac:(lia)) as HPe.
  (* the truncated mantissa is not below the bound *)
  assert (Hqm : Z.pos m < (q + 1) * 2 ^ (E - e)).
  { pose proof (Z.div_mod (Z.pos m) (2 ^ (E - e)) ltac:(lia)) as Hdm.
    pose proof (Z.mod_pos_bound (Z.pos m) (2 ^ (E - e)) HP). fold q in Hdm. lia. }
  assert (HWq : W <= q * 2 ^ (E + 2200)).
  { destruct (Z.le_gt_cases W (q * 2 ^ (E + 2200))) as [|Hlt]; [assumption|exfalso].
    assert (Hnb : (q + 1) * 2 ^ (E + 2200) <= W).
    { apply no_number_between; [exact Hw | lia | | exact Hlt].
      destruct (Z.eq_dec E (-1074)); [now left | right; apply Hnorm; lia]. }
    rewrite Hsplit in Hnb.
    set (A := 2 ^ (e + 2200)) in *. set (B := 2 ^ (E - e)) in *. clearbody A B.
    assert ((q + 1) * B * A <= Z.pos m * A) by lia. nia. }
  assert (HK : W <= q' * 2 ^ (E + 2200)).
  { eapply Z.le_trans; [exact HWq|].
    apply Z.mul_le_mono_nonneg_r; [apply Z.pow_nonneg|]; lia. }
  assert (Hq53 : q < 2 ^ 53).
  { apply Z.div_lt_upper_bound; [lia|].
    eapply Z.lt_le_trans; [exact Dhi|].
    rewrite <- Z.pow_add_r by lia. apply Z.pow_le_mono_r; lia. }
  assert (Hq'pos : 0 < q').
  { pose proof (pow2_pos (E + 2200) ltac:(lia)). nia. }
  (* the second shift loses nothing *)
  unfold shr_fexp. rewrite shr_m_shr_record_of_loc_eq.
  set (n2 := fexp prec emax (Zdigits2 q' + E) - E).
  pose proof (shr_m_shr (Build_shr_record q' false false) E n2 ltac:(cbn; lia)) as Hf.
  pose proof (snd_shr (Build_shr_record q' false false) E n2) as He''.
  destruct (shr (Build_shr_record q' false false) E n2) as [mrs'' e''].
  cbn [fst snd shr_m] in Hf, He''. rewrite Hf.
  assert (Hexact : q' / 2 ^ Z.max 0 n2 * 2 ^ (e'' + 2200) = q' * 2 ^ (E + 2200)).
  { destruct q' as [|pq|pq] eqn:Eq'; try lia. cbn [Zdigits2] in n2.
    pose proof (digits2_bounds pq) as [Plo Phi].
    destruct (fexp_bounds (Z.pos (digits2_pos pq) + E)) as [_ Hfe].
    destruct (Z.eq_dec (Z.pos pq) (2 ^ 53)) as [H53|H53].
    - assert (Hd54 : Z.pos (digits2_pos pq) = 54).
      { apply digits2_unique. rewrite H53. split; [reflexivity | reflexivity]. }
      assert (Hn2 : n2 = 1) by (subst n2; rewrite Hfe, Hd54; lia).
      rewrite Hn2 in *. rewrite He'', H53.
      change (Z.max 0 1) with 1. change (2 ^ 1) with 2.
      change (2 ^ 53 / 2) with (2 ^ 52).
      replace (E + 1 + 2200) with (Z.succ (E + 2200)) by lia.
      rewrite Z.pow_succ_r by lia. change (2 ^ 53) with (2 ^ 52 * 2). ring.
    - assert (Hlt53 : Z.pos pq < 2 ^ 53) by lia.
      assert (Hd53 : Z.pos (digits2_pos pq) <= 53).
      { destruct (Z.le_gt_cases (Z.pos (digits2_pos pq)) 53) as [|Hgt]; [assumption|exfalso].
        assert (2 ^ 53 <= 2 ^ (Z.pos (digits2_pos pq) - 1)) by (apply Z.pow_le_mono_r; lia).
        lia. }
      assert (Hn2 : n2 <= 0) by (subst n2; rewrite Hfe; lia).
      rewrite Z.max_l in * by lia. rewrite He''.
      change (2 ^ 0) with 1. rewrite Z.div_1_r. f_equal. f_equal. lia. }
  pose proof (pow2_pos (e'' + 2200) ltac:(lia)) as HP''.
  destruct (q' / 2 ^ Z.max 0 n2) as [|f|f] eqn:Ef.
  - nia.
  - destruct (e'' <=? emax - prec); [|exact I]. lia.
  - nia.
Qed.

Lemma round_aux_at_least (m : positive) (e : Z) (mw : positive) (ew : Z) :
  -2200 <= e -> bounded prec emax mw ew = true ->
  e <= fexp prec emax (Z.pos (digits2_pos m) + e) ->
  value (S754_finite false mw ew) * 2 ^ 1126 <= Z.pos m * 2 ^ (e + 2200) ->
  at_least (S754_finite false mw ew) (SFround_aux false (Z.pos m) e loc_Exact).
Proof.
  intros He Hw Hn Hle. pose proof (bounded_shape _ _ Hw) as (Hew & _).
  rewrite <- value_scaled in Hle by lia.
  pose proof (round_aux_ge m e mw ew He Hw Hn Hle) as H.
  pose proof (binary_round_aux_sign false (Z.pos m) e loc_Exact ltac:(lia)) as Hs.
  unfold at_least. destruct (SFround_aux false (Z.pos m) e loc_Exact) as [|s| |s f ef];
    try contradiction; subst s; [exact I|].
  now rewrite <- value_scaled by lia.
Qed.

(** A sum that is not below [w] is rounded to at least [w]. *)
Lemma SFadd_at_least (mx my mw : positive) (ex ey ew : Z) :
  bounded prec emax mx ex = true -> bounded prec emax my ey = true ->
  bounded prec emax mw ew = true ->
  value (S754_finite false mw ew) <=
    value (S754_finite false mx ex) + value (S754_finite false my ey) ->
  at_least (S754_finite false mw ew)
           (SF64add (S754_finite false mx ex) (S754_finite false my ey)).
Proof.
  intros Vx Vy Vw Hle.
  pose proof (bounded_shape _ _ Vx) as (Hex & _).
  pose proof (bounded_shape _ _ Vy) as (Hey & _).
  cbn [SF64add SFadd cond_Zopp].
  pose proof (shl_align_spec mx ex (Z.min ex ey)) as [_ Hmx].
  pose proof (shl_align_spec my ey (Z.min ex ey)) as [_ Hmy].
  rewrite (Z.min_r ex (Z.min ex ey)) in Hmx by lia.
  rewrite (Z.min_r ey (Z.min ex ey)) in Hmy by lia.
  set (ez := Z.min ex ey) in *.
  set (xa := fst (shl_align mx ex ez)) in *. set (xb := fst (shl_align my ey ez)) in *.
  change (Z.pos xa + Z.pos xb) with (Z.pos (xa + xb)). cbn [binary_normalize].
  unfold binary_round.
  set (p := (xa + xb)%positive).
  destruct (fexp_bounds (Z.pos (digits2_pos p) + ez)) as [Ht _].
  set (t := fexp prec emax (Z.pos (digits2_pos p) + ez)) in *.
  pose proof (shl_align_spec p ez t) as [He' Hm'].
  destruct (shl_align p ez t) as [mz ez']. cbn [fst snd] in He', Hm'.
  assert (Hdz : Z.pos (digits2_pos mz) + ez' = Z.pos (digits2_pos p) + ez).
  { rewrite (digits2_shift p mz (ez - ez')) by (lia || (rewrite Hm'; do 2 f_equal; lia)). lia. }
  apply round_aux_at_least; [lia | exact Vw | rewrite Hdz; fold t; lia |].
  rewrite Hm'. subst p. rewrite Pos2Z.inj_add, Hmx, Hmy.
  cbn [value cond_Zopp] in *.
  rewrite <- He'.
  assert (E1 : (Z.pos mx * 2 ^ (ex - ez) + Z.pos my * 2 ^ (ey - ez)) * 2 ^ (ez - ez') * 2 ^ (ez' + 2200)
               = (Z.pos mx * 2 ^ (ex + 1074) + Z.pos my * 2 ^ (ey + 1074)) * 2 ^ 1126).
  { rewrite <- (Z.mul_assoc _ (2 ^ (ez - ez'))), <- Z.pow_add_r by lia.
    replace (ez - ez' + (ez' + 2200)) with (ez + 1074 + 1126) by lia.
    rewrite (pow2_split (ez + 1074) (ex + 1074)), (pow2_split (ez + 1074) (ey + 1074)) by lia.
    replace (ex + 1074 - (ez + 1074)) with (ex - ez) by lia.
    replace (ey + 1074 - (ez + 1074)) with (ey - ez) by lia.
    rewrite (Z.pow_add_r 2 (ez + 1074) 1126) by lia. ring. }
  rewrite E1. apply Z.mul_le_mono_nonneg_r; [apply Z.pow_nonneg; lia | exact Hle].
Qed.

(** A product that is not below [w] is rounded to at least [w]. *)
Lemma SFmul_at_least (mx mc mw : positive) (ex ec ew : Z) :
  bounded prec emax mx ex = true -> bounded prec emax mc ec = true ->
  bounded prec emax mw ew = true ->
  value (S754_finite false mw ew) * 2 ^ 1074 <=
    value (S754_finite false mx ex) * value (S754_finite false mc ec) ->
  at_least (S754_finite false mw ew)
           (SF64mul (S754_finite false mx ex) (S754_finite false mc ec)).
Proof.
  intros Vx Vc Vw Hle.
  pose proof (bounded_shape _ _ Vx) as (Hex & Hmx & Hnx).
  pose proof (bounded_shape _ _ Vc) as (Hec & Hmc & Hnc).
  cbn [SF64mul SFmul xorb]. change (Z.pos (mx * mc)) with (Z.pos mx * Z.pos mc) in *.
  apply round_aux_at_least; [lia | exact Vw | |].
  - destruct (fexp_bounds (Z.pos (digits2_pos (mx * mc)) + (ex + ec))) as [Hf ->].
    destruct Hnx as [Hnx|Hnx]; [destruct Hnc as [Hnc|Hnc]; [lia|]|].
    + assert (53 <= Z.pos (digits2_pos (mx * mc))); [|lia].
      apply digits2_ge_53. rewrite Pos2Z.inj_mul. nia.
    + assert (53 <= Z.pos (digits2_pos (mx * mc))); [|lia].
      apply digits2_ge_53. rewrite Pos2Z.inj_mul. nia.
  - rewrite Pos2Z.inj_mul. cbn [value cond_Zopp] in *.
    replace (ex + ec + 2200) with ((ex + 1074) + (ec + 1074) + 52) by lia.
    rewrite (Z.pow_add_r 2 (ex + 1074 + (ec + 1074)) 52) by lia.
    rewrite (Z.pow_add_r 2 (ex + 1074) (ec + 1074)) by lia.
    change (2 ^ 1126) with (2 ^ 1074 * 2 ^ 52).
    pose proof (pow2_pos 52 ltac:(lia)).
    set (X := 2 ^ (ex + 1074)) in *. set (C := 2 ^ (ec + 1074)) in *.
    set (Wv := Z.pos mw * 2 ^ (ew + 1074)) in *. set (T := 2 ^ 1074) in *.
    set (F := 2 ^ 52) in *. clearbody X C Wv T F. nia.
Qed.

End SFlower.

(* ================================================================= *)
(** ** Division does not exceed a representable upper bound *)

Module SFquotient.

Import SF SFacts.
Local Open Scope Z_scope.

(** The last step of rounding: a mantissa within the bound stays within
    it when it is brought back into the format. *)
Lemma round_tail_le (q E : Z) (mw : positive) (ew : Z) :
  0 <= q -> -1074 <= E -> bounded prec emax mw ew = true ->
  (-1074 < E -> 2 ^ 52 <= q) ->
  q * 2 ^ (E + 2200) <= Z.pos mw * 2 ^ (ew + 2200) ->
  let '(mrs, e) := shr_fexp prec emax q E loc_Exact in
  match shr_m mrs with
  | Z0 => True
  | Z.pos f => if e <=? emax - prec
               then Z.pos f * 2 ^ (e + 2200) <= Z.pos mw * 2 ^ (ew + 2200)
               else False
  | Z.neg _ => False
  end.
Proof.
  intros Hq0 HE Hw Hnorm HK.
  pose proof (bounded_shape _ _ Hw) as (Hew & Hmw & _).
  set (W := Z.pos mw * 2 ^ (ew + 2200)) in *.
  unfold shr_fexp. rewrite shr_m_shr_record_of_loc_eq.
  set (n2 := fexp prec emax (Zdigits2 q + E) - E).
  pose proof (shr_m_shr (Build_shr_record q false false) E n2 ltac:(cbn; lia)) as Hf.
  pose proof (snd_shr (Build_shr_record q false false) E n2) as He''.
  destruct (shr (Build_shr_record q false false) E n2) as [mrs'' e''].
  cbn [fst snd shr_m] in Hf, He''. rewrite Hf.
  pose proof (pow2_pos (Z.max 0 n2) ltac:(lia)) as HP2.
  assert (Hfq : q / 2 ^ Z.max 0 n2 * 2 ^ Z.max 0 n2 <= q).
  { rewrite Z.mul_comm. now apply Z.mul_div_le. }
  assert (Hfle : q / 2 ^ Z.max 0 n2 * 2 ^ (e'' + 2200) <= W).
  { eapply Z.le_trans; [|exact HK]. rewrite He''.
    rewrite (pow2_split (E + 2200) (E + Z.max 0 n2 + 2200)) by lia.
    replace (E + Z.max 0 n2 + 2200 - (E + 2200)) with (Z.max 0 n2) by lia.
    pose proof (pow2_pos (E + 2200) ltac:(lia)). nia. }
  assert (Hf0 : 0 <= q / 2 ^ Z.max 0 n2) by (apply Z.div_pos; lia).
  destruct (q / 2 ^ Z.max 0 n2) as [|f|f] eqn:Ef; [exact I| |lia].
  destruct (Z.leb_spec e'' (emax - prec)) as [_|Hbig]; [exact Hfle|].
  unfold emax, prec in Hbig.
  assert (Hf52 : 2 ^ 52 <= Z.pos f).
  { destruct (Z.le_gt_cases n2 0) as [Hn2|Hn2].
    - rewrite Z.max_l in * by lia. change (2 ^ 0) with 1 in Ef. rewrite Z.div_1_r in Ef.
      assert (2 ^ 52 <= q) by (apply Hnorm; lia). lia.
    - rewrite Z.max_r in * by lia. rewrite <- Ef.
      assert (Hqpos : 0 < q).
      { destruct (Z.eq_dec q 0) as [->|]; [|lia]. now rewrite Z.div_0_l in Ef by lia. }
      destruct q as [|pq|pq] eqn:Eq'; try lia. cbn [Zdigits2] in n2.
      apply div_pow2_normal; [lia|].
      destruct (fexp_bounds (Z.pos (digits2_pos pq) + E)) as [_ Hfe].
      subst n2. rewrite Hfe in *. lia. }
  pose proof (pow2_pos (ew + 2200) ltac:(lia)).
  assert (2 ^ (ew + 2200) <= 2 ^ (971 + 2200)) by (apply Z.pow_le_mono_r; lia).
  assert (2 ^ (972 + 2200) <= 2 ^ (e'' + 2200)) by (apply Z.pow_le_mono_r; lia).
  assert (H2 : 2 ^ (972 + 2200) = 2 * 2 ^ (971 + 2200)).
  { replace (972 + 2200) with (Z.succ (971 + 2200)) by lia. apply Z.pow_succ_r. lia. }
  change (2 ^ 53) with (2 * 2 ^ 52) in Hmw.
  subst W. set (c := 2 ^ 52) in *. set (A := 2 ^ (971 + 2200)) in *.
  set (B := 2 ^ (e'' + 2200)) in *. set (C := 2 ^ (ew + 2200)) in *.
  set (D := 2 ^ (972 + 2200)) in *. clearbody c A B C D.
  assert (Z.pos mw * C < 2 * c * A) by nia.
  assert (c * D <= Z.pos f * B) by nia. nia.
Qed.

(** Rounding a value that lies strictly between [q * 2^e] and the next
    multiple of [2^e], and does not exceed a number of the format, gives
    at most that number. *)
Lemma round_aux_le_below (q e : Z) (l : location) (mw : positive) (ew : Z) :
  0 <= q -> -2200 <= e -> bounded prec emax mw ew = true ->
  e <= fexp prec emax (Zdigits2 q + e) ->
  q * 2 ^ (e + 2200) < Z.pos mw * 2 ^ (ew + 2200) ->
  match SFround_aux false q e l with
  | S754_zero _ => True
  | S754_finite _ f ef => Z.pos f * 2 ^ (ef + 2200) <= Z.pos mw * 2 ^ (ew + 2200)
  | _ => False
  end.
Proof.
  intros Hq0 He Hw Hn Hlt.
  destruct (fexp_bounds (Zdigits2 q + e)) as [HE HEeq].
  set (E := fexp prec emax (Zdigits2 q + e)) in *.
  set (W := Z.pos mw * 2 ^ (ew + 2200)) in *.
  unfold binary_round_aux. unfold shr_fexp at 1. fold E.
  pose proof (shr_m_shr (shr_record_of_loc q l) e (E - e)) as Hm.
  rewrite shr_m_shr_record_of_loc in Hm. specialize (Hm Hq0).
  pose proof (snd_shr (shr_record_of_loc q l) e (E - e)) as He'.
  destruct (shr (shr_record_of_loc q l) e (E - e)) as [mrs' e'].
  cbn [fst snd] in Hm, He'. rewrite Z.max_r in Hm, He' by lia.
  assert (HeE : e' = E) by lia. clear He'. subst e'.
  pose proof (round_nearest_even_bounds (shr_m mrs') (loc_of_shr_record mrs')) as Hq'.
  set (q' := round_nearest_even (shr_m mrs') (loc_of_shr_record mrs')) in *.
  rewrite Hm in Hq'.
  set (q1 := q / 2 ^ (E - e)) in *.
  pose proof (pow2_pos (E - e) ltac:(lia)) as HP.
  assert (Hq10 : 0 <= q1) by (apply Z.div_pos; lia).
  assert (Hnorm : -1074 < E -> 2 ^ 52 <= q1).
  { intros HEn. destruct q as [|p|p]; [|clear Hq0|lia].
    - exfalso. cbn [Zdigits2] in *. lia.
    - cbn [Zdigits2] in *. apply div_pow2_normal; lia. }
  assert (HK : q' * 2 ^ (E + 2200) <= W).
  { assert (Hqm : q1 * 2 ^ (E - e) <= q).
    { rewrite Z.mul_comm. apply Z.mul_div_le. lia. }
    assert (Hlt1 : q1 * 2 ^ (E + 2200) < W).
    { eapply Z.le_lt_trans; [|exact Hlt].
      rewrite (pow2_split (e + 2200) (E + 2200)) by lia.
      replace (E + 2200 - (e + 2200)) with (E - e) by lia.
      pose proof (pow2_pos (e + 2200) ltac:(lia)). nia. }
    assert (Hnb : (q1 + 1) * 2 ^ (E + 2200) <= W).
    { apply no_number_between; [exact Hw | lia | | exact Hlt1].
      destruct (Z.eq_dec E (-1074)); [now left | right; apply Hnorm; lia]. }
    pose proof (pow2_pos (E + 2200) ltac:(lia)). nia. }
  pose proof (round_tail_le q' E mw ew ltac:(lia) ltac:(lia) Hw
                ltac:(intros; specialize (Hnorm ltac:(assumption)); lia) HK) as Ht.
  destruct (shr_fexp prec emax q' E loc_Exact) as [mrs'' e''].
  destruct (shr_m mrs'') as [|f|f]; [exact I| |contradiction].
  destruct (e'' <=? emax - prec); [exact Ht | contradiction].
Qed.

Lemma round_aux_le_any (q e : Z) (l : location) (mw : positive) (ew : Z) :
  0 <= q -> -2200 <= e -> bounded prec emax mw ew = true ->
  e <= fexp prec emax (Zdigits2 q + e) ->
  (q * 2 ^ (e + 2200) < Z.pos mw * 2 ^ (ew + 2200) \/
   l = loc_Exact /\ q * 2 ^ (e + 2200) <= Z.pos mw * 2 ^ (ew + 2200)) ->
  match SFround_aux false q e l with
  | S754_zero _ => True
  | S754_finite _ f ef => Z.pos f * 2 ^ (ef + 2200) <= Z.pos mw * 2 ^ (ew + 2200)
  | _ => False
  end.
Proof.
  intros Hq0 He Hw Hn [Hlt|[-> Hle]]; [now apply round_aux_le_below|].
  destruct q as [|p|p]; [|clear Hq0|lia].
  - apply round_aux_le_below; try assumption; try lia.
    pose proof (pow2_pos (ew + 2200)
                  ltac:(apply bounded_shape in Hw as (Hew & _); lia)). lia.
  - now apply round_aux_le.
Qed.

Lemma new_location_zero (n : Z) : new_location n 0 = loc_Exact.
Proof. unfold new_location. destruct (Z.even n); reflexivity. Qed.

(** A quotient that does not exceed [w] is rounded to at most [w]. *)
Lemma SFdiv_at_most (mx my mw : positive) (ex ey ew : Z) :
  bounded prec emax mx ex = true -> bounded prec emax my ey = true ->
  bounded prec emax mw ew = true ->
  value (S754_finite false mx ex) * 2 ^ 1074 <=
    value (S754_finite false mw ew) * value (S754_finite false my ey) ->
  at_most (S754_finite false mw ew)
          (SF64div (S754_finite false mx ex) (S754_finite false my ey)).
Proof.
  intros Vx Vy Vw Hle.
  pose proof (bounded_shape _ _ Vx) as (Hex & Hmx & _).
  pose proof (bounded_shape _ _ Vy) as (Hey & Hmy & _).
  pose proof (bounded_shape _ _ Vw) as (Hew & Hmw & _).
  cbn [value cond_Zopp] in Hle.
  cbn [SF64div SFdiv xorb]. unfold SFdiv_core_binary. cbn [Zdigits2].
  pose proof (digits2_bounds mx) as [Xlo Xhi]. pose proof (digits2_bounds my) as [Ylo Yhi].
  set (d1 := Z.pos (digits2_pos mx)) in *. set (d2 := Z.pos (digits2_pos my)) in *.
  destruct (fexp_bounds (d1 + ex - (d2 + ey))) as [HD HDeq].
  set (eD := fexp prec emax (d1 + ex - (d2 + ey))) in *.
  set (e' := Z.min eD (ex - ey)).
  set (s := ex - ey - e').
  assert (Hs : 0 <= s) by (subst s e'; lia).
  set (m' := match s with Z0 => Z.pos mx | Z.pos _ => Z.shiftl (Z.pos mx) s | Z.neg _ => 0 end).
  assert (Hm' : m' = Z.pos mx * 2 ^ s).
  { subst m'. destruct s as [|ps|ps] eqn:Es; [|now rewrite Z.shiftl_mul_pow2 by lia|lia].
    change (2 ^ 0) with 1. lia. }
  clearbody m'.
  pose proof (pow2_pos s Hs) as HPs.
  pose proof (Z_div_mod m' (Z.pos my) ltac:(lia)) as Hdm.
  destruct (Z.div_eucl m' (Z.pos my)) as [q r]. destruct Hdm as [Hdm Hr].
  assert (Hq0 : 0 <= q) by nia.
  assert (He' : -2200 <= e') by (subst e'; lia).
  (* the quotient has enough digits *)
  assert (Hn : e' <= fexp prec emax (Zdigits2 q + e')).
  { destruct (fexp_bounds (Zdigits2 q + e')) as [HQ HQeq]. rewrite HQeq.
    destruct (Z.le_gt_cases eD (-1074)) as [Hsub|Hnorm]; [subst e'; lia|].
    assert (HeD : eD = d1 + ex - (d2 + ey) - 53) by lia.
    set (k := d1 - 1 + s - d2).
    assert (Hk : 52 <= k) by (subst k s e'; lia).
    assert (Hq : 2 ^ k <= q).
    { assert (Hmk : 2 ^ k * Z.pos my <= m').
      { rewrite Hm'.
        assert (E1 : 2 ^ (d1 - 1) * 2 ^ s = 2 ^ k * 2 ^ d2).
        { rewrite <- !Z.pow_add_r by lia. f_equal. subst k. lia. }
        pose proof (pow2_pos k ltac:(lia)).
        set (A := 2 ^ (d1 - 1)) in *. set (B := 2 ^ s) in *. set (C := 2 ^ k) in *.
        set (Dd := 2 ^ d2) in *. clearbody A B C Dd. nia. }
      pose proof (pow2_pos k ltac:(lia)).
      destruct (Z.le_gt_cases (2 ^ k) q) as [|Hlt]; [assumption|exfalso]. nia. }
    assert (Hdq : k + 1 <= Zdigits2 q).
    { pose proof (pow2_pos k ltac:(lia)).
      destruct q as [|pq|pq]; try lia. cbn [Zdigits2].
      pose proof (digits2_bounds pq) as [_ Qhi].
      assert (Hlt : 2 ^ k < 2 ^ Z.pos (digits2_pos pq)) by lia.
      apply Z.pow_lt_mono_r_iff in Hlt; lia. }
    subst k s e'. lia. }
  (* the quotient is within the bound *)
  assert (Hse : s + (e' + 2200) = ex - ey + 2200) by (subst s; lia).
  pose proof (pow2_pos (e' + 2200) ltac:(lia)) as HPe.
  assert (Hbound : Z.pos mx * 2 ^ (ex - ey + 2200) <=
                   Z.pos mw * 2 ^ (ew + 2200) * Z.pos my).
  { apply (Z.mul_le_mono_pos_r _ _ (2 ^ (ey + 1074))); [apply pow2_pos; lia|].
    assert (E1 : 2 ^ (ex - ey + 2200) * 2 ^ (ey + 1074) = 2 ^ (ex + 1074) * 2 ^ 1074 * 2 ^ 1126).
    { rewrite <- !Z.pow_add_r by lia. f_equal. lia. }
    assert (E2 : 2 ^ (ew + 2200) = 2 ^ (ew + 1074) * 2 ^ 1126).
    { rewrite <- Z.pow_add_r by lia. f_equal. lia. }
    rewrite <- (Z.mul_assoc (Z.pos mx)), E1, E2.
    pose proof (pow2_pos 1126 ltac:(lia)) as HP.
    set (a := 2 ^ (ex + 1074)) in *. set (t := 2 ^ 1074) in *. set (P := 2 ^ 1126) in *.
    set (c := 2 ^ (ew + 1074)) in *. set (b := 2 ^ (ey + 1074)) in *.
    clearbody a t P c b.
    assert (Z.pos mx * a * t * P <= Z.pos mw * c * (Z.pos my * b) * P)
      by (apply Z.mul_le_mono_nonneg_r; lia).
    lia. }
  assert (Hmq : m' * 2 ^ (e' + 2200) = Z.pos mx * 2 ^ (ex - ey + 2200)).
  { assert (E3 : 2 ^ (ex - ey + 2200) = 2 ^ s * 2 ^ (e' + 2200)).
    { rewrite <- Z.pow_add_r by lia. f_equal. lia. }
    rewrite Hm', E3. ring. }
  pose proof (round_aux_le_any q e' (new_location (Z.pos my) r) mw ew Hq0 He' Vw Hn) as H.
  assert (Hcase : q * 2 ^ (e' + 2200) < Z.pos mw * 2 ^ (ew + 2200) \/
                  new_location (Z.pos my) r = loc_Exact /\
                  q * 2 ^ (e' + 2200) <= Z.pos mw * 2 ^ (ew + 2200)).
  { set (W := Z.pos mw * 2 ^ (ew + 2200)) in *. set (P := 2 ^ (e' + 2200)) in *.
    rewrite <- Hmq in Hbound. clearbody W P.
    rewrite Hdm in Hbound.
    destruct (Z.eq_dec r 0) as [->|Hr0].
    - right. split; [apply new_location_zero|].
      apply (Z.mul_le_mono_pos_l _ _ (Z.pos my)); lia.
    - left. assert (0 < r * P) by (apply Z.mul_pos_pos; lia).
      apply (Z.mul_lt_mono_pos_l (Z.pos my)); lia. }
  specialize (H Hcase).
  pose proof (binary_round_aux_sign false q e' (new_location (Z.pos my) r) Hq0) as Hsg.
  unfold at_most.
  destruct (SFround_aux false q e' (new_location (Z.pos my) r)) as [|?| |sg f ef];
    try contradiction; [exact I|]. subst sg.
  now rewrite <- value_scaled by lia.
Qed.

Lemma value_canon (p : positive) :
  Z.pos p < 2 ^ 53 -> value (canon false p) = Z.pos p * 2 ^ 1074.
Proof.
  intros Hp. unfold canon. cbn [value cond_Zopp].
  pose proof (digits2_bounds p) as [Dlo Dhi].
  set (d := Z.pos (digits2_pos p)) in *.
  assert (Hd : 0 < d <= 53).
  { split; [subst d; lia|].
    destruct (Z.le_gt_cases d 53) as [|Hgt]; [assumption|exfalso].
    assert (2 ^ 53 <= 2 ^ (d - 1)) by (apply Z.pow_le_mono_r; lia). lia. }
  pose proof (pow2_pos (53 - d) ltac:(lia)).
  rewrite Z2Pos.id by nia.
  rewrite <- Z.mul_assoc, <- Z.pow_add_r by lia. do 2 f_equal. lia.
Qed.

End SFquotient.

(* ================================================================= *)
(** ** Numbers: order and signs *)

Section Numbers.

Import JS.
Local Open Scope Z_scope.

Lemma is_nan_spec (x : float) : PrimFloat.is_nan x = SF.is_nan (Prim2SF x).
Proof.
  unfold PrimFloat.is_nan. rewrite eqb_spec. unfold SFeqb.
  destruct (SF.is_nan (Prim2SF x)) eqn:E.
  - destruct (Prim2SF x); try discriminate. reflexivity.
  - rewrite SFacts.compare_value by (auto using Prim2SF_valid).
    now rewrite Z.compare_refl.
Qed.

Lemma ltb_val (x y : float) :
  PrimFloat.is_nan x = false -> PrimFloat.is_nan y = false ->
  (x <? y)%float = (val x <? val y).
Proof.
  rewrite !is_nan_spec. intros Hx Hy. rewrite ltb_spec. unfold SFltb.
  rewrite SFacts.compare_value by (auto using Prim2SF_valid). reflexivity.
Qed.

Lemma leb_val (x y : float) :
  PrimFloat.is_nan x = false -> PrimFloat.is_nan y = false ->
  (x <=? y)%float = (val x <=? val y).
Proof.
  rewrite !is_nan_spec. intros Hx Hy. rewrite leb_spec. unfold SFleb.
  rewrite SFacts.compare_value by (auto using Prim2SF_valid).
  unfold val, Z.leb. now destruct (_ ?= _).
Qed.

Lemma leb_true_not_nan (x y : float) :
  (x <=? y)%float = true -> PrimFloat.is_nan x = false /\ PrimFloat.is_nan y = false.
Proof.
  rewrite !is_nan_spec, leb_spec. unfold SFleb.
  destruct (Prim2SF x), (Prim2SF y); cbn; intros H; try discriminate; auto.
Qed.

Lemma ltb_true_not_nan (x y : float) :
  (x <? y)%float = true -> PrimFloat.is_nan x = false /\ PrimFloat.is_nan y = false.
Proof.
  rewrite !is_nan_spec, ltb_spec. unfold SFltb.
  destruct (Prim2SF x), (Prim2SF y); cbn; intros H; try discriminate; auto.
Qed.

Lemma Nonneg_not_nan (x : float) : Nonneg x -> PrimFloat.is_nan x = false.
Proof.
  unfold Nonneg. rewrite is_nan_spec. now destruct (Prim2SF x).
Qed.

Lemma Nonneg_val (x : float) : Nonneg x -> 0 <= val x.
Proof.
  unfold Nonneg, val. pose proof (Prim2SF_valid x) as V.
  destruct (Prim2SF x) as [s|s| |s m e]; cbn [SF.nonneg SF.value]; try lia.
  - intros ->. cbn. lia.
  - intros ->. pose proof (SFacts.finite_value_bounds m e V). cbn [cond_Zopp]. lia.
Qed.

Lemma Nonneg_leb (x : float) : (0 <=? x)%float = true <-> Nonneg x.
Proof.
  unfold Nonneg. rewrite leb_spec.
  change (Prim2SF 0) with (S754_zero false). unfold SFleb.
  destruct (Prim2SF x) as [s|[]| |[] m e]; cbn; intuition discriminate.
Qed.

Lemma add_Nonneg (x y : float) : Nonneg x -> Nonneg y -> Nonneg (x + y).
Proof. unfold Nonneg. rewrite add_spec. apply SFacts.SFadd_nonneg. Qed.

Lemma mul_Nonneg (x c : float) : Nonneg x -> positive_finite c -> Nonneg (x * c).
Proof.
  unfold Nonneg, positive_finite. rewrite mul_spec. intros Hx Hc.
  destruct (Prim2SF c) as [| | |[] m e] eqn:E; try contradiction.
  now apply SFacts.SFmul_nonneg with m e.
Qed.

Lemma div_Nonneg (x c : float) : Nonneg x -> positive_finite c -> Nonneg (x / c).
Proof.
  unfold Nonneg, positive_finite. rewrite div_spec. intros Hx Hc.
  destruct (Prim2SF c) as [| | |[] m e] eqn:E; try contradiction.
  now apply SFacts.SFdiv_nonneg with m e.
Qed.

Lemma positive_finite_Nonneg (c : float) : positive_finite c -> Nonneg c.
Proof.
  unfold Nonneg, positive_finite. now destruct (Prim2SF c) as [| | |[] m e].
Qed.

(** [Math.min] and [Math.max] on Numbers that are not NaN. *)
Lemma Math_min_spec (x y : float) :
  PrimFloat.is_nan x = false -> PrimFloat.is_nan y = false ->
  (Math_min x y = x \/ Math_min x y = y) /\ val (Math_min x y) = Z.min (val x) (val y).
Proof.
  intros Hx Hy. unfold Math_min. rewrite Hx, Hy. cbn [orb].
  rewrite (ltb_val x y), (ltb_val y x) by assumption.
  destruct (Z.ltb_spec (val x) (val y)); [split; [auto|lia]|].
  destruct (Z.ltb_spec (val y) (val x)); [split; [auto|lia]|].
  destruct (get_sign x); split; auto; lia.
Qed.

Lemma Math_max_spec (x y : float) :
  PrimFloat.is_nan x = false -> PrimFloat.is_nan y = false ->
  (Math_max x y = x \/ Math_max x y = y) /\ val (Math_max x y) = Z.max (val x) (val y).
Proof.
  intros Hx Hy. unfold Math_max. rewrite Hx, Hy. cbn [orb].
  rewrite (ltb_val x y), (ltb_val y x) by assumption.
  destruct (Z.ltb_spec (val x) (val y)); [split; [auto|lia]|].
  destruct (Z.ltb_spec (val y) (val x)); [split; [auto|lia]|].
  destruct (get_sign x); split; auto; lia.
Qed.

End Numbers.

(* ================================================================= *)
(** ** Conversions: integers, [Math.round], [toFixed] and [parseFloat] *)

Section Conversions.

Import JS.
Local Open Scope Z_scope.

Lemma Prim2SF_Z2F (n : Z) :
  0 <= n < 2 ^ 63 -> Prim2SF (Z2F n) = binary_normalize prec emax n 0 false.
Proof.
  intros Hn. unfold Z2F. apply Prim2SF_SF2Prim.
  pose proof (Prim2SF_valid (of_uint63 (Uint63.of_Z n))) as V.
  rewrite of_uint63_spec, Uint63.of_Z_spec in V.
  rewrite Z.mod_small in V by exact Hn. exact V.
Qed.

Lemma Z2F_Nonneg (n : Z) : 0 <= n < 2 ^ 63 -> Nonneg (Z2F n).
Proof.
  intros Hn. unfold Nonneg. rewrite Prim2SF_Z2F by exact Hn.
  apply SFacts.binary_normalize_nonneg. lia.
Qed.

Lemma Math_round_Nonneg (x : float) : Nonneg x -> Nonneg (Math_round x).
Proof.
  intros Hx. unfold Math_round.
  pose proof (Prim2SF_valid x) as V. pose proof Hx as Hx'. unfold Nonneg in Hx'.
  destruct (Prim2SF x) as [s|s| |s m e] eqn:E; try exact Hx.
  cbn [SF.nonneg] in Hx'. subst s. cbn [signed].
  destruct (0 <=? e) eqn:He; [exact Hx|]. apply Z.leb_gt in He.
  apply SFacts.bounded_shape in V as (_ & Hm & _).
  set (t := 2 ^ (- e)).
  assert (Ht : 2 ^ (1 - e) = 2 * t).
  { subst t. replace (1 - e) with (Z.succ (- e)) by lia. apply Z.pow_succ_r. lia. }
  assert (Ht2 : 2 <= t).
  { subst t. change 2 with (2 ^ 1) at 1. apply Z.pow_le_mono_r; lia. }
  rewrite Ht. set (n := (2 * Z.pos m + t) / (2 * t)).
  assert (Hn0 : 0 <= n) by (apply Z.div_pos; lia).
  assert (Hn1 : n <= Z.pos m).
  { apply Z.div_le_upper_bound; [lia|]. nia. }
  destruct (n =? 0) eqn:Hz.
  - unfold Nonneg. exact I.
  - apply Z2F_Nonneg. change (2 ^ 63) with (2 ^ 53 * 1024). lia.
Qed.

Lemma scaled_round_mono (v w : Z) (fd : nat) :
  v <= w -> scaled_round v fd <= scaled_round w fd.
Proof.
  intros H. unfold scaled_round. apply Z.div_le_mono; [reflexivity|].
  assert (0 < 10 ^ Z.of_nat fd) by (apply Z.pow_pos_nonneg; lia). nia.
Qed.

Lemma nearest_scaled_value (m : positive) (e : Z) (fd : nat) :
  -1074 <= e ->
  nearest_scaled m e fd = scaled_round (Z.pos m * 2 ^ (e + 1074)) fd.
Proof.
  intros He. unfold nearest_scaled, scaled_round.
  set (k := Z.pos m * 10 ^ Z.of_nat fd).
  assert (H75 : 2 ^ 1075 = 2 * 2 ^ 1074) by (apply (Z.pow_succ_r 2 1074); lia).
  assert (Hp : 0 < 2 ^ 1074) by (apply Z.pow_pos_nonneg; lia).
  destruct (0 <=? e) eqn:E.
  - apply Z.leb_le in E.
    replace (2 * (Z.pos m * 2 ^ (e + 1074)) * 10 ^ Z.of_nat fd + 2 ^ 1074)
      with (k * 2 ^ e * 2 ^ 1075 + 2 ^ 1074).
    + rewrite Z.div_add_l by lia. rewrite (Z.div_small (2 ^ 1074)) by lia. lia.
    + rewrite (Z.pow_add_r 2 e 1074) by lia. subst k. rewrite H75. ring.
  - apply Z.leb_gt in E.
    assert (Hq : 0 < 2 ^ (e + 1074)) by (apply Z.pow_pos_nonneg; lia).
    rewrite <- (Z.div_mul_cancel_r (2 * k + 2 ^ (- e)) (2 ^ (1 - e)) (2 ^ (e + 1074)))
      by (try apply Z.pow_nonzero; lia).
    rewrite <- (Z.pow_add_r 2 (1 - e) (e + 1074)) by lia.
    replace (1 - e + (e + 1074)) with 1075 by lia.
    f_equal. rewrite Z.mul_add_distr_r.
    rewrite <- (Z.pow_add_r 2 (- e) (e + 1074)) by lia.
    replace (- e + (e + 1074)) with 1074 by lia. subst k. ring.
Qed.

Lemma toFixed_Nonneg (x : float) (fd : nat) :
  Nonneg x -> val x < val 1e21 ->
  toFixed x fd = NumFixed false (scaled_round (val x) fd) fd.
Proof.
  intros Hx Hlt. unfold toFixed.
  pose proof (Prim2SF_valid x) as V.
  assert (Habs : (1e21 <=? abs x)%float = (val 1e21 <=? val (abs x))).
  { apply leb_val; [reflexivity|]. rewrite is_nan_spec, abs_spec.
    unfold Nonneg in Hx. now destruct (Prim2SF x). }
  unfold val in Habs, Hlt. rewrite abs_spec in Habs. unfold val, Nonneg in *.
  destruct (Prim2SF x) as [s|s| |s m e] eqn:E; cbn [SF.nonneg] in Hx; try contradiction.
  - cbn [SF.value]. unfold scaled_round. rewrite Z.mul_0_r, Z.mul_0_l, Z.add_0_l.
    rewrite Z.div_small; [reflexivity|].
    split; [apply Z.pow_nonneg; lia | apply Z.pow_lt_mono_r; lia].
  - subst s. exfalso. revert Hlt. cbn [SF.value cond_Zopp]. apply Z.le_ngt.
    vm_compute. discriminate.
  - subst s. cbn [SFabs SF.value cond_Zopp] in *.
    rewrite Habs. destruct (Z.leb_spec (SF.value (Prim2SF 1e21)) (Z.pos m * 2 ^ (e + 1074))); [lia|].
    apply SFacts.bounded_shape in V as (He & _).
    rewrite nearest_scaled_value by lia. reflexivity.
Qed.

Lemma in_range (a b n : Z) : a <= n <= b -> In n (range a b).
Proof.
  intros H. unfold range. apply in_map_iff. exists (Z.to_nat (n - a)).
  split; [lia|]. apply in_seq. lia.
Qed.

(** [parseFloat(x.toFixed(fd))] stays between two bounds when every decimal
    between the rounded bounds reads back between them. *)
Lemma parseFloat_toFixed_range (x lo hi : float) (fd : nat) :
  Nonneg x -> val lo <= val x <= val hi -> val hi < val 1e21 ->
  forallb (fun n => (lo <=? parseFloat (NumFixed false n fd))%float &&
                    (parseFloat (NumFixed false n fd) <=? hi)%float)
          (range (scaled_round (val lo) fd) (scaled_round (val hi) fd)) = true ->
  (lo <=? parseFloat (toFixed x fd))%float = true /\
  (parseFloat (toFixed x fd) <=? hi)%float = true.
Proof.
  intros Hx [Hlo Hhi] H21 Hall.
  rewrite toFixed_Nonneg by (assumption || lia).
  rewrite forallb_forall in Hall.
  specialize (Hall (scaled_round (val x) fd)).
  apply andb_prop, Hall, in_range.
  split; apply scaled_round_mono; assumption.
Qed.

End Conversions.

(* ================================================================= *)
(** ** The records of a run *)

Section GeneratorRun.

Import JS Rand.
Local Open Scope float_scope.

Lemma base_parameters_run (segment : option Segment) (g : source) (k : nat) :
  base_parameters segment g k =
  ((baseBalance_of segment (g k), baseLimit_of segment, riskFactor_of segment), S k).
Proof.
  unfold base_parameters, baseBalance_of, baseLimit_of, riskFactor_of.
  destruct (is_segment segment HighNetWorth); [reflexivity|].
  destruct (is_segment segment Affluent); reflexivity.
Qed.

Lemma iteration_run (i : nat) (g : source) (k : nat) :
  iteration i g k =
  (record_of_draws i (g k) (g (k + 1)%nat) (g (k + 2)%nat)
                     (g (k + 3)%nat) (g (k + 4)%nat) (g (k + 5)%nat),
   (k + 6)%nat).
Proof.
  unfold iteration, bind, Math_random, ret.
  rewrite base_parameters_run.
  replace (k + 1)%nat with (S k) by lia.
  replace (k + 2)%nat with (S (S k)) by lia.
  replace (k + 3)%nat with (S (S (S k))) by lia.
  replace (k + 4)%nat with (S (S (S (S k)))) by lia.
  replace (k + 5)%nat with (S (S (S (S (S k))))) by lia.
  replace (k + 6)%nat with (S (S (S (S (S (S k)))))) by lia.
  reflexivity.
Qed.

Lemma loop_run (n : nat) : forall (i : nat) (data : list PortfolioRecord) (g : source),
  loop n i data g (6 * i)%nat =
  (data ++ map (nth_record g) (seq i n), (6 * (i + n))%nat).
Proof.
  induction n as [|n IH]; intros i data g.
  - cbn [loop seq map]. unfold ret. rewrite app_nil_r. f_equal. lia.
  - cbn [loop seq map]. unfold bind. rewrite iteration_run.
    replace (6 * i + 6)%nat with (6 * S i)%nat by lia.
    rewrite IH. rewrite <- app_assoc. cbn [app]. unfold nth_record.
    do 2 f_equal. lia.
Qed.

Lemma generatePortfolioData_run (g : source) :
  run generatePortfolioData g = map (nth_record g) (seq 0 200).
Proof.
  unfold run, generatePortfolioData.
  change 0%nat with (6 * 0)%nat at 1. rewrite loop_run. reflexivity.
Qed.

Lemma generated_record (g : source) (r : PortfolioRecord) :
  In r (run generatePortfolioData g) <->
  exists i : nat, (i < 200)%nat /\ r = nth_record g i.
Proof.
  rewrite generatePortfolioData_run, in_map_iff. split.
  - intros (i & <- & Hi). apply in_seq in Hi. exists i. split; [lia | reflexivity].
  - intros (i & Hi & ->). exists i. split; [reflexivity | apply in_seq; lia].
Qed.

Lemma unit_draws_halves : unit_draws halves.
Proof. intros k. split; reflexivity. Qed.

Lemma unit_draws_near_tie : unit_draws near_tie.
Proof. intros [|[|[|k]]]; split; reflexivity. Qed.

End GeneratorRun.

(* ================================================================= *)
(** ** Ranges of the generated fields *)

Section Invariants.

Import JS Rand.
Local Open Scope float_scope.

Lemma baseBalance_Nonneg (segment : option Segment) (u : float) :
  Nonneg u -> Nonneg (baseBalance_of segment u).
Proof.
  intros Hu. unfold baseBalance_of.
  destruct (is_segment segment HighNetWorth); [|destruct (is_segment segment Affluent)];
    (apply add_Nonneg; [apply positive_finite_Nonneg; constant
                       | apply mul_Nonneg; [exact Hu | constant]]).
Qed.

Lemma utilization_of_range (segment : option Segment) (u : float) :
  Nonneg u ->
  Nonneg (utilization_of segment u) /\ (val (utilization_of segment u) <= val 1.2)%Z.
Proof.
  intros Hu. unfold utilization_of.
  assert (Hq : Nonneg (baseBalance_of segment u / baseLimit_of segment)).
  { apply div_Nonneg; [now apply baseBalance_Nonneg|]. unfold baseLimit_of.
    destruct (is_segment segment HighNetWorth); [|destruct (is_segment segment Affluent)];
      constant. }
  destruct (Math_min_spec (baseBalance_of segment u / baseLimit_of segment) 1.2)
    as [Hor Hval]; [now apply Nonneg_not_nan | reflexivity |].
  split; [|lia].
  destruct Hor as [-> | ->]; [exact Hq | apply positive_finite_Nonneg; constant].
Qed.

Lemma riskScore_of_range (segment : option Segment) (u3 u4 : float) :
  Nonneg u3 -> Nonneg u4 ->
  Nonneg (riskScore_of segment u3 u4) /\
  (val 0.01 <= val (riskScore_of segment u3 u4) <= val 0.99)%Z.
Proof.
  intros H3 H4. unfold riskScore_of.
  destruct (utilization_of_range segment u3 H3) as [Hu _].
  set (raw := u4 * 0.4 + utilization_of segment u3 * 0.5).
  assert (Hraw : Nonneg raw).
  { apply add_Nonneg; apply mul_Nonneg; auto; constant. }
  set (biased := if is_segment segment MassMarket then raw + 0.1 else raw).
  assert (Hb : Nonneg biased).
  { subst biased. destruct (is_segment segment MassMarket); [|exact Hraw].
    apply add_Nonneg; [exact Hraw | apply positive_finite_Nonneg; constant]. }
  destruct (Math_max_spec biased 0.01) as [Hor1 Hv1];
    [now apply Nonneg_not_nan | reflexivity |].
  assert (Hm : Nonneg (Math_max biased 0.01)).
  { destruct Hor1 as [-> | ->]; [exact Hb | apply positive_finite_Nonneg; constant]. }
  destruct (Math_min_spec (Math_max biased 0.01) 0.99) as [Hor2 Hv2];
    [now apply Nonneg_not_nan | reflexivity |].
  split.
  - destruct Hor2 as [-> | ->]; [exact Hm | apply positive_finite_Nonneg; constant].
  - rewrite Hv2, Hv1.
    assert (val 0.01 <= val 0.99)%Z by (vm_compute; discriminate). lia.
Qed.

Lemma annualRevenue_Nonneg (segment : option Segment) (u3 u6 : float) :
  Nonneg u3 -> Nonneg u6 ->
  Nonneg (Math_round (baseBalance_of segment u3 * 0.04 + u6 * 500)).
Proof.
  intros H3 H6. apply Math_round_Nonneg, add_Nonneg; apply mul_Nonneg;
    auto using baseBalance_Nonneg; constant.
Qed.

Lemma nth_record_in_range (g : source) (i : nat) :
  unit_draws g ->
  let r := nth_record g i in
  ((0.01 <=? riskScore r) = true /\ (riskScore r <=? 0.99) = true) /\
  ((0 <=? utilization r) = true /\ (utilization r <=? 1.2) = true) /\
  (0 <=? accountBalance r) = true /\
  (0 <=? annualRevenue r) = true.
Proof.
  intros Hg r.
  assert (Hn : forall k, Nonneg (g k)) by (intros k; apply Nonneg_leb, Hg).
  subst r. unfold nth_record, record_of_draws.
  cbn [riskScore utilization accountBalance annualRevenue].
  set (segment := index segments _).
  split; [|split; [|split]].
  - apply parseFloat_toFixed_range.
    + now apply riskScore_of_range.
    + now apply riskScore_of_range.
    + vm_compute. reflexivity.
    + vm_compute. reflexivity.
  - apply parseFloat_toFixed_range.
    + now apply utilization_of_range.
    + split; [apply Nonneg_val|]; now apply utilization_of_range.
    + vm_compute. reflexivity.
    + vm_compute. reflexivity.
  - apply Nonneg_leb, Math_round_Nonneg, baseBalance_Nonneg, Hn.
  - apply Nonneg_leb, annualRevenue_Nonneg; apply Hn.
Qed.

End Invariants.

(* ================================================================= *)
(** ** Generated balances are whole amounts of bounded size *)

Section Bounds.

Import JS Rand.
Local Open Scope float_scope.

Lemma positive_finite_shape (c : float) :
  positive_finite c ->
  exists (m : positive) (e : Z),
    Prim2SF c = S754_finite false m e /\ bounded prec emax m e = true.
Proof.
  unfold positive_finite. pose proof (Prim2SF_valid c) as V.
  destruct (Prim2SF c) as [| | |[] m e]; try contradiction. eauto.
Qed.

Lemma at_most_val (x w : float) :
  positive_finite w -> SF.at_most (Prim2SF w) (Prim2SF x) ->
  Nonneg x /\ (val x <= val w)%Z.
Proof.
  intros Hw H. destruct (positive_finite_shape w Hw) as (mw & ew & Ew & Vw).
  pose proof (SFacts.finite_value_bounds _ _ Vw) as Hvw.
  unfold Nonneg, val. rewrite Ew in *. pose proof (Prim2SF_valid x) as V.
  destruct (Prim2SF x) as [s|s| |[] m e]; cbn [SF.at_most] in H; try contradiction.
  - split; [exact I|]. cbn [SF.value cond_Zopp]. lia.
  - split; [reflexivity|]. apply SFacts.bounded_shape in V as (He & _).
    rewrite SFacts.value_scaled in H by lia.
    apply Z.mul_le_mono_pos_r in H; [exact H | reflexivity].
Qed.

Lemma mul_le (x c w : float) :
  Nonneg x -> (val x < 2 ^ 2098)%Z -> positive_finite c -> positive_finite w ->
  (val x * val c <= val w * 2 ^ 1074)%Z ->
  Nonneg (x * c) /\ (val (x * c) <= val w)%Z.
Proof.
  intros Hx Hfin Hc Hw Hle. apply at_most_val; [exact Hw|].
  destruct (positive_finite_shape c Hc) as (mc & ec & Ec & Vc).
  destruct (positive_finite_shape w Hw) as (mw & ew & Ew & Vw).
  rewrite mul_spec, Ec, Ew. unfold Nonneg, val in *. rewrite Ec, Ew in Hle.
  pose proof (Prim2SF_valid x) as V.
  destruct (Prim2SF x) as [s|s| |s m e]; cbn [SF.nonneg] in Hx; try contradiction.
  - exact I.
  - subst s. cbn [SF.value cond_Zopp] in Hfin. lia.
  - subst s. now apply SFacts.SFmul_at_most.
Qed.

Lemma add_le (x y w : float) :
  Nonneg x -> Nonneg y -> positive_finite w ->
  (val x + val y <= val w)%Z ->
  Nonneg (x + y) /\ (val (x + y) <= val w)%Z.
Proof.
  intros Hx Hy Hw Hle. pose proof (Nonneg_val x Hx) as Hx0. pose proof (Nonneg_val y Hy) as Hy0.
  apply at_most_val; [exact Hw|].
  destruct (positive_finite_shape w Hw) as (mw & ew & Ew & Vw).
  pose proof (SFacts.finite_value_bounds _ _ Vw) as Hvw.
  rewrite add_spec, Ew. unfold Nonneg, val in *. rewrite Ew in Hle.
  cbn [SF.value cond_Zopp] in Hle.
  pose proof (Prim2SF_valid x) as Vx. pose proof (Prim2SF_valid y) as Vy.
  destruct (Prim2SF x) as [sx|sx| |sx mx ex], (Prim2SF y) as [sy|sy| |sy my ey];
    cbn [SF.nonneg] in Hx, Hy; try contradiction; subst;
    cbn [SF.value cond_Zopp] in *; try lia.
  - cbn. now destruct sx, sy.
  - cbn [SF64add SFadd SF.at_most]. apply SFacts.bounded_shape in Vy as (He & _).
    rewrite SFacts.value_scaled by lia. cbn [SF.value cond_Zopp].
    apply Z.mul_le_mono_nonneg_r; [apply Z.pow_nonneg|]; lia.
  - cbn [SF64add SFadd SF.at_most]. apply SFacts.bounded_shape in Vx as (He & _).
    rewrite SFacts.value_scaled by lia. cbn [SF.value cond_Zopp].
    apply Z.mul_le_mono_nonneg_r; [apply Z.pow_nonneg|]; lia.
  - now apply SFacts.SFadd_at_most.
Qed.

Lemma add_Positive (c y : float) : positive_finite c -> Nonneg y -> Positive (c + y).
Proof.
  intros Hc Hy. destruct (positive_finite_shape c Hc) as (mc & ec & Ec & Vc).
  unfold Positive, Nonneg in *. rewrite add_spec, Ec.
  pose proof (SFacts.SFadd_positive mc ec (Prim2SF y) Vc (Prim2SF_valid y) Hy) as H.
  destruct (SF64add _ _); auto.
Qed.

(** The balance before rounding is positive and at most 200000. *)
Lemma baseBalance_bound (segment : option Segment) (u : float) :
  (0 <=? u) = true -> (u <? 1) = true ->
  Positive (baseBalance_of segment u) /\
  (val (baseBalance_of segment u) <= val 200000)%Z.
Proof.
  intros H0 H1. apply Nonneg_leb in H0.
  assert (Hu : (val u < val 1)%Z).
  { apply Z.ltb_lt. rewrite <- ltb_val; [exact H1 | now apply Nonneg_not_nan | reflexivity]. }
  assert (Hone : val 1 = (2 ^ 1074)%Z) by (vm_compute; reflexivity).
  assert (Hfin : (val u < 2 ^ 2098)%Z).
  { rewrite Hone in Hu. eapply Z.lt_trans; [exact Hu|]. apply Z.pow_lt_mono_r; lia. }
  assert (Hmul : forall c, positive_finite c -> Nonneg (u * c) /\ (val (u * c) <= val c)%Z).
  { intros c Hc. apply mul_le; auto. rewrite <- Hone.
    pose proof (Nonneg_val c (positive_finite_Nonneg c Hc)).
    rewrite (Z.mul_comm (val c)). apply Z.mul_le_mono_nonneg_r; lia. }
  unfold baseBalance_of.
  destruct (is_segment segment HighNetWorth); [|destruct (is_segment segment Affluent)].
  - destruct (Hmul 150000 ltac:(constant)) as [Hn Hv].
    split; [apply add_Positive; [constant | exact Hn]|].
    apply add_le; [apply positive_finite_Nonneg; constant | exact Hn | constant |].
    assert (val 50000 + val 150000 <= val 200000)%Z by (vm_compute; discriminate). lia.
  - destruct (Hmul 50000 ltac:(constant)) as [Hn Hv].
    split; [apply add_Positive; [constant | exact Hn]|].
    apply add_le; [apply positive_finite_Nonneg; constant | exact Hn | constant |].
    assert (val 15000 + val 50000 <= val 200000)%Z by (vm_compute; discriminate). lia.
  - destruct (Hmul 10000 ltac:(constant)) as [Hn Hv].
    split; [apply add_Positive; [constant | exact Hn]|].
    apply add_le; [apply positive_finite_Nonneg; constant | exact Hn | constant |].
    assert (val 1000 + val 10000 <= val 200000)%Z by (vm_compute; discriminate). lia.
Qed.

(** [Math.round] of a positive number up to 200000 is a whole amount. *)
Lemma Math_round_whole (x : float) :
  Positive x -> (val x <= val 200000)%Z ->
  exists n : Z, (0 <= n <= 200000)%Z /\ Math_round x = Z2F n.
Proof.
  intros Hx Hle. unfold Math_round, Positive, val in *.
  assert (H2 : SF.value (Prim2SF 200000) = (200000 * 2 ^ 1074)%Z) by (vm_compute; reflexivity).
  rewrite H2 in Hle. clear H2.
  pose proof (Prim2SF_valid x) as V.
  destruct (Prim2SF x) as [s|s| |s m e]; try contradiction; subst s.
  - exfalso. cbn [SF.value cond_Zopp] in Hle. revert Hle. apply Z.lt_nge.
    change (2 ^ 2098)%Z with (2 ^ 1024 * 2 ^ 1074)%Z.
    apply Z.mul_lt_mono_pos_r; reflexivity.
  - cbn [valid_binary] in V. apply SFacts.bounded_shape in V as (He & Hm & Hn).
    cbn [SF.value cond_Zopp signed] in *.
    pose proof (SFacts.pow2_pos (e + 1074) ltac:(lia)) as Hp.
    destruct (Z.leb_spec 0 e) as [Hpos|Hneg].
    + exfalso. destruct Hn as [Hn|Hn]; [lia|].
      assert (2 ^ 1074 <= 2 ^ (e + 1074))%Z by (apply Z.pow_le_mono_r; lia).
      assert (200000 < 2 ^ 52)%Z by reflexivity.
      pose proof (SFacts.pow2_pos 1074 ltac:(lia)).
      set (c := (2 ^ 52)%Z) in *. set (T := (2 ^ 1074)%Z) in *.
      set (P := (2 ^ (e + 1074))%Z) in *. clearbody c T P. nia.
    + set (t := (2 ^ (- e))%Z).
      assert (Ht : (2 ^ (1 - e) = 2 * t)%Z).
      { subst t. replace (1 - e)%Z with (Z.succ (- e)) by lia. apply Z.pow_succ_r. lia. }
      assert (Ht0 : (0 < t)%Z) by (subst t; apply SFacts.pow2_pos; lia).
      assert (HT : (2 ^ 1074 = 2 ^ (e + 1074) * t)%Z).
      { subst t. rewrite <- Z.pow_add_r by lia. f_equal. lia. }
      rewrite HT in Hle.
      assert (Hmt : (Z.pos m <= 200000 * t)%Z).
      { set (P := (2 ^ (e + 1074))%Z) in *. clearbody P. nia. }
      rewrite Ht. set (n := ((2 * Z.pos m + t) / (2 * t))%Z).
      assert (Hn0 : (0 <= n)%Z) by (apply Z.div_pos; lia).
      assert (Hn1 : (n < 200001)%Z) by (apply Z.div_lt_upper_bound; lia).
      destruct (n =? 0)%Z eqn:Hz.
      * exists 0%Z. split; [lia | reflexivity].
      * exists n. split; [lia | reflexivity].
Qed.

Lemma generated_balance_whole (g : source) (i : nat) :
  unit_draws g ->
  exists n : Z, (0 <= n <= 200000)%Z /\ accountBalance (nth_record g i) = Z2F n.
Proof.
  intros Hg. unfold nth_record, record_of_draws. cbn [accountBalance].
  destruct (Hg (6 * i + 2)%nat) as [H0 H1].
  apply Math_round_whole; now apply baseBalance_bound.
Qed.

End Bounds.

(* ================================================================= *)
(** ** Every generated record has a segment and a region *)

Section Names.

Import JS Rand.
Local Open Scope float_scope.

Lemma unit_draw_val (u : float) :
  (0 <=? u) = true -> (u <? 1) = true ->
  Nonneg u /\ (val u < 2 ^ 2098)%Z /\ (val u <= 2 ^ 1074 - 2 ^ 1021)%Z.
Proof.
  intros H0 H1. apply Nonneg_leb in H0. split; [exact H0|].
  assert (Hu : (val u < val 1)%Z).
  { apply Z.ltb_lt. rewrite <- ltb_val; [exact H1 | now apply Nonneg_not_nan | reflexivity]. }
  change (val 1) with (SF.value (S754_finite false 4503599627370496 (-52))) in Hu.
  assert (Hone : SF.value (S754_finite false 4503599627370496 (-52)) = (2 ^ 1074)%Z)
    by (vm_compute; reflexivity).
  rewrite Hone in Hu. clear Hone.
  split.
  - eapply Z.lt_trans; [exact Hu|]. apply Z.pow_lt_mono_r; lia.
  - unfold val, Nonneg in *. pose proof (Prim2SF_valid u) as V.
    destruct (Prim2SF u) as [s|s| |s m e]; cbn [SF.nonneg] in H0; try contradiction.
    + cbn [SF.value]. vm_compute. discriminate.
    + subst s. exfalso. revert Hu. cbn [SF.value cond_Zopp]. apply Z.le_ngt.
      apply Z.pow_le_mono_r; lia.
    + subst s. cbn [SF.value cond_Zopp] in *. now apply SFacts.below_one.
Qed.

(** A product kept strictly below [w] by the half-unit error bound. *)
Lemma mul_lt (x c w : float) (k X : Z) :
  Nonneg x -> (val x < 2 ^ 2098)%Z -> positive_finite c -> positive_finite w ->
  (val x * val c <= val w * 2 ^ 1074)%Z ->
  (val x * val c * 2 ^ 52 <= X)%Z -> (X < 2 ^ (k + 2200))%Z ->
  (2 * X + 2 ^ (Z.max (k - 53) (-1074) + 2200) < 2 * (val w * 2 ^ 1126))%Z ->
  Nonneg (x * c) /\ (val (x * c) < val w)%Z.
Proof.
  intros Hx Hfin Hc Hw Hle HX Hk Hhalf.
  destruct (mul_le x c w Hx Hfin Hc Hw Hle) as [Hn Hv]. split; [exact Hn|].
  destruct (positive_finite_shape c Hc) as (mc & ec & Ec & Vc).
  destruct (positive_finite_shape w Hw) as (mw & ew & Ew & Vw).
  pose proof (SFacts.finite_value_bounds _ _ Vw) as Hvw.
  pose proof (Prim2SF_valid (x * c)) as Vr.
  unfold Nonneg, val in *. rewrite mul_spec in *. rewrite Ec, Ew in *.
  pose proof (Prim2SF_valid x) as V.
  destruct (Prim2SF x) as [s|s| |s m e]; cbn [SF.nonneg] in Hx; try contradiction.
  - cbn [SF64mul SFmul SF.value cond_Zopp] in *. lia.
  - subst s. cbn [SF.value cond_Zopp] in Hfin. lia.
  - subst s. cbn [valid_binary] in V.
    pose proof (SFacts.bounded_shape _ _ V) as (He & _).
    pose proof (SFacts.bounded_shape _ _ Vc) as (Hec & _).
    assert (HX' : (Z.pos m * Z.pos mc * 2 ^ (e + ec + 2200) <= X)%Z).
    { eapply Z.le_trans; [|exact HX]. cbn [SF.value cond_Zopp].
      replace (e + ec + 2200)%Z with ((e + 1074) + (ec + 1074) + 52)%Z by lia.
      rewrite !Z.pow_add_r by lia. apply Z.eq_le_incl. ring. }
    pose proof (SFacts.SFmul_half_ulp m mc e ec k X V Vc HX' Hk) as H.
    destruct (SF64mul (S754_finite false m e) (S754_finite false mc ec)) as [s|s| |s f ef];
      cbn [SF.nonneg] in Hn; try contradiction.
    + cbn [SF.value cond_Zopp] in *. lia.
    + subst s. cbn [SF.value cond_Zopp] in Hv, Hvw. lia.
    + subst s. cbn [valid_binary] in Vr. pose proof (SFacts.bounded_shape _ _ Vr) as (Hef & _).
      rewrite SFacts.value_scaled in H by lia.
      pose proof (SFacts.pow2_pos 1126 ltac:(lia)) as HP.
      set (P := (2 ^ 1126)%Z) in *. clearbody P. nia.
Qed.

Lemma draw_times_3 (u : float) :
  (0 <=? u) = true -> (u <? 1) = true ->
  Nonneg (u * 3) /\ (val (u * 3) < 3 * 2 ^ 1074)%Z.
Proof.
  intros H0 H1. destruct (unit_draw_val u H0 H1) as (Hn & Hfin & Hv).
  pose proof (Nonneg_val u Hn) as Hu0.
  assert (H3 : val 3 = (3 * 2 ^ 1074)%Z) by (vm_compute; reflexivity).
  assert (Hc : positive_finite 3) by (vm_compute; exact I).
  assert (H21 : (0 < 2 ^ 1021)%Z) by reflexivity.
  assert (H74 : (0 < 2 ^ 1074)%Z) by reflexivity.
  assert (H52 : (0 < 2 ^ 52)%Z) by reflexivity.
  rewrite <- H3.
  refine (mul_lt u 3 3 2 ((2 ^ 1074 - 2 ^ 1021) * (3 * 2 ^ 1074) * 2 ^ 52)%Z
            Hn Hfin Hc Hc _ _ _ _); rewrite ?H3.
  - rewrite (Z.mul_comm (3 * 2 ^ 1074)%Z). apply Z.mul_le_mono_nonneg_r; lia.
  - apply Z.mul_le_mono_nonneg_r; [lia|]. apply Z.mul_le_mono_nonneg_r; lia.
  - vm_compute. reflexivity.
  - vm_compute. reflexivity.
Qed.

Lemma draw_times_4 (u : float) :
  (0 <=? u) = true -> (u <? 1) = true ->
  Nonneg (u * 4) /\ (val (u * 4) < 4 * 2 ^ 1074)%Z.
Proof.
  intros H0 H1. destruct (unit_draw_val u H0 H1) as (Hn & Hfin & Hv).
  assert (H4 : val 4 = (4 * 2 ^ 1074)%Z) by (vm_compute; reflexivity).
  assert (Hp : val (next_down 4) = ((2 ^ 1074 - 2 ^ 1021) * 4)%Z) by (vm_compute; reflexivity).
  assert (Hc : positive_finite 4) by (vm_compute; exact I).
  assert (Hw : positive_finite (next_down 4)) by (vm_compute; exact I).
  assert (H74 : (0 < 2 ^ 1074)%Z) by reflexivity.
  destruct (mul_le u 4 (next_down 4) Hn Hfin Hc Hw) as [Hn4 Hv4].
  - rewrite H4, Hp.
    replace ((2 ^ 1074 - 2 ^ 1021) * 4 * 2 ^ 1074)%Z
      with ((2 ^ 1074 - 2 ^ 1021) * (4 * 2 ^ 1074))%Z by ring.
    apply Z.mul_le_mono_nonneg_r; lia.
  - split; [exact Hn4|]. rewrite Hp in Hv4.
    eapply Z.le_lt_trans; [exact Hv4|]. vm_compute. reflexivity.
Qed.

(** Below [N <= 4], [Math.floor] gives an index below [N]. *)
Lemma floor_index (x : float) (N : Z) :
  Nonneg x -> (val x < N * 2 ^ 1074)%Z -> (N <= 4)%Z ->
  exists k : nat, (Z.of_nat k < N)%Z /\ to_index (Math_floor x) = Some k.
Proof.
  intros Hx Hlt HN. unfold Math_floor, Nonneg, val in *.
  pose proof (Prim2SF_valid x) as V.
  assert (HT : (0 < 2 ^ 1074)%Z) by reflexivity.
  destruct (Prim2SF x) as [s|s| |s m e] eqn:E; cbn [SF.nonneg] in Hx; try contradiction.
  - exists 0%nat. cbn [SF.value] in Hlt. split; [lia|]. unfold to_index. now rewrite E.
  - subst s. exfalso. cbn [SF.value cond_Zopp] in Hlt.
    assert (4 * 2 ^ 1074 < 2 ^ 2098)%Z by reflexivity. nia.
  - subst s. cbn [valid_binary] in V. apply SFacts.bounded_shape in V as (He & Hm & Hn).
    cbn [SF.value cond_Zopp signed] in *.
    pose proof (SFacts.pow2_pos (e + 1074) ltac:(lia)) as Hp.
    destruct (Z.leb_spec 0 e) as [Hpos|Hneg].
    + exfalso. destruct Hn as [Hn|Hn]; [lia|].
      assert (2 ^ 1074 <= 2 ^ (e + 1074))%Z by (apply Z.pow_le_mono_r; lia).
      assert (4 < 2 ^ 52)%Z by reflexivity.
      set (c := (2 ^ 52)%Z) in *. set (T := (2 ^ 1074)%Z) in *.
      set (P := (2 ^ (e + 1074))%Z) in *. clearbody c T P. nia.
    + set (t := (2 ^ (- e))%Z).
      assert (Ht0 : (0 < t)%Z) by (subst t; apply SFacts.pow2_pos; lia).
      assert (HTt : (2 ^ 1074 = 2 ^ (e + 1074) * t)%Z).
      { subst t. rewrite <- Z.pow_add_r by lia. f_equal. lia. }
      rewrite HTt in Hlt.
      assert (Hmt : (Z.pos m < N * t)%Z).
      { set (P := (2 ^ (e + 1074))%Z) in *. clearbody P. nia. }
      set (n := (Z.pos m / t)%Z).
      assert (Hn0 : (0 <= n)%Z) by (apply Z.div_pos; lia).
      assert (Hn1 : (n < N)%Z) by (apply Z.div_lt_upper_bound; lia).
      destruct (n =? 0)%Z eqn:Hz.
      * exists 0%nat. split; [lia | reflexivity].
      * apply Z.eqb_neq in Hz. exists (Z.to_nat n). split; [lia|].
        assert (Hc : n = 1%Z \/ n = 2%Z \/ n = 3%Z) by lia.
        destruct Hc as [-> | [-> | ->]]; reflexivity.
Qed.

Lemma generated_names (g : source) (i : nat) :
  unit_draws g ->
  (exists s : Segment, segment (nth_record g i) = Some s) /\
  (exists r : Region, region (nth_record g i) = Some r).
Proof.
  intros Hg. unfold nth_record, record_of_draws. cbn [segment region].
  change (of_nat (List.length segments)) with 3.
  change (of_nat (List.length regions)) with 4.
  split.
  - destruct (Hg (6 * i)%nat) as [H0 H1].
    destruct (draw_times_3 _ H0 H1) as [Hn Hv].
    destruct (floor_index _ 3 Hn Hv ltac:(lia)) as (k & Hk & Hi).
    unfold index. rewrite Hi.
    destruct k as [|[|[|k]]]; cbn; eauto. lia.
  - destruct (Hg (6 * i + 1)%nat) as [H0 H1].
    destruct (draw_times_4 _ H0 H1) as [Hn Hv].
    destruct (floor_index _ 4 Hn Hv ltac:(lia)) as (k & Hk & Hi).
    unfold index. rewrite Hi.
    destruct k as [|[|[|[|k]]]]; cbn; eauto. lia.
Qed.

End Names.

(* ================================================================= *)
(** ** The generator: number of records, utilization and risk score *)

Section GeneratorClaims.

Import JS Rand.
Local Open Scope float_scope.

(** C1, as stated, fails: a call with count 0 does not return an empty
    sequence. *)
Lemma generate_zero_not_empty : run (generate 0) halves <> [].
Proof.
  unfold generate. rewrite generatePortfolioData_run. discriminate.
Qed.

(** C1 (amended): the generator has no count parameter; whatever count a
    call passes and whatever the draws, it produces exactly 200 records. *)
Theorem generate_length (count : float) (g : source) :
  List.length (run (generate count) g) = 200%nat.
Proof.
  unfold generate. rewrite generatePortfolioData_run.
  now rewrite length_map, length_seq.
Qed.

Lemma zero_max (q : float) (fd : nat) :
  Nonneg q ->
  toFixed (Math_min (Math_max q 0) 1.2) fd = toFixed (Math_min q 1.2) fd.
Proof.
  intros Hq.
  destruct (Math_max_spec q 0) as [[E|E] Hv];
    [now apply Nonneg_not_nan | reflexivity | now rewrite E |].
  rewrite E. pose proof (Nonneg_val q Hq) as H0.
  rewrite E in Hv. change (val 0) with 0%Z in Hv.
  assert (Hz : val q = 0%Z) by lia.
  assert (Hmin : Math_min q 1.2 = q).
  { unfold Math_min. rewrite (Nonneg_not_nan q Hq). cbn [orb].
    change (PrimFloat.is_nan 1.2) with false. cbn [orb].
    rewrite ltb_val by (now apply Nonneg_not_nan || reflexivity).
    rewrite Hz. reflexivity. }
  rewrite Hmin. change (Math_min 0 1.2) with 0.
  unfold toFixed. change (Prim2SF 0) with (S754_zero false). cbn iota.
  unfold val in Hz. unfold Nonneg in Hq. pose proof (Prim2SF_valid q) as V.
  destruct (Prim2SF q) as [s|s| |s m e]; cbn [SF.nonneg] in Hq; try contradiction.
  - reflexivity.
  - subst s. discriminate Hz.
  - subst s. cbn [SF.value cond_Zopp] in Hz.
    pose proof (SFacts.finite_value_bounds m e V). lia.
Qed.

(** C4, as stated, fails: the first record drawn from [near_tie] stores the
    balance 25000, the limit 40000 and the utilization 0.62, and the rule
    applied to the stored balance and limit gives 0.63. *)
Lemma stored_utilization_not_derivable :
  ~ Forall (fun r => utilization r = utilization_rule (accountBalance r) (creditLimit r))
           (run generatePortfolioData near_tie).
Proof.
  rewrite generatePortfolioData_run. intros H.
  apply Forall_inv in H.
  apply (f_equal (fun x => x =? 0.62)) in H. vm_compute in H. discriminate H.
Qed.

(** C4 (amended): the stored utilization of every generated record is the
    rule applied to the balance before rounding, [baseBalance], and to the
    stored credit limit; the stored balance is [Math.round(baseBalance)]. *)
Theorem utilization_from_baseBalance (g : source) (r : PortfolioRecord) :
  unit_draws g -> In r (run generatePortfolioData g) ->
  exists i : nat, (i < 200)%nat /\
    let baseBalance := baseBalance_of (segment r) (g (6 * i + 2)%nat) in
    accountBalance r = Math_round baseBalance /\
    utilization r = utilization_rule baseBalance (creditLimit r).
Proof.
  intros Hg Hr. apply generated_record in Hr as (i & Hi & ->).
  exists i. split; [exact Hi|]. cbn zeta. split; [reflexivity|].
  unfold nth_record, record_of_draws, utilization_rule, utilization_of.
  cbn [utilization segment creditLimit]. f_equal. symmetry. apply zero_max.
  apply div_Nonneg.
  - apply baseBalance_Nonneg, Nonneg_leb, Hg.
  - unfold baseLimit_of.
    destruct (is_segment _ HighNetWorth); [|destruct (is_segment _ Affluent)];
      vm_compute; exact I.
Qed.

Lemma utilization_from_baseBalance_witness :
  exists i : nat, (i < 200)%nat /\
    let baseBalance :=
      baseBalance_of (segment (nth_record halves 0)) (halves (6 * i + 2)%nat) in
    accountBalance (nth_record halves 0) = Math_round baseBalance /\
    utilization (nth_record halves 0) =
    utilization_rule baseBalance (creditLimit (nth_record halves 0)).
Proof.
  refine (utilization_from_baseBalance halves (nth_record halves 0) unit_draws_halves _).
  apply (proj2 (generated_record _ _)). exists 0%nat. split; [lia | reflexivity].
Defined.

(** C5: with draws in [0, 1), every generated record has a segment [s] and
    its stored risk score is [u * 0.4 + utilization * 0.5], plus 0.1 for
    Mass Market only, clamped to [0.01, 0.99] and rounded to 3 decimals,
    where [u] is the record's fourth draw and [utilization] the value
    [min(baseBalance / limit, 1.2)] of step 3. *)
Theorem riskScore_by_rule (g : source) (r : PortfolioRecord) :
  unit_draws g -> In r (run generatePortfolioData g) ->
  exists (s : Segment) (i : nat), (i < 200)%nat /\ segment r = Some s /\
    let baseBalance := baseBalance_of (segment r) (g (6 * i + 2)%nat) in
    let utilization := Math_min (baseBalance / creditLimit r) 1.2 in
    riskScore r = riskScore_rule s (g (6 * i + 3)%nat) utilization.
Proof.
  intros Hg Hr. apply generated_record in Hr as (i & Hi & ->).
  destruct (generated_names g i Hg) as [(s & Hs) _].
  exists s, i. split; [exact Hi|]. split; [exact Hs|]. cbn zeta. revert Hs.
  unfold nth_record, record_of_draws, riskScore_rule, riskScore_of, utilization_of.
  cbn [riskScore segment creditLimit]. intros ->.
  destruct s; reflexivity.
Qed.

Lemma riskScore_by_rule_witness :
  exists (s : Segment) (i : nat), (i < 200)%nat /\
    segment (nth_record halves 0) = Some s /\
    let baseBalance :=
      baseBalance_of (segment (nth_record halves 0)) (halves (6 * i + 2)%nat) in
    let utilization := Math_min (baseBalance / creditLimit (nth_record halves 0)) 1.2 in
    riskScore (nth_record halves 0) =
    riskScore_rule s (halves (6 * i + 3)%nat) utilization.
Proof.
  refine (riskScore_by_rule halves (nth_record halves 0) unit_draws_halves _).
  apply (proj2 (generated_record _ _)). exists 0%nat. split; [lia | reflexivity].
Defined.

(** C9: with draws in [0, 1), every generated record has its risk score in
    [0.01, 0.99], its utilization in [0, 1.2], and a balance and a revenue
    that are not negative. *)
Theorem generated_records_in_range (g : source) (r : PortfolioRecord) :
  unit_draws g -> In r (run generatePortfolioData g) ->
  ((0.01 <=? riskScore r) = true /\ (riskScore r <=? 0.99) = true) /\
  ((0 <=? utilization r) = true /\ (utilization r <=? 1.2) = true) /\
  (0 <=? accountBalance r) = true /\
  (0 <=? annualRevenue r) = true.
Proof.
  intros Hg Hr. apply generated_record in Hr as (i & _ & ->).
  now apply nth_record_in_range.
Qed.

Lemma generated_records_in_range_witness :
  ((0.01 <=? riskScore (nth_record near_tie 0)) = true /\
   (riskScore (nth_record near_tie 0) <=? 0.99) = true) /\
  ((0 <=? utilization (nth_record near_tie 0)) = true /\
   (utilization (nth_record near_tie 0) <=? 1.2) = true) /\
  (0 <=? accountBalance (nth_record near_tie 0)) = true /\
  (0 <=? annualRevenue (nth_record near_tie 0)) = true.
Proof.
  refine (generated_records_in_range near_tie (nth_record near_tie 0)
            unit_draws_near_tie _).
  apply (proj2 (generated_record _ _)). exists 0%nat. split; [lia | reflexivity].
Defined.

End GeneratorClaims.

(* ================================================================= *)
(** ** The aggregator: filtering and metrics *)

Section AggregatorClaims.

Import JS.
Local Open Scope float_scope.

Lemma Segment_eqb_eq (a b : Segment) : Segment_eqb a b = true <-> a = b.
Proof. destruct a, b; cbn; split; congruence. Qed.

Lemma Region_eqb_eq (a b : Region) : Region_eqb a b = true <-> a = b.
Proof. destruct a, b; cbn; split; congruence. Qed.

Lemma matches_spec {A : Type} (eqb : A -> A -> bool)
    (eqb_eq : forall a b, eqb a b = true <-> a = b)
    (field : option A) (s : Selection A) :
  is_all s || selected eqb field s = true <-> matches field s.
Proof.
  unfold matches. destruct s as [|a]; cbn.
  - split; auto.
  - destruct field as [b|]; cbn.
    + rewrite eqb_eq. split.
      * intros ->. right. eauto.
      * intros [H|(a' & H1 & H2)]; congruence.
    + split; [discriminate|]. intros [H|(a' & H1 & H2)]; congruence.
Qed.

Lemma keeps_spec (sf : Selection Segment) (rf : Selection Region) (d : PortfolioRecord) :
  (is_all sf || selected Segment_eqb (segment d) sf)
  && (is_all rf || selected Region_eqb (region d) rf) = true <-> keeps sf rf d.
Proof.
  unfold keeps. rewrite andb_true_iff.
  now rewrite (matches_spec _ Segment_eqb_eq), (matches_spec _ Region_eqb_eq).
Qed.

(** C6: [filteredData] keeps a record exactly when each filter is on
    ["all"] or names the record's segment (region), and it keeps the
    records in their input order. *)
Theorem filteredData_keeps_in_order (portfolioData : list PortfolioRecord)
    (selectedSegment : Selection Segment) (selectedRegion : Selection Region) :
  filtered_by (keeps selectedSegment selectedRegion) portfolioData
              (filteredData portfolioData selectedSegment selectedRegion) /\
  forall d : PortfolioRecord,
    In d (filteredData portfolioData selectedSegment selectedRegion) <->
    In d portfolioData /\ keeps selectedSegment selectedRegion d.
Proof.
  split.
  - unfold filteredData.
    induction portfolioData as [|d l IH]; cbn [filter]; [constructor|].
    destruct (_ && _) eqn:E.
    + apply filtered_keep; [now apply keeps_spec | exact IH].
    + apply filtered_drop; [|exact IH].
      intros H. apply keeps_spec in H. congruence.
  - intros d. unfold filteredData. rewrite filter_In. now rewrite keeps_spec.
Qed.

(** C3: on the three records of the scenario, with both filters on "all",
    the totals are 125000 and 6500, the average risk is the Number 1/3
    (0.3333 to four decimals) and the default rate is 100 times that
    (33.33 to two decimals); with the region filter on EMEA two records
    remain and their revenue totals 5800. *)
Theorem scenario_metrics (id1 id2 id3 : string) (limit1 limit2 limit3 : float)
    (util1 util2 util3 : float) :
  let records := scenario id1 id2 id3 limit1 limit2 limit3 util1 util2 util3 in
  let m := metrics (filteredData records all all) in
  let emea := filteredData records all (only EMEA) in
  totalBalance m = 125000 /\
  totalRevenue m = 6500 /\
  avgRisk m = 1 / 3 /\
  parseFloat (toFixed (avgRisk m) 4) = 0.3333 /\
  defaultRate m = 1 / 3 * 100 /\
  parseFloat (toFixed (defaultRate m) 2) = 33.33 /\
  List.length emea = 2%nat /\
  totalRevenue (metrics emea) = 5800.
Proof.
  cbv zeta. unfold scenario, filteredData, metrics, reduce_sum.
  cbn [filter is_all selected segment region Region_eqb orb andb fold_left List.length
       accountBalance annualRevenue riskScore defaultFlag
       totalBalance totalRevenue avgRisk defaultRate].
  repeat split; vm_compute; reflexivity.
Qed.

(** C2 fails on the code: on an empty filtered set both [avgRisk] and
    [defaultRate] are 0 / 0, that is NaN, not a sentinel. *)
Lemma metrics_empty_nan :
  PrimFloat.is_nan (avgRisk (metrics [])) = true /\
  PrimFloat.is_nan (defaultRate (metrics [])) = true.
Proof. split; vm_compute; reflexivity. Qed.

(** An empty filtered set is reachable: no record of the scenario is both
    Mass Market and EMEA. *)
Lemma scenario_filtered_empty (id1 id2 id3 : string) (limit1 limit2 limit3 : float)
    (util1 util2 util3 : float) :
  filteredData (scenario id1 id2 id3 limit1 limit2 limit3 util1 util2 util3)
               (only MassMarket) (only EMEA) = [].
Proof. reflexivity. Qed.

(** C10: on an empty filtered set the two running sums are exactly 0. *)
Theorem metrics_empty_totals :
  totalBalance (metrics []) = 0 /\ totalRevenue (metrics []) = 0.
Proof. split; reflexivity. Qed.

End AggregatorClaims.

(* ================================================================= *)
(** ** Grouping by region: the summaries are sorted *)

Section RegionClaims.

Import JS Rand.
Local Open Scope float_scope.

Lemma sub_sign (x y : float) :
  Nonneg x -> Nonneg y -> (0 <? y - x) = (x <? y).
Proof.
  unfold Nonneg. intros Hx Hy. rewrite !ltb_spec, sub_spec.
  change (Prim2SF 0) with (S754_zero false).
  apply SFacts.SFsub_sign; auto using Prim2SF_valid.
Qed.

Lemma by_revenue_order (x y : Reg.t) :
  revenue_Nonneg x -> revenue_Nonneg y ->
  if 0 <? by_revenue x y then desc y x else desc x y.
Proof.
  intros Hx Hy. unfold by_revenue, desc. rewrite sub_sign by assumption.
  pose proof (Nonneg_not_nan _ Hx). pose proof (Nonneg_not_nan _ Hy).
  rewrite ltb_val by assumption.
  destruct (Z.ltb_spec (val (Reg.revenue x)) (val (Reg.revenue y)));
    rewrite leb_val by assumption; apply Z.leb_le; lia.
Qed.

Lemma insert_Forall {A : Type} (P : A -> Prop) (cmp : A -> A -> float) (x : A) (l : list A) :
  P x -> Forall P l -> Forall P (insert cmp x l).
Proof.
  intros Hx Hl. induction Hl as [|y l Hy Hl IH]; cbn [insert].
  - auto.
  - destruct (0 <? cmp x y); auto.
Qed.

Lemma sort_Forall {A : Type} (P : A -> Prop) (cmp : A -> A -> float) (l : list A) :
  Forall P l -> Forall P (sort cmp l).
Proof.
  intros Hl. induction Hl as [|y l Hy Hl IH]; cbn [sort fold_right]; [constructor|].
  now apply insert_Forall.
Qed.

Lemma insert_HdRel (y x : Reg.t) (l : list Reg.t) :
  desc y x -> HdRel desc y l -> HdRel desc y (insert by_revenue x l).
Proof.
  intros Hyx Hl. destruct Hl as [|z l Hz]; cbn [insert]; [auto|].
  destruct (0 <? by_revenue x z); auto.
Qed.

Lemma insert_Sorted (x : Reg.t) (l : list Reg.t) :
  revenue_Nonneg x -> Forall revenue_Nonneg l ->
  Sorted desc l -> Sorted desc (insert by_revenue x l).
Proof.
  intros Hx Hl Hs. induction Hs as [|y l Hs IH Hhd]; cbn [insert]; [auto|].
  apply Forall_cons_iff in Hl as [Hy Hl].
  pose proof (by_revenue_order x y Hx Hy) as Ho.
  destruct (0 <? by_revenue x y).
  - constructor; [now apply IH | now apply insert_HdRel].
  - auto.
Qed.

Lemma sort_Sorted (l : list Reg.t) :
  Forall revenue_Nonneg l -> Sorted desc (sort by_revenue l).
Proof.
  intros Hl. induction Hl as [|y l Hy Hl IH]; cbn [sort fold_right]; [constructor|].
  apply insert_Sorted; [assumption | now apply sort_Forall | exact IH].
Qed.

Lemma Sorted_adjacent (l : list Reg.t) :
  Sorted desc l ->
  forall (i : nat) (a b : Reg.t),
    nth_error l i = Some a -> nth_error l (S i) = Some b -> desc a b.
Proof.
  intros Hs. induction Hs as [|y l Hs IH Hhd]; intros i a b Ha Hb.
  - destruct i; discriminate.
  - destruct i as [|i].
    + cbn in Ha, Hb. injection Ha as <-.
      destruct Hhd as [|z l Hz]; [discriminate|].
      cbn in Hb. now injection Hb as <-.
    + cbn in Ha. change (nth_error (y :: l) (S (S i))) with (nth_error l (S i)) in Hb.
      eauto.
Qed.

(** The accumulators stay non-negative. *)
Lemma update_Forall {K V : Type} (eqb : K -> K -> bool) (P : V -> Prop)
    (agg : Obj.t) (k : K) (f : V -> V) :
  (forall v, P v -> P (f v)) ->
  Forall P (Obj.values agg) -> Forall P (Obj.values (Obj.update eqb agg k f)).
Proof.
  intros Hf. unfold Obj.values.
  induction agg as [|[k' v] agg IH]; cbn [Obj.update map]; [auto|].
  intros H. apply Forall_cons_iff in H as [Hv H]. cbn [snd] in Hv.
  destruct (eqb k k'); cbn [map snd]; auto.
Qed.

Lemma add_Forall {K V : Type} (P : V -> Prop) (agg : @Obj.t K V) (k : K) (v : V) :
  P v -> Forall P (Obj.values agg) -> Forall P (Obj.values (Obj.add agg k v)).
Proof.
  intros Hv H. unfold Obj.values, Obj.add. rewrite map_app.
  apply Forall_app. split; [exact H | cbn; auto].
Qed.

Lemma region_step_Nonneg (agg : Obj.t) (d : PortfolioRecord) :
  Nonneg (annualRevenue d) ->
  Forall revenue_Nonneg (Obj.values agg) ->
  Forall revenue_Nonneg (Obj.values (region_step agg d)).
Proof.
  intros Hd H. unfold region_step. apply update_Forall.
  - intros v Hv. unfold revenue_Nonneg in *. cbn [Reg.revenue]. now apply add_Nonneg.
  - destruct (Obj.get region_key agg (region d)); [exact H|].
    apply add_Forall; [|exact H]. exact I.
Qed.

Lemma region_fold_Nonneg (l : list PortfolioRecord) : forall agg : Obj.t,
  Forall (fun d => Nonneg (annualRevenue d)) l ->
  Forall revenue_Nonneg (Obj.values agg) ->
  Forall revenue_Nonneg (Obj.values (fold_left region_step l agg)).
Proof.
  induction l as [|d l IH]; intros agg Hl H; cbn [fold_left]; [exact H|].
  apply Forall_cons_iff in Hl as [Hd Hl].
  apply IH; [exact Hl | now apply region_step_Nonneg].
Qed.

Lemma regionData_Sorted (filteredData : list PortfolioRecord) :
  Forall (fun d => Nonneg (annualRevenue d)) filteredData ->
  Sorted desc (regionData filteredData).
Proof.
  intros H. unfold regionData. apply sort_Sorted.
  apply region_fold_Nonneg; [exact H | constructor].
Qed.

(** C8: when no revenue of the filtered set is negative (or NaN), the
    summaries returned by [regionData] are in descending order of
    revenue: of two adjacent summaries the first has the larger or equal
    revenue. *)
Theorem regionData_descending (filteredData : list PortfolioRecord) :
  Forall (fun d => (0 <=? annualRevenue d) = true) filteredData ->
  forall (i : nat) (a b : Reg.t),
    nth_error (regionData filteredData) i = Some a ->
    nth_error (regionData filteredData) (S i) = Some b ->
    (Reg.revenue b <=? Reg.revenue a) = true.
Proof.
  intros H. apply Sorted_adjacent, regionData_Sorted.
  eapply Forall_impl; [|exact H]. intros d. apply Nonneg_leb.
Qed.

Lemma regionData_descending_witness :
  (Reg.revenue {| Reg.name := Some NorthAmerica; Reg.revenue := 700 |} <=?
   Reg.revenue {| Reg.name := Some EMEA; Reg.revenue := 5800 |}) = true.
Proof.
  refine (regionData_descending sample _ 0
            {| Reg.name := Some EMEA; Reg.revenue := 5800 |}
            {| Reg.name := Some NorthAmerica; Reg.revenue := 700 |} _ _).
  - repeat constructor.
  - vm_compute. reflexivity.
  - vm_compute. reflexivity.
Defined.

(** On generated data the hypothesis of C8 holds, whatever the filters. *)
Lemma generated_regionData_descending (g : source)
    (selectedSegment : Selection Segment) (selectedRegion : Selection Region) :
  unit_draws g ->
  let filtered := filteredData (run generatePortfolioData g) selectedSegment selectedRegion in
  forall (i : nat) (a b : Reg.t),
    nth_error (regionData filtered) i = Some a ->
    nth_error (regionData filtered) (S i) = Some b ->
    (Reg.revenue b <=? Reg.revenue a) = true.
Proof.
  intros Hg filtered. apply Sorted_adjacent, regionData_Sorted.
  apply Forall_forall. intros d Hd. subst filtered. unfold filteredData in Hd.
  apply filter_In in Hd as [Hd _]. apply generated_record in Hd as (i & _ & ->).
  apply Nonneg_leb. now apply nth_record_in_range.
Qed.

End RegionClaims.

(* ================================================================= *)
(** ** Grouping by segment: the balances add up *)

Section SegmentClaims.

Import JS Rand.
Local Open Scope float_scope.

Lemma Z2F_add (a b : Z) :
  (0 <= a)%Z -> (0 <= b)%Z -> (a + b < 2 ^ 53)%Z -> Z2F a + Z2F b = Z2F (a + b).
Proof.
  intros Ha Hb Hab. apply Prim2SF_inj.
  assert (2 ^ 53 < 2 ^ 63)%Z by reflexivity.
  rewrite add_spec, !Prim2SF_Z2F by lia.
  now apply SFacts.normalize_add.
Qed.

Lemma total_nonneg (zs : list Z) : Forall (fun z => 0 <= z)%Z zs -> (0 <= total zs)%Z.
Proof. induction 1; cbn [total] in *; lia. Qed.

Lemma total_app (xs ys : list Z) : total (xs ++ ys) = (total xs + total ys)%Z.
Proof. induction xs as [|x xs IH]; cbn [total app] in *; lia. Qed.

(** A running sum over amounts that are non-negative integers is their
    integer sum, as long as it stays below 2^53. *)
Lemma fold_sum_exact {A : Type} (f : A -> float) (l : list A) :
  forall (zs : list Z) (a : Z),
    map f l = map Z2F zs -> Forall (fun z => 0 <= z)%Z zs ->
    (0 <= a)%Z -> (a + total zs < 2 ^ 53)%Z ->
    fold_left (fun acc curr => acc + f curr) l (Z2F a) = Z2F (a + total zs).
Proof.
  induction l as [|x l IH]; intros [|z zs] a Hmap Hzs Ha Hlt; try discriminate.
  - cbn. now rewrite Z.add_0_r.
  - cbn [map] in Hmap. injection Hmap as Hx Hmap.
    apply Forall_cons_iff in Hzs as [Hz Hzs].
    pose proof (total_nonneg zs Hzs). cbn [total] in Hlt.
    cbn [fold_left]. rewrite Hx, Z2F_add by lia.
    rewrite IH with (zs := zs) by (assumption || lia).
    cbn [total]. f_equal. lia.
Qed.

Lemma reduce_sum_exact {A : Type} (f : A -> float) (l : list A) (zs : list Z) :
  map f l = map Z2F zs -> Forall (fun z => 0 <= z)%Z zs -> (total zs < 2 ^ 53)%Z ->
  reduce_sum f l = Z2F (total zs).
Proof.
  intros Hmap Hzs Hlt. unfold reduce_sum. change 0 with (Z2F 0).
  now rewrite fold_sum_exact with (zs := zs).
Qed.

(** Successive updates of one property are one update. *)
Lemma update_update {K V : Type} (eqb : K -> K -> bool) (agg : Obj.t) (k : K) (f g : V -> V) :
  Obj.update eqb (Obj.update eqb agg k f) k g = Obj.update eqb agg k (fun v => g (f v)).
Proof.
  induction agg as [|[k' v] agg IH]; cbn [Obj.update]; [reflexivity|].
  destruct (eqb k k') eqn:E; cbn [Obj.update]; rewrite E; [reflexivity|].
  now rewrite IH.
Qed.

Lemma get_app {K V : Type} (eqb : K -> K -> bool) (agg agg' : @Obj.t K V) (k : K) :
  Obj.get eqb (agg ++ agg') k =
  match Obj.get eqb agg k with
  | Some v => Some v
  | None => Obj.get eqb agg' k
  end.
Proof.
  induction agg as [|[k' v] agg IH]; cbn [Obj.get app]; [reflexivity|].
  destruct (eqb k k'); [reflexivity | exact IH].
Qed.

Lemma segment_key_refl (k : option Segment) : segment_key k k = true.
Proof. destruct k as [[]|]; reflexivity. Qed.

Lemma update_balances (F : Seg.t -> Seg.t) (n : Z) (k : option Segment) (agg : Obj.t) :
  (forall v, Seg.balance (F v) = Seg.balance v + Z2F n) -> (0 <= n)%Z ->
  forall zs : list Z,
    balances agg zs -> (total zs + n < 2 ^ 53)%Z ->
    Obj.get segment_key agg k <> None ->
    exists zs' : list Z,
      balances (Obj.update segment_key agg k F) zs' /\ total zs' = (total zs + n)%Z.
Proof.
  intros HF Hn. unfold balances, Obj.values.
  induction agg as [|[k' v] agg IH]; intros zs [Hmap Hzs] Hlt Hget.
  - now contradiction Hget.
  - destruct zs as [|z zs]; [discriminate|]. cbn [map snd] in Hmap.
    injection Hmap as Hv Hmap. apply Forall_cons_iff in Hzs as [Hz Hzs].
    pose proof (total_nonneg zs Hzs). cbn [total] in Hlt.
    cbn [Obj.update Obj.get] in *. destruct (segment_key k k') eqn:E.
    + exists ((z + n)%Z :: zs). cbn [map snd total].
      split; [|lia]. split.
      * rewrite HF, Hv, Z2F_add by lia. now rewrite Hmap.
      * constructor; [lia | exact Hzs].
    + destruct (IH zs) as (zs' & [Hmap' Hzs'] & Ht); [now split | lia | exact Hget |].
      exists (z :: zs'). cbn [map snd total].
      split; [|lia]. split.
      * now rewrite Hv, Hmap'.
      * now constructor.
Qed.

Lemma segment_step_balances (agg : Obj.t) (d : PortfolioRecord) (n : Z) (zs : list Z) :
  accountBalance d = Z2F n -> (0 <= n)%Z ->
  balances agg zs -> (total zs + n < 2 ^ 53)%Z ->
  exists zs' : list Z,
    balances (segment_step agg d) zs' /\ total zs' = (total zs + n)%Z.
Proof.
  intros Hd Hn Hb Hlt. unfold segment_step. rewrite !update_update.
  set (F := fun v : Seg.t => _).
  assert (HF : forall v, Seg.balance (F v) = Seg.balance v + Z2F n).
  { intros v. subst F. cbn [Seg.balance]. now rewrite Hd. }
  destruct (Obj.get segment_key agg (segment d)) eqn:G.
  - apply update_balances with (n := n); auto. congruence.
  - destruct Hb as [Hmap Hzs].
    destruct (update_balances F n (segment d)
                (Obj.add agg (segment d) {| Seg.name := segment d; Seg.value := 0;
                   Seg.balance := 0; Seg.count := 0; Seg.revenue := 0 |}) HF Hn (zs ++ [0%Z]))
      as (zs' & Hb' & Ht).
    + unfold balances, Obj.add, Obj.values in *. rewrite !map_app, Hmap. split; [reflexivity|].
      apply Forall_app. split; [exact Hzs|]. constructor; [lia | constructor].
    + rewrite total_app. cbn. lia.
    + unfold Obj.add. rewrite get_app, G. cbn [Obj.get].
      now rewrite segment_key_refl.
    + exists zs'. split; [exact Hb'|]. rewrite Ht, total_app. cbn. lia.
Qed.

Lemma segment_fold_balances (l : list PortfolioRecord) :
  forall (agg : Obj.t) (zs ns : list Z),
    map accountBalance l = map Z2F ns -> Forall (fun n => 0 <= n)%Z ns ->
    balances agg zs -> (total zs + total ns < 2 ^ 53)%Z ->
    exists zs' : list Z,
      balances (fold_left segment_step l agg) zs' /\ total zs' = (total zs + total ns)%Z.
Proof.
  induction l as [|d l IH]; intros agg zs [|n ns] Hmap Hns Hb Hlt; try discriminate.
  - exists zs. cbn. split; [exact Hb | lia].
  - cbn [map] in Hmap. injection Hmap as Hd Hmap.
    apply Forall_cons_iff in Hns as [Hn Hns].
    pose proof (total_nonneg ns Hns). cbn [total] in Hlt.
    destruct (segment_step_balances agg d n zs Hd Hn Hb) as (zs1 & Hb1 & Ht1); [lia|].
    destruct (IH (segment_step agg d) zs1 ns Hmap Hns Hb1) as (zs' & Hb' & Ht'); [lia|].
    exists zs'. cbn [fold_left total]. split; [exact Hb' | lia].
Qed.

Lemma segmentData_balances (filteredData : list PortfolioRecord) (amounts : list Z) :
  map accountBalance filteredData = map Z2F amounts ->
  Forall (fun n => 0 <= n)%Z amounts -> (total amounts < 2 ^ 53)%Z ->
  reduce_sum Seg.balance (segmentData filteredData) = Z2F (total amounts) /\
  reduce_sum accountBalance filteredData = Z2F (total amounts).
Proof.
  intros Hmap Hns Hlt. split; [|now apply reduce_sum_exact].
  destruct (segment_fold_balances filteredData [] [] amounts Hmap Hns) as (zs & [Hz1 Hz2] & Ht).
  - split; [reflexivity | constructor].
  - cbn. lia.
  - cbn [total] in Ht. rewrite Z.add_0_l in Ht. rewrite <- Ht.
    apply reduce_sum_exact; [exact Hz1 | exact Hz2 | lia].
Qed.

(** C7: when the balances of the filtered set are non-negative integers
    whose total is below 2^53, the balances of the groups returned by
    [segmentData] add up to the sum of [accountBalance] over the set. *)
Theorem segment_balances_add_up (filteredData : list PortfolioRecord) (amounts : list Z) :
  map accountBalance filteredData = map Z2F amounts ->
  Forall (fun n => 0 <= n)%Z amounts -> (total amounts < 2 ^ 53)%Z ->
  reduce_sum Seg.balance (segmentData filteredData) =
  reduce_sum accountBalance filteredData.
Proof.
  intros Hmap Hns Hlt.
  destruct (segmentData_balances filteredData amounts Hmap Hns Hlt) as [-> ->].
  reflexivity.
Qed.

Lemma segment_balances_add_up_witness :
  reduce_sum Seg.balance (segmentData sample) = reduce_sum accountBalance sample.
Proof.
  refine (segment_balances_add_up sample [5000; 20000; 100000]%Z _ _ _).
  - vm_compute. reflexivity.
  - repeat constructor; discriminate.
  - reflexivity.
Defined.

Lemma whole_amounts (l : list PortfolioRecord) :
  Forall (fun d => exists n : Z, (0 <= n <= 200000)%Z /\ accountBalance d = Z2F n) l ->
  exists ns : list Z,
    map accountBalance l = map Z2F ns /\ Forall (fun n => 0 <= n <= 200000)%Z ns.
Proof.
  induction 1 as [|d l (n & Hn & Hd) _ (ns & Hmap & Hns)].
  - exists []. split; [reflexivity | constructor].
  - exists (n :: ns). cbn [map]. split; [now rewrite Hd, Hmap | now constructor].
Qed.

Lemma total_bound (ns : list Z) :
  Forall (fun n => 0 <= n <= 200000)%Z ns ->
  (total ns <= 200000 * Z.of_nat (List.length ns))%Z.
Proof.
  induction 1 as [|n ns Hn _ IH]; cbn [total List.length]; [lia|].
  rewrite Nat2Z.inj_succ. lia.
Qed.

(** On generated data the hypotheses of C7 hold, whatever the filters: at
    most 200 whole balances of at most 200000 each. *)
Lemma generated_segment_balances_add_up (g : source)
    (selectedSegment : Selection Segment) (selectedRegion : Selection Region) :
  unit_draws g ->
  let filtered := filteredData (run generatePortfolioData g) selectedSegment selectedRegion in
  reduce_sum Seg.balance (segmentData filtered) = reduce_sum accountBalance filtered.
Proof.
  intros Hg filtered.
  assert (Hlen : (List.length filtered <= 200)%nat).
  { subst filtered. unfold filteredData.
    eapply Nat.le_trans; [apply filter_length_le|].
    rewrite generatePortfolioData_run, length_map, length_seq. lia. }
  destruct (whole_amounts filtered) as (ns & Hmap & Hns).
  { apply Forall_forall. intros d Hd. subst filtered. unfold filteredData in Hd.
    apply filter_In in Hd as [Hd _]. apply generated_record in Hd as (i & _ & ->).
    now apply generated_balance_whole. }
  pose proof (total_bound ns Hns) as Ht.
  assert (Hl : List.length ns = List.length filtered).
  { rewrite <- (length_map Z2F ns), <- Hmap. apply length_map. }
  destruct (segmentData_balances filtered ns Hmap) as [-> ->]; [| |reflexivity].
  - eapply Forall_impl; [|exact Hns]. cbn. intros; lia.
  - assert (200000 * 200 < 2 ^ 53)%Z by reflexivity. lia.
Qed.

End SegmentClaims.

(* ================================================================= *)
(** ** Grouping: the accumulators in closed form *)

Section KeyFacts.

Context {K D : Type} (eqb : K -> K -> bool) (key : D -> K).
Hypothesis eqb_eq : forall a b : K, eqb a b = true <-> a = b.

Lemma existsb_eqb (k : K) (ks : list K) : existsb (eqb k) ks = true <-> In k ks.
Proof.
  rewrite existsb_exists. split.
  - intros (k' & Hin & E). apply eqb_eq in E. now subst.
  - intros Hin. exists k. split; [exact Hin | now apply eqb_eq].
Qed.

Lemma existsb_eqb_false (k : K) (ks : list K) : existsb (eqb k) ks = false <-> ~ In k ks.
Proof. rewrite <- existsb_eqb. now destruct (existsb (eqb k) ks). Qed.

Lemma first_keys_snoc (l : list D) (d : D) :
  first_keys eqb key (l ++ [d]) =
  if existsb (eqb (key d)) (first_keys eqb key l) then first_keys eqb key l
  else first_keys eqb key l ++ [key d].
Proof. unfold first_keys. now rewrite fold_left_app. Qed.

Lemma first_keys_In (l : list D) (k : K) :
  In k (first_keys eqb key l) <-> In k (map key l).
Proof.
  induction l as [|d l IH] using rev_ind; [reflexivity|].
  rewrite first_keys_snoc, map_app, in_app_iff. cbn [map In].
  destruct (existsb (eqb (key d)) (first_keys eqb key l)) eqn:E.
  - apply existsb_eqb in E. split; [intros H; left; now apply IH|].
    intros [H|[<-|[]]]; [now apply IH | exact E].
  - rewrite in_app_iff, IH. cbn [In]. tauto.
Qed.

Lemma first_keys_NoDup (l : list D) : NoDup (first_keys eqb key l).
Proof.
  induction l as [|d l IH] using rev_ind; [constructor|].
  rewrite first_keys_snoc.
  destruct (existsb (eqb (key d)) (first_keys eqb key l)) eqn:E; [exact IH|].
  apply existsb_eqb_false in E.
  apply NoDup_app; [exact IH | repeat constructor; intros [] |].
  intros k Hk [<-|[]]. now apply E.
Qed.

Lemma members_snoc (k : K) (l : list D) (d : D) :
  members eqb key k (l ++ [d]) =
  members eqb key k l ++ (if eqb (key d) k then [d] else []).
Proof. unfold members. rewrite filter_app. cbn [filter]. now destruct (eqb (key d) k). Qed.

Lemma members_nil (k : K) (l : list D) :
  ~ In k (map key l) -> members eqb key k l = [].
Proof.
  intros H. unfold members. induction l as [|d l IH]; [reflexivity|].
  cbn [filter map In] in *. destruct (eqb (key d) k) eqn:E.
  - apply eqb_eq in E. tauto.
  - apply IH. tauto.
Qed.

End KeyFacts.

Section GroupFacts.

Context {K V D : Type} (eqb : K -> K -> bool) (key : D -> K)
        (init : K -> V) (upd : D -> V -> V).
Hypothesis eqb_eq : forall a b : K, eqb a b = true <-> a = b.

Lemma group_snoc (k : K) (l : list D) (d : D) :
  group eqb key init upd k (l ++ [d]) =
  if eqb (key d) k then upd d (group eqb key init upd k l)
  else group eqb key init upd k l.
Proof.
  unfold group. rewrite members_snoc, fold_left_app.
  now destruct (eqb (key d) k).
Qed.

Lemma get_keys (f : K -> V) (ks : list K) (k : K) :
  Obj.get eqb (map (fun k' => (k', f k')) ks) k =
  if existsb (eqb k) ks then Some (f k) else None.
Proof.
  induction ks as [|k' ks IH]; cbn [map Obj.get existsb]; [reflexivity|].
  destruct (eqb k k') eqn:E; cbn [orb]; [|exact IH].
  apply eqb_eq in E. now subst.
Qed.

Lemma update_keys (f : K -> V) (u : V -> V) (k : K) (ks : list K) :
  NoDup ks ->
  Obj.update eqb (map (fun k' => (k', f k')) ks) k u =
  map (fun k' => (k', if eqb k k' then u (f k') else f k')) ks.
Proof.
  induction 1 as [|k' ks Hnin Hnd IH]; cbn [map Obj.update]; [reflexivity|].
  destruct (eqb k k') eqn:E.
  - apply eqb_eq in E. subst k'. f_equal. apply map_ext_in.
    intros k' Hin. destruct (eqb k k') eqn:E'; [|reflexivity].
    apply eqb_eq in E'. now subst.
  - now rewrite IH.
Qed.

Lemma update_absent (agg rest : @Obj.t K V) (u : V -> V) (k : K) :
  Obj.get eqb agg k = None ->
  Obj.update eqb (agg ++ rest) k u = agg ++ Obj.update eqb rest k u.
Proof.
  induction agg as [|[k' v] agg IH]; cbn [app Obj.get Obj.update]; [reflexivity|].
  destruct (eqb k k'); [discriminate|]. intros H. now rewrite IH.
Qed.

(** After a pass over [l] the object holds, for each key of [l] in the
    order of first occurrence, the accumulator of that key. *)
Lemma fold_group_step (l : list D) :
  fold_left (group_step eqb key init upd) l [] =
  map (fun k => (k, group eqb key init upd k l)) (first_keys eqb key l).
Proof.
  induction l as [|d l IH] using rev_ind; [reflexivity|].
  rewrite fold_left_app. cbn [fold_left]. rewrite IH. unfold group_step.
  rewrite get_keys, first_keys_snoc.
  pose proof (first_keys_NoDup eqb key eqb_eq l) as Hnd.
  destruct (existsb (eqb (key d)) (first_keys eqb key l)) eqn:E.
  - rewrite update_keys by exact Hnd. apply map_ext. intros k.
    now rewrite group_snoc.
  - unfold Obj.add. rewrite update_absent by (now rewrite get_keys, E).
    rewrite map_app. cbn [map Obj.update].
    assert (R : eqb (key d) (key d) = true) by now apply eqb_eq.
    rewrite R. apply (existsb_eqb_false eqb eqb_eq) in E. f_equal.
    + apply map_ext_in. intros k Hk. rewrite group_snoc.
      destruct (eqb (key d) k) eqn:E'; [|reflexivity].
      apply eqb_eq in E'. now subst.
    + rewrite group_snoc, R. unfold group.
      rewrite (members_nil eqb key eqb_eq); [reflexivity|].
      now rewrite <- (first_keys_In eqb key eqb_eq).
Qed.

Lemma fold_group_values (l : list D) :
  Obj.values (fold_left (group_step eqb key init upd) l []) =
  map (fun k => group eqb key init upd k l) (first_keys eqb key l).
Proof. unfold Obj.values. rewrite fold_group_step, map_map. reflexivity. Qed.

End GroupFacts.

(* ================================================================= *)
(** ** The two groupings in closed form *)

Section GroupingFacts.

Import JS.
Local Open Scope float_scope.

Lemma name_eqb_eq {A : Type} (eqb : A -> A -> bool) :
  (forall a b : A, eqb a b = true <-> a = b) ->
  forall x y : option A, name_eqb eqb x y = true <-> x = y.
Proof.
  intros H [a|] [b|]; cbn [name_eqb]; try (split; congruence).
  rewrite H. split; congruence.
Qed.

Lemma segment_key_eq (x y : option Segment) : segment_key x y = true <-> x = y.
Proof. apply name_eqb_eq. intros [] []; cbn; split; congruence. Qed.

Lemma region_key_eq (x y : option Region) : region_key x y = true <-> x = y.
Proof. apply name_eqb_eq. intros [] []; cbn; split; congruence. Qed.

Lemma fold_left_pointwise {A B : Type} (f g : A -> B -> A) (l : list B) :
  (forall a b, f a b = g a b) -> forall a : A, fold_left f l a = fold_left g l a.
Proof.
  intros H. induction l as [|b l IH]; intros a; cbn [fold_left]; [reflexivity|].
  now rewrite H, IH.
Qed.

Lemma segment_step_group (agg : Obj.t) (d : PortfolioRecord) :
  segment_step agg d = group_step segment_key segment segment_init segment_update agg d.
Proof. unfold segment_step, group_step. rewrite !update_update. reflexivity. Qed.

Lemma region_step_group (agg : Obj.t) (d : PortfolioRecord) :
  region_step agg d = group_step region_key region region_init region_update agg d.
Proof. reflexivity. Qed.

Lemma segmentData_groups (l : list PortfolioRecord) :
  segmentData l =
  map (fun k => group segment_key segment segment_init segment_update k l)
      (first_keys segment_key segment l).
Proof.
  unfold segmentData.
  rewrite (fold_left_pointwise _ _ l segment_step_group).
  apply fold_group_values, segment_key_eq.
Qed.

Lemma region_groups (l : list PortfolioRecord) :
  Obj.values (fold_left region_step l []) =
  map (fun k => group region_key region region_init region_update k l)
      (first_keys region_key region l).
Proof.
  rewrite (fold_left_pointwise _ _ l region_step_group).
  apply fold_group_values, region_key_eq.
Qed.

(** The fields of an accumulator are the running sums of [metrics] over
    the members of its group. *)
Lemma segment_fold_fields (sub : list PortfolioRecord) : forall s : Seg.t,
  let s' := fold_left (fun v d => segment_update d v) sub s in
  Seg.name s' = Seg.name s /\
  Seg.value s' = fold_left (fun acc d => acc + annualRevenue d) sub (Seg.value s) /\
  Seg.balance s' = fold_left (fun acc d => acc + accountBalance d) sub (Seg.balance s) /\
  Seg.count s' = fold_left (fun acc (_ : PortfolioRecord) => acc + 1) sub (Seg.count s) /\
  Seg.revenue s' = fold_left (fun acc d => acc + annualRevenue d) sub (Seg.revenue s).
Proof.
  induction sub as [|d sub IH]; intros s; cbn [fold_left]; [repeat split|].
  exact (IH (segment_update d s)).
Qed.

Lemma region_fold_fields (sub : list PortfolioRecord) : forall s : Reg.t,
  let s' := fold_left (fun v d => region_update d v) sub s in
  Reg.name s' = Reg.name s /\
  Reg.revenue s' = fold_left (fun acc d => acc + annualRevenue d) sub (Reg.revenue s).
Proof.
  induction sub as [|d sub IH]; intros s; cbn [fold_left]; [repeat split|].
  exact (IH (region_update d s)).
Qed.

Lemma segment_members (sg : Segment) (l : list PortfolioRecord) :
  members segment_key segment (Some sg) l = filteredData l (only sg) all.
Proof.
  unfold members, filteredData. apply filter_ext. intros d.
  cbn [is_all selected orb]. rewrite andb_true_r.
  now destruct (segment d).
Qed.

Lemma region_members (rg : Region) (l : list PortfolioRecord) :
  members region_key region (Some rg) l = filteredData l all (only rg).
Proof.
  unfold members, filteredData. apply filter_ext. intros d.
  cbn [is_all selected orb andb].
  now destruct (region d).
Qed.

Lemma insert_Permutation {A : Type} (cmp : A -> A -> float) (x : A) (l : list A) :
  Permutation (insert cmp x l) (x :: l).
Proof.
  induction l as [|y l IH]; cbn [insert]; [reflexivity|].
  destruct (0 <? cmp x y); [|reflexivity].
  rewrite IH. apply perm_swap.
Qed.

Lemma sort_Permutation {A : Type} (cmp : A -> A -> float) (l : list A) :
  Permutation (sort cmp l) l.
Proof.
  unfold sort. induction l as [|x l IH]; cbn [fold_right]; [reflexivity|].
  rewrite insert_Permutation. now constructor.
Qed.

Lemma regionData_Permutation (l : list PortfolioRecord) :
  Permutation (regionData l)
    (map (fun k => group region_key region region_init region_update k l)
         (first_keys region_key region l)).
Proof. unfold regionData. rewrite sort_Permutation, region_groups. reflexivity. Qed.

Lemma segment_group_name (k : option Segment) (l : list PortfolioRecord) :
  Seg.name (group segment_key segment segment_init segment_update k l) = k.
Proof. unfold group. now rewrite (proj1 (segment_fold_fields _ _)). Qed.

Lemma region_group_name (k : option Region) (l : list PortfolioRecord) :
  Reg.name (group region_key region region_init region_update k l) = k.
Proof. unfold group. now rewrite (proj1 (region_fold_fields _ _)). Qed.

Lemma segmentData_names_keys (l : list PortfolioRecord) :
  map Seg.name (segmentData l) = first_keys segment_key segment l.
Proof.
  rewrite segmentData_groups, map_map. rewrite <- (map_id (first_keys _ _ _)) at 2.
  apply map_ext. intros k. apply segment_group_name.
Qed.

Lemma regionData_names_keys (l : list PortfolioRecord) :
  Permutation (map Reg.name (regionData l)) (first_keys region_key region l).
Proof.
  rewrite regionData_Permutation, map_map. rewrite <- (map_id (first_keys _ _ _)) at 2.
  erewrite map_ext; [reflexivity|]. intros k. apply region_group_name.
Qed.

Lemma segmentData_one_per_segment_aux (l : list PortfolioRecord) :
  forall k : option Segment,
    In k (map Seg.name (segmentData l)) <-> In k (map segment l).
Proof.
  intros k. rewrite segmentData_names_keys.
  apply (first_keys_In segment_key segment segment_key_eq).
Qed.

Lemma regionData_one_per_region_aux (l : list PortfolioRecord) :
  forall k : option Region,
    In k (map Reg.name (regionData l)) <-> In k (map region l).
Proof.
  intros k. rewrite <- (first_keys_In region_key region region_key_eq).
  pose proof (regionData_names_keys l) as P.
  split; apply Permutation_in; [exact P | symmetry; exact P].
Qed.

End GroupingFacts.

(* ================================================================= *)
(** ** Properties of the groupings *)

Section GroupingProperties.

Import JS.
Local Open Scope float_scope.

(** X1: [segmentData] holds exactly one summary for each segment that occurs
    in the filtered set. *)
Theorem segmentData_one_per_segment (filteredData : list PortfolioRecord) :
  NoDup (map Seg.name (segmentData filteredData)) /\
  forall k : option Segment,
    In k (map Seg.name (segmentData filteredData)) <-> In k (map segment filteredData).
Proof.
  rewrite segmentData_names_keys. split.
  - apply first_keys_NoDup, segment_key_eq.
  - intros k. apply (first_keys_In segment_key segment segment_key_eq).
Qed.

(** X2: [regionData] holds exactly one summary for each region that occurs in
    the filtered set. *)
Theorem regionData_one_per_region (filteredData : list PortfolioRecord) :
  NoDup (map Reg.name (regionData filteredData)) /\
  forall k : option Region,
    In k (map Reg.name (regionData filteredData)) <-> In k (map region filteredData).
Proof.
  pose proof (regionData_names_keys filteredData) as P. split.
  - eapply Permutation_NoDup; [symmetry; exact P|].
    apply first_keys_NoDup, region_key_eq.
  - intros k. rewrite <- (first_keys_In region_key region region_key_eq).
    split; apply Permutation_in; [exact P | symmetry; exact P].
Qed.

Lemma segment_group_totals (l : list PortfolioRecord) (sg : Segment) :
  let s := group segment_key segment segment_init segment_update (Some sg) l in
  let m := metrics (filteredData l (only sg) all) in
  Seg.balance s = totalBalance m /\
  Seg.revenue s = totalRevenue m /\
  Seg.value s = totalRevenue m.
Proof.
  unfold group. rewrite segment_members.
  destruct (segment_fold_fields (filteredData l (only sg) all)
              (segment_init (Some sg))) as (_ & Hv & Hb & _ & Hr).
  cbn zeta. now rewrite Hv, Hb, Hr.
Qed.

Lemma segment_summary_group (l : list PortfolioRecord) (s : Seg.t) (sg : Segment) :
  In s (segmentData l) -> Seg.name s = Some sg ->
  s = group segment_key segment segment_init segment_update (Some sg) l.
Proof.
  intros Hin Hname. rewrite segmentData_groups in Hin.
  apply in_map_iff in Hin as (k & <- & _).
  rewrite segment_group_name in Hname. now subst k.
Qed.

(** X3: the summary of a segment carries the totals that [metrics] computes
    when the segment filter selects that segment. *)
Theorem segment_summary_totals (filtered : list PortfolioRecord)
    (s : Seg.t) (sg : Segment) :
  In s (segmentData filtered) -> Seg.name s = Some sg ->
  let m := metrics (filteredData filtered (only sg) all) in
  Seg.balance s = totalBalance m /\
  Seg.revenue s = totalRevenue m /\
  Seg.value s = totalRevenue m.
Proof.
  intros Hin Hname.
  rewrite (segment_summary_group filtered s sg Hin Hname).
  apply segment_group_totals.
Qed.

Lemma segment_summary_totals_witness :
  In {| Seg.name := Some Affluent; Seg.value := 1300; Seg.balance := 20000;
        Seg.count := 1; Seg.revenue := 1300 |} (segmentData sample) /\
  20000 = totalBalance (metrics (filteredData sample (only Affluent) all)).
Proof.
  assert (H : In {| Seg.name := Some Affluent; Seg.value := 1300; Seg.balance := 20000;
                    Seg.count := 1; Seg.revenue := 1300 |} (segmentData sample)).
  { vm_compute. right. left. reflexivity. }
  split; [exact H|].
  exact (proj1 (segment_summary_totals sample _ Affluent H eq_refl)).
Defined.

Lemma region_group_revenue (l : list PortfolioRecord) (rg : Region) :
  Reg.revenue (group region_key region region_init region_update (Some rg) l) =
  totalRevenue (metrics (filteredData l all (only rg))).
Proof.
  unfold group. rewrite region_members.
  destruct (region_fold_fields (filteredData l all (only rg))
              (region_init (Some rg))) as (_ & Hr).
  cbn zeta. now rewrite Hr.
Qed.

Lemma region_summary_group (l : list PortfolioRecord) (r : Reg.t) (rg : Region) :
  In r (regionData l) -> Reg.name r = Some rg ->
  r = group region_key region region_init region_update (Some rg) l.
Proof.
  intros Hin Hname.
  apply (Permutation_in _ (regionData_Permutation l)) in Hin.
  apply in_map_iff in Hin as (k & <- & _).
  rewrite region_group_name in Hname. now subst k.
Qed.

(** X4: the summary of a region carries the revenue that [metrics] computes
    when the region filter selects that region. *)
Theorem region_summary_revenue (filtered : list PortfolioRecord)
    (r : Reg.t) (rg : Region) :
  In r (regionData filtered) -> Reg.name r = Some rg ->
  Reg.revenue r = totalRevenue (metrics (filteredData filtered all (only rg))).
Proof.
  intros Hin Hname.
  rewrite (region_summary_group filtered r rg Hin Hname).
  apply region_group_revenue.
Qed.

Lemma region_summary_revenue_witness :
  In {| Reg.name := Some EMEA; Reg.revenue := 5800 |} (regionData sample) /\
  5800 = totalRevenue (metrics (filteredData sample all (only EMEA))).
Proof.
  assert (H : In {| Reg.name := Some EMEA; Reg.revenue := 5800 |} (regionData sample)).
  { vm_compute. left. reflexivity. }
  split; [exact H|].
  exact (region_summary_revenue sample _ EMEA H eq_refl).
Defined.

(** X5: in every segment summary [value] and [revenue] are the same number. *)
Theorem segment_value_is_revenue (filteredData : list PortfolioRecord) :
  Forall (fun s => Seg.value s = Seg.revenue s) (segmentData filteredData).
Proof.
  rewrite segmentData_groups. apply Forall_forall. intros s Hin.
  apply in_map_iff in Hin as (k & <- & _). unfold group.
  destruct (segment_fold_fields (members segment_key segment k filteredData)
              (segment_init k)) as (_ & Hv & _ & _ & Hr).
  cbn zeta in *. now rewrite Hv, Hr.
Qed.

End GroupingProperties.

(* ================================================================= *)
(** ** Exact sums over the groups *)

Section GroupSums.

Import JS.
Local Open Scope float_scope.

Context {K V D : Type} (eqb : K -> K -> bool) (key : D -> K)
        (init : K -> V) (upd : D -> V -> V) (fld : V -> float) (amt : D -> float).
Hypothesis eqb_refl : forall k : K, eqb k k = true.
Hypothesis fld_init : forall k : K, fld (init k) = 0.
Hypothesis fld_upd : forall (d : D) (v : V), fld (upd d v) = fld v + amt d.

Lemma update_whole (d : D) (n : Z) (agg : @Obj.t K V) :
  amt d = Z2F n -> (0 <= n)%Z ->
  forall zs : list Z,
    map fld (Obj.values agg) = map Z2F zs -> Forall (fun z => 0 <= z)%Z zs ->
    (total zs + n < 2 ^ 53)%Z ->
    Obj.get eqb agg (key d) <> None ->
    exists zs' : list Z,
      map fld (Obj.values (Obj.update eqb agg (key d) (upd d))) = map Z2F zs' /\
      Forall (fun z => 0 <= z)%Z zs' /\ total zs' = (total zs + n)%Z.
Proof.
  intros Hd Hn. unfold Obj.values.
  induction agg as [|[k' v] agg IH]; intros zs Hmap Hzs Hlt Hget.
  - now contradiction Hget.
  - destruct zs as [|z zs]; [discriminate|]. cbn [map snd] in Hmap.
    injection Hmap as Hv Hmap. apply Forall_cons_iff in Hzs as [Hz Hzs].
    pose proof (total_nonneg zs Hzs). cbn [total] in Hlt.
    cbn [Obj.update Obj.get] in *. destruct (eqb (key d) k') eqn:E.
    + exists ((z + n)%Z :: zs). cbn [map snd total].
      split; [|split; [constructor; [lia | exact Hzs] | lia]].
      rewrite fld_upd, Hv, Hd, Z2F_add by lia. now rewrite Hmap.
    + destruct (IH zs Hmap Hzs) as (zs' & Hmap' & Hzs' & Ht); [lia | exact Hget |].
      exists (z :: zs'). cbn [map snd total].
      split; [now rewrite Hv, Hmap' | split; [now constructor | lia]].
Qed.

Lemma group_step_whole (agg : @Obj.t K V) (d : D) (n : Z) (zs : list Z) :
  amt d = Z2F n -> (0 <= n)%Z ->
  map fld (Obj.values agg) = map Z2F zs -> Forall (fun z => 0 <= z)%Z zs ->
  (total zs + n < 2 ^ 53)%Z ->
  exists zs' : list Z,
    map fld (Obj.values (group_step eqb key init upd agg d)) = map Z2F zs' /\
    Forall (fun z => 0 <= z)%Z zs' /\ total zs' = (total zs + n)%Z.
Proof.
  intros Hd Hn Hmap Hzs Hlt. unfold group_step.
  destruct (Obj.get eqb agg (key d)) eqn:G.
  - apply update_whole with (n := n); auto. congruence.
  - destruct (update_whole d n (Obj.add agg (key d) (init (key d))) Hd Hn (zs ++ [0%Z]))
      as (zs' & Hmap' & Hzs' & Ht).
    + unfold Obj.add, Obj.values in *. rewrite !map_app, Hmap. cbn [map snd].
      now rewrite fld_init.
    + apply Forall_app. split; [exact Hzs|]. constructor; [lia | constructor].
    + rewrite total_app. cbn. lia.
    + unfold Obj.add. rewrite get_app, G. cbn [Obj.get]. now rewrite eqb_refl.
    + exists zs'. split; [exact Hmap'|]. split; [exact Hzs'|].
      rewrite Ht, total_app. cbn. lia.
Qed.

Lemma group_fold_whole (l : list D) :
  forall (agg : @Obj.t K V) (zs ns : list Z),
    map amt l = map Z2F ns -> Forall (fun n => 0 <= n)%Z ns ->
    map fld (Obj.values agg) = map Z2F zs -> Forall (fun z => 0 <= z)%Z zs ->
    (total zs + total ns < 2 ^ 53)%Z ->
    exists zs' : list Z,
      map fld (Obj.values (fold_left (group_step eqb key init upd) l agg)) = map Z2F zs' /\
      Forall (fun z => 0 <= z)%Z zs' /\ total zs' = (total zs + total ns)%Z.
Proof.
  induction l as [|d l IH]; intros agg zs [|n ns] Hmap Hns Hagg Hzs Hlt; try discriminate.
  - exists zs. cbn. split; [exact Hagg|]. split; [exact Hzs | lia].
  - cbn [map] in Hmap. injection Hmap as Hd Hmap.
    apply Forall_cons_iff in Hns as [Hn Hns].
    pose proof (total_nonneg ns Hns). cbn [total] in Hlt.
    destruct (group_step_whole agg d n zs Hd Hn Hagg Hzs) as (zs1 & Hm1 & Hz1 & Ht1); [lia|].
    destruct (IH (group_step eqb key init upd agg d) zs1 ns Hmap Hns Hm1 Hz1)
      as (zs' & Hm' & Hz' & Ht'); [lia|].
    exists zs'. cbn [fold_left total]. split; [exact Hm'|]. split; [exact Hz' | lia].
Qed.

(** The accumulators of a pass over whole amounts add up to the sum of
    the amounts. *)
Lemma groups_add_up (l : list D) (ns : list Z) :
  map amt l = map Z2F ns -> Forall (fun n => 0 <= n)%Z ns -> (total ns < 2 ^ 53)%Z ->
  exists zs : list Z,
    map fld (Obj.values (fold_left (group_step eqb key init upd) l [])) = map Z2F zs /\
    Forall (fun z => 0 <= z)%Z zs /\ total zs = total ns.
Proof.
  intros Hmap Hns Hlt.
  destruct (group_fold_whole l [] [] ns Hmap Hns eq_refl ltac:(constructor))
    as (zs & Hm & Hz & Ht); [cbn; lia|].
  exists zs. split; [exact Hm|]. split; [exact Hz|]. cbn [total] in Ht. lia.
Qed.

End GroupSums.

Section SumProperties.

Import JS Rand.
Local Open Scope float_scope.

Lemma reduce_sum_map {A : Type} (f : A -> float) (l : list A) :
  reduce_sum f l = reduce_sum (fun x => x) (map f l).
Proof.
  unfold reduce_sum. generalize 0. induction l as [|x l IH]; intros a; cbn; auto.
Qed.

Lemma total_Permutation (xs ys : list Z) : Permutation xs ys -> total xs = total ys.
Proof. induction 1; cbn [total]; lia. Qed.

Lemma reduce_sum_whole {A : Type} (f : A -> float) (l l' : list A) (zs : list Z) :
  Permutation l' l ->
  map f l = map Z2F zs -> Forall (fun z => 0 <= z)%Z zs -> (total zs < 2 ^ 53)%Z ->
  reduce_sum f l' = Z2F (total zs).
Proof.
  intros P Hmap Hzs Hlt.
  apply (Permutation_map f) in P. rewrite Hmap in P.
  apply Permutation_map_inv in P as (zs' & Hmap' & P).
  rewrite (total_Permutation _ _ P) in *.
  apply reduce_sum_exact; [exact Hmap' | | exact Hlt].
  eapply Permutation_Forall; [exact P | exact Hzs].
Qed.

Lemma region_revenue_sum (l : list PortfolioRecord) (amounts : list Z) :
  map annualRevenue l = map Z2F amounts ->
  Forall (fun n => 0 <= n)%Z amounts -> (total amounts < 2 ^ 53)%Z ->
  reduce_sum Reg.revenue (regionData l) = Z2F (total amounts).
Proof.
  intros Hmap Hns Hlt.
  destruct (groups_add_up region_key region region_init region_update Reg.revenue
              annualRevenue (fun k => proj2 (region_key_eq k k) eq_refl)
              (fun _ => eq_refl) (fun _ _ => eq_refl) l amounts Hmap Hns Hlt)
    as (zs & Hm & Hz & Ht).
  rewrite <- (fold_left_pointwise _ _ l region_step_group) in Hm.
  rewrite <- Ht in *.
  apply reduce_sum_whole with (l := Obj.values (fold_left region_step l []));
    try assumption.
  apply sort_Permutation.
Qed.

Lemma segment_revenue_sum (l : list PortfolioRecord) (amounts : list Z) :
  map annualRevenue l = map Z2F amounts ->
  Forall (fun n => 0 <= n)%Z amounts -> (total amounts < 2 ^ 53)%Z ->
  reduce_sum Seg.revenue (segmentData l) = Z2F (total amounts) /\
  reduce_sum Seg.value (segmentData l) = Z2F (total amounts).
Proof.
  intros Hmap Hns Hlt.
  unfold segmentData. rewrite (fold_left_pointwise _ _ l segment_step_group).
  split.
  - destruct (groups_add_up segment_key segment segment_init segment_update Seg.revenue
                annualRevenue (fun k => proj2 (segment_key_eq k k) eq_refl)
                (fun _ => eq_refl) (fun _ _ => eq_refl) l amounts Hmap Hns Hlt)
      as (zs & Hm & Hz & Ht).
    rewrite <- Ht in *. now apply reduce_sum_exact.
  - destruct (groups_add_up segment_key segment segment_init segment_update Seg.value
                annualRevenue (fun k => proj2 (segment_key_eq k k) eq_refl)
                (fun _ => eq_refl) (fun _ _ => eq_refl) l amounts Hmap Hns Hlt)
      as (zs & Hm & Hz & Ht).
    rewrite <- Ht in *. now apply reduce_sum_exact.
Qed.

(** X6: when the revenues of the filtered set are non-negative integers whose
    total is below 2^53, the revenues of the regions returned by
    [regionData] add up to [metrics.totalRevenue]. *)
Theorem region_revenues_add_up (filteredData : list PortfolioRecord) (amounts : list Z) :
  map annualRevenue filteredData = map Z2F amounts ->
  Forall (fun n => 0 <= n)%Z amounts -> (total amounts < 2 ^ 53)%Z ->
  reduce_sum Reg.revenue (regionData filteredData) = totalRevenue (metrics filteredData).
Proof.
  intros Hmap Hns Hlt. cbn [metrics totalRevenue].
  rewrite (reduce_sum_exact annualRevenue filteredData amounts Hmap Hns Hlt).
  now apply region_revenue_sum.
Qed.

Lemma region_revenues_add_up_witness :
  reduce_sum Reg.revenue (regionData sample) = totalRevenue (metrics sample).
Proof.
  refine (region_revenues_add_up sample [700; 1300; 4500]%Z _ _ _).
  - vm_compute. reflexivity.
  - repeat constructor; discriminate.
  - reflexivity.
Defined.

(** X7: when the revenues of the filtered set are non-negative integers whose
    total is below 2^53, both revenue columns of [segmentData], [revenue]
    and [value], add up to [metrics.totalRevenue]. *)
Theorem segment_revenues_add_up (filteredData : list PortfolioRecord) (amounts : list Z) :
  map annualRevenue filteredData = map Z2F amounts ->
  Forall (fun n => 0 <= n)%Z amounts -> (total amounts < 2 ^ 53)%Z ->
  reduce_sum Seg.revenue (segmentData filteredData) = totalRevenue (metrics filteredData) /\
  reduce_sum Seg.value (segmentData filteredData) = totalRevenue (metrics filteredData).
Proof.
  intros Hmap Hns Hlt. cbn [metrics totalRevenue].
  rewrite (reduce_sum_exact annualRevenue filteredData amounts Hmap Hns Hlt).
  now apply segment_revenue_sum.
Qed.

Lemma segment_revenues_add_up_witness :
  reduce_sum Seg.revenue (segmentData sample) = totalRevenue (metrics sample) /\
  reduce_sum Seg.value (segmentData sample) = totalRevenue (metrics sample).
Proof.
  refine (segment_revenues_add_up sample [700; 1300; 4500]%Z _ _ _).
  - vm_compute. reflexivity.
  - repeat constructor; discriminate.
  - reflexivity.
Defined.

Lemma total_ones (n : nat) : total (repeat 1%Z n) = Z.of_nat n.
Proof. induction n as [|n IH]; cbn [repeat total]; lia. Qed.

Lemma count_exact {A : Type} (l : list A) :
  (Z.of_nat (List.length l) < 2 ^ 53)%Z ->
  fold_left (fun acc (_ : A) => acc + 1) l 0 = of_nat (List.length l).
Proof.
  intros Hlt. unfold of_nat. rewrite <- total_ones.
  apply (reduce_sum_exact (fun _ : A => 1) l (repeat 1%Z (List.length l))).
  - induction l as [|x l IH]; cbn [map List.length repeat]; [reflexivity|].
    f_equal. apply IH. cbn [List.length] in Hlt. lia.
  - apply Forall_forall. intros z Hz. apply repeat_spec in Hz. lia.
  - now rewrite total_ones.
Qed.

(** X8: the [count] of a segment summary is the number of records of that
    segment in the filtered set, which is at least one. *)
Theorem segment_summary_count (filtered : list PortfolioRecord)
    (s : Seg.t) (sg : Segment) :
  (Z.of_nat (List.length filtered) < 2 ^ 53)%Z ->
  In s (segmentData filtered) -> Seg.name s = Some sg ->
  let of_segment := filteredData filtered (only sg) all in
  Seg.count s = of_nat (List.length of_segment) /\ (1 <= List.length of_segment)%nat.
Proof.
  intros Hlt Hin Hname of_segment.
  pose proof (proj1 (segmentData_one_per_segment_aux filtered (Seg.name s))
                (in_map Seg.name _ _ Hin)) as Hk.
  rewrite segmentData_groups in Hin.
  apply in_map_iff in Hin as (k & <- & _).
  rewrite segment_group_name in Hname, Hk. subst k.
  unfold group. rewrite segment_members. fold of_segment.
  destruct (segment_fold_fields of_segment (segment_init (Some sg))) as (_ & _ & _ & Hc & _).
  cbn zeta in Hc. rewrite Hc. cbn [segment_init Seg.count].
  assert (Hle : (List.length of_segment <= List.length filtered)%nat)
    by apply filter_length_le.
  split; [apply count_exact; lia|].
  apply in_map_iff in Hk as (d & Hd & Hin).
  assert (Hm : In d of_segment).
  { subst of_segment. unfold filteredData. apply filter_In. split; [exact Hin|].
    rewrite Hd. cbn. now destruct sg. }
  destruct of_segment; [contradiction | cbn; lia].
Qed.

Lemma segment_summary_count_witness :
  Seg.count {| Seg.name := Some Affluent; Seg.value := 1300; Seg.balance := 20000;
               Seg.count := 1; Seg.revenue := 1300 |} =
    of_nat (List.length (filteredData sample (only Affluent) all)) /\
  (1 <= List.length (filteredData sample (only Affluent) all))%nat.
Proof.
  refine (segment_summary_count sample
            {| Seg.name := Some Affluent; Seg.value := 1300; Seg.balance := 20000;
               Seg.count := 1; Seg.revenue := 1300 |} Affluent _ _ eq_refl).
  - reflexivity.
  - vm_compute. right. left. reflexivity.
Defined.

End SumProperties.

(* ================================================================= *)
(** ** The filter applied more than once *)

Section FilterProperties.

Import JS Rand.

Lemma filter_twice {A : Type} (f g : A -> bool) (l : list A) :
  filter g (filter f l) = filter (fun x => f x && g x) l.
Proof.
  induction l as [|x l IH]; cbn [filter]; [reflexivity|].
  destruct (f x); cbn [filter andb]; [|exact IH].
  destruct (g x); now rewrite IH.
Qed.

(** X9: filtering an already filtered set with the same selections changes
    nothing. *)
Theorem filteredData_idempotent (portfolioData : list PortfolioRecord)
    (selectedSegment : Selection Segment) (selectedRegion : Selection Region) :
  filteredData (filteredData portfolioData selectedSegment selectedRegion)
               selectedSegment selectedRegion =
  filteredData portfolioData selectedSegment selectedRegion.
Proof.
  unfold filteredData. rewrite filter_twice. apply filter_ext.
  intros d. apply andb_diag.
Qed.

(** X10: with both filters on "all" every record is kept, and selecting a
    segment and a region at once is the same as selecting one after the
    other, in either order. *)
Theorem filteredData_one_at_a_time (portfolioData : list PortfolioRecord)
    (selectedSegment : Selection Segment) (selectedRegion : Selection Region) :
  filteredData portfolioData all all = portfolioData /\
  filteredData (filteredData portfolioData selectedSegment all) all selectedRegion =
    filteredData portfolioData selectedSegment selectedRegion /\
  filteredData (filteredData portfolioData all selectedRegion) selectedSegment all =
    filteredData portfolioData selectedSegment selectedRegion.
Proof.
  unfold filteredData. split; [apply filter_true|].
  rewrite !filter_twice. split; apply filter_ext; intros d; cbn [is_all orb andb].
  - now rewrite andb_true_r.
  - rewrite andb_true_r. apply andb_comm.
Qed.

Lemma segment_counts (l : list PortfolioRecord) (selectedRegion : Selection Region) :
  Forall (fun d => exists s : Segment, segment d = Some s) l ->
  (List.length (filteredData l (only MassMarket) selectedRegion) +
   List.length (filteredData l (only Affluent) selectedRegion) +
   List.length (filteredData l (only HighNetWorth) selectedRegion) =
   List.length (filteredData l all selectedRegion))%nat.
Proof.
  unfold filteredData.
  induction 1 as [|d l (s & Hs) _ IH]; [reflexivity|].
  cbn [filter is_all orb selected andb] in IH |- *. rewrite Hs.
  destruct (is_all selectedRegion || selected Region_eqb (region d) selectedRegion);
    destruct s; cbn [Segment_eqb andb List.length]; rewrite ?andb_false_r; cbn [List.length]; lia.
Qed.

Lemma region_counts (l : list PortfolioRecord) (selectedSegment : Selection Segment) :
  Forall (fun d => exists r : Region, region d = Some r) l ->
  (List.length (filteredData l selectedSegment (only NorthAmerica)) +
   List.length (filteredData l selectedSegment (only EMEA)) +
   List.length (filteredData l selectedSegment (only APAC)) +
   List.length (filteredData l selectedSegment (only LatAm)) =
   List.length (filteredData l selectedSegment all))%nat.
Proof.
  unfold filteredData.
  induction 1 as [|d l (r & Hr) _ IH]; [reflexivity|].
  cbn [filter is_all orb selected andb] in IH |- *. rewrite Hr.
  destruct (is_all selectedSegment || selected Segment_eqb (segment d) selectedSegment);
    destruct r; cbn [Region_eqb andb List.length]; rewrite ?andb_true_r; cbn [List.length]; lia.
Qed.

Lemma generated_all_named (g : source) :
  unit_draws g ->
  Forall (fun d => (exists s : Segment, segment d = Some s) /\
                   (exists r : Region, region d = Some r))
         (run generatePortfolioData g).
Proof.
  intros Hg. apply Forall_forall. intros d Hd.
  apply generated_record in Hd as (i & _ & ->). now apply generated_names.
Qed.

(** X11: on generated data the three segment selections split the records
    among them, and so do the four region selections: the counts
    displayed for the single selections add up to the count for "all". *)
Theorem selections_partition (g : source)
    (selectedSegment : Selection Segment) (selectedRegion : Selection Region) :
  unit_draws g ->
  let portfolioData := run generatePortfolioData g in
  (List.length (filteredData portfolioData (only MassMarket) selectedRegion) +
   List.length (filteredData portfolioData (only Affluent) selectedRegion) +
   List.length (filteredData portfolioData (only HighNetWorth) selectedRegion) =
   List.length (filteredData portfolioData all selectedRegion))%nat /\
  (List.length (filteredData portfolioData selectedSegment (only NorthAmerica)) +
   List.length (filteredData portfolioData selectedSegment (only EMEA)) +
   List.length (filteredData portfolioData selectedSegment (only APAC)) +
   List.length (filteredData portfolioData selectedSegment (only LatAm)) =
   List.length (filteredData portfolioData selectedSegment all))%nat.
Proof.
  intros Hg portfolioData. pose proof (generated_all_named g Hg) as H.
  split; [apply segment_counts | apply region_counts];
    (eapply Forall_impl; [|exact H]); cbn; tauto.
Qed.

Lemma selections_partition_witness :
  let portfolioData := run generatePortfolioData halves in
  (List.length (filteredData portfolioData (only MassMarket) all) +
   List.length (filteredData portfolioData (only Affluent) all) +
   List.length (filteredData portfolioData (only HighNetWorth) all) =
   List.length (filteredData portfolioData all all))%nat /\
  (List.length (filteredData portfolioData all (only NorthAmerica)) +
   List.length (filteredData portfolioData all (only EMEA)) +
   List.length (filteredData portfolioData all (only APAC)) +
   List.length (filteredData portfolioData all (only LatAm)) =
   List.length (filteredData portfolioData all all))%nat.
Proof.
  exact (selections_partition halves all all unit_draws_halves).
Defined.

End FilterProperties.

(* ================================================================= *)
(** ** The scatter chart *)

Section ScatterProperties.

Import JS.

(** X12: the scatter chart plots the first 150 records of the filtered set and
    no others, each at its risk score and revenue, red when the record is
    flagged as default. *)
Theorem riskVsRevData_points (filteredData : list PortfolioRecord) :
  List.length (riskVsRevData filteredData) = Nat.min 150 (List.length filteredData) /\
  forall (i : nat) (p : Point.t),
    nth_error (riskVsRevData filteredData) i = Some p <->
    (i < 150)%nat /\
    exists d : PortfolioRecord,
      nth_error filteredData i = Some d /\
      p = {| Point.x := riskScore d; Point.y := annualRevenue d; Point.z := segment d;
             Point.fill := if defaultFlag d then "#ef4444" else "#14b8a6" |}.
Proof.
  unfold riskVsRevData. split.
  - now rewrite length_firstn, length_map.
  - intros i p. rewrite nth_error_firstn, nth_error_map.
    destruct (Nat.ltb_spec i 150) as [Hi|Hi].
    + destruct (nth_error filteredData i) as [d|]; cbn [option_map].
      * split.
        -- intros [= <-]. split; [exact Hi|]. now exists d.
        -- intros (_ & d' & [= <-] & ->). reflexivity.
      * split; [discriminate|]. now intros (_ & d' & [=] & _).
    + split; [discriminate|]. intros (Hi' & _). lia.
Qed.

End ScatterProperties.

(* ================================================================= *)
(** ** Customer identifiers *)

Section Identifiers.

Import JS Rand.

Lemma append_cancel (p a b : string) : (p ++ a = p ++ b)%string -> a = b.
Proof.
  induction p as [|c p IH]; cbn [append]; [auto|].
  intros H. injection H as H. auto.
Qed.

Lemma customer_id_injective (i j : nat) : customer_id i = customer_id j -> i = j.
Proof.
  unfold customer_id. intros H. apply append_cancel in H.
  assert (E : Some (Nat.to_uint (1000 + i)) = Some (Nat.to_uint (1000 + j))).
  { rewrite <- !NilEmpty.usu. now rewrite H. }
  injection E as E. apply (f_equal Nat.of_uint) in E.
  rewrite !Unsigned.of_to in E. lia.
Qed.

(** X13: no two generated records share a [customerId], whatever the draws. *)
Theorem customerIds_distinct (g : source) :
  NoDup (map customerId (run generatePortfolioData g)).
Proof.
  rewrite generatePortfolioData_run, map_map.
  change (fun x => customerId (nth_record g x)) with customer_id.
  apply Injective_map_NoDup; [|apply seq_NoDup].
  intros i j. apply customer_id_injective.
Qed.

End Identifiers.

(* ================================================================= *)
(** ** The amounts of a generated record *)

Section Ranges.

Import JS Rand.
Local Open Scope float_scope.

Lemma at_least_val (x w : float) :
  positive_finite w -> at_least (Prim2SF w) (Prim2SF x) ->
  Positive x /\ (val w <= val x)%Z.
Proof.
  intros Hw H. destruct (positive_finite_shape w Hw) as (mw & ew & Ew & Vw).
  pose proof (SFacts.finite_value_bounds _ _ Vw) as Hvw.
  unfold Positive, val. rewrite Ew in *. pose proof (Prim2SF_valid x) as V.
  destruct (Prim2SF x) as [s|[]| |[] m e]; cbn [at_least] in H; try contradiction.
  - split; [reflexivity|]. cbn [SF.value cond_Zopp]. lia.
  - split; [reflexivity|]. apply SFacts.bounded_shape in V as (He & _).
    rewrite SFacts.value_scaled in H by lia.
    apply Z.mul_le_mono_pos_r in H; [exact H | reflexivity].
Qed.

Lemma add_ge (x y w : float) :
  Nonneg x -> Nonneg y -> positive_finite w ->
  (val w <= val x + val y)%Z ->
  Positive (x + y) /\ (val w <= val (x + y))%Z.
Proof.
  intros Hx Hy Hw Hle. apply at_least_val; [exact Hw|].
  destruct (positive_finite_shape w Hw) as (mw & ew & Ew & Vw).
  pose proof (SFacts.finite_value_bounds _ _ Vw) as Hvw.
  rewrite add_spec, Ew. unfold Nonneg, val in *. rewrite Ew in Hle.
  pose proof (Prim2SF_valid x) as Vx. pose proof (Prim2SF_valid y) as Vy.
  destruct (Prim2SF x) as [sx|sx| |sx mx ex], (Prim2SF y) as [sy|sy| |sy my ey];
    cbn [SF.nonneg] in Hx, Hy; try contradiction; subst;
    cbn [SF.value cond_Zopp] in *; try lia; try exact I.
  - cbn [SF64add SFadd at_least]. apply SFacts.bounded_shape in Vy as (He & _).
    rewrite SFacts.value_scaled by lia. cbn [SF.value cond_Zopp].
    apply Z.mul_le_mono_nonneg_r; [apply Z.pow_nonneg|]; lia.
  - cbn [SF64add SFadd at_least]. apply SFacts.bounded_shape in Vx as (He & _).
    rewrite SFacts.value_scaled by lia. cbn [SF.value cond_Zopp].
    apply Z.mul_le_mono_nonneg_r; [apply Z.pow_nonneg|]; lia.
  - now apply SFlower.SFadd_at_least.
Qed.

Lemma mul_ge (x c w : float) :
  Positive x -> positive_finite c -> positive_finite w ->
  (val w * 2 ^ 1074 <= val x * val c)%Z ->
  Positive (x * c) /\ (val w <= val (x * c))%Z.
Proof.
  intros Hx Hc Hw Hle. apply at_least_val; [exact Hw|].
  destruct (positive_finite_shape c Hc) as (mc & ec & Ec & Vc).
  destruct (positive_finite_shape w Hw) as (mw & ew & Ew & Vw).
  rewrite mul_spec, Ec, Ew. unfold Positive, val in *. rewrite Ec, Ew in Hle.
  pose proof (Prim2SF_valid x) as V.
  destruct (Prim2SF x) as [s|s| |s m e]; try contradiction; subst s.
  - exact I.
  - now apply SFlower.SFmul_at_least.
Qed.

Lemma Positive_Plus (x : float) : Positive x -> Plus x.
Proof. unfold Positive, Plus. now destruct (Prim2SF x). Qed.

Lemma Positive_Nonneg (x : float) : Positive x -> Nonneg x.
Proof. unfold Positive, Nonneg. now destruct (Prim2SF x). Qed.

Lemma mul_Plus (x c : float) : Positive x -> positive_finite c -> Plus (x * c).
Proof.
  intros Hx Hc. destruct (positive_finite_shape c Hc) as (mc & ec & Ec & _).
  unfold Positive, Plus in *. rewrite mul_spec, Ec.
  destruct (Prim2SF x) as [s|s| |s m e]; try contradiction; subst s.
  - reflexivity.
  - cbn [SF64mul SFmul xorb].
    pose proof (SFacts.binary_round_aux_sign false (Z.pos (m * mc)) (e + ec) loc_Exact
                  ltac:(lia)) as H.
    destruct (binary_round_aux _ _ _ _ _ _); auto.
Qed.

Lemma add_Plus (a b : float) : Plus a -> Nonneg b -> Plus (a + b).
Proof.
  intros Ha Hb. unfold Plus, Nonneg in *. rewrite add_spec.
  destruct (Prim2SF a) as [sa|sa| |sa ma ea], (Prim2SF b) as [sb|sb| |sb mb eb];
    cbn [SF.nonneg] in Hb; try contradiction; subst; cbn [SF64add SFadd]; try reflexivity.
  - now destruct sb.
  - cbn [cond_Zopp].
    change (Z.pos (fst (shl_align ma ea (Z.min ea eb))) +
            Z.pos (fst (shl_align mb eb (Z.min ea eb))))%Z
      with (Z.pos (fst (shl_align ma ea (Z.min ea eb)) +
                   fst (shl_align mb eb (Z.min ea eb)))).
    cbn [binary_normalize]. unfold binary_round.
    destruct (shl_align _ _ _) as [mz ez].
    pose proof (SFacts.binary_round_aux_sign false (Z.pos mz) ez loc_Exact ltac:(lia)) as H.
    destruct (binary_round_aux _ _ _ _ _ _); auto.
Qed.

(** [Math.round] of a number between two whole amounts is a whole amount
    between them. *)
Lemma Math_round_range (x : float) (lo hi : Z) :
  Plus x -> (0 <= lo)%Z -> (hi < 2 ^ 52)%Z ->
  (lo * 2 ^ 1074 <= val x)%Z -> (2 * val x < (2 * hi + 1) * 2 ^ 1074)%Z ->
  exists n : Z, (lo <= n <= hi)%Z /\ Math_round x = Z2F n.
Proof.
  intros Hx Hlo Hhi Hge Hlt.
  assert (HT : (0 < 2 ^ 1074)%Z) by reflexivity.
  unfold Math_round, Plus, val in *.
  pose proof (Prim2SF_valid x) as V.
  destruct (Prim2SF x) as [s|s| |s m e] eqn:E; try contradiction; subst s.
  - exists 0%Z. cbn [SF.value] in *. split; [nia|].
    apply Prim2SF_inj. rewrite E. reflexivity.
  - exfalso. cbn [SF.value cond_Zopp] in Hlt.
    change (2 ^ 2098)%Z with (2 ^ 1024 * 2 ^ 1074)%Z in Hlt.
    assert (2 ^ 52 < 2 ^ 1024)%Z by reflexivity.
    set (T := (2 ^ 1074)%Z) in *. set (c := (2 ^ 52)%Z) in *. set (B := (2 ^ 1024)%Z) in *.
    clearbody T c B. nia.
  - cbn [valid_binary] in V. apply SFacts.bounded_shape in V as (He & Hm & Hn).
    cbn [SF.value cond_Zopp signed] in *.
    pose proof (SFacts.pow2_pos (e + 1074) ltac:(lia)) as Hp.
    destruct (Z.leb_spec 0 e) as [Hpos|Hneg].
    + exfalso. destruct Hn as [Hn|Hn]; [lia|].
      assert (2 ^ 1074 <= 2 ^ (e + 1074))%Z by (apply Z.pow_le_mono_r; lia).
      set (c := (2 ^ 52)%Z) in *. set (T := (2 ^ 1074)%Z) in *.
      set (P := (2 ^ (e + 1074))%Z) in *. clearbody c T P. nia.
    + set (t := (2 ^ (- e))%Z).
      assert (Ht : (2 ^ (1 - e) = 2 * t)%Z).
      { subst t. replace (1 - e)%Z with (Z.succ (- e)) by lia. apply Z.pow_succ_r. lia. }
      assert (Ht0 : (0 < t)%Z) by (subst t; apply SFacts.pow2_pos; lia).
      assert (HTt : (2 ^ 1074 = 2 ^ (e + 1074) * t)%Z).
      { subst t. rewrite <- Z.pow_add_r by lia. f_equal. lia. }
      rewrite HTt in Hge, Hlt.
      assert (Hmlo : (lo * t <= Z.pos m)%Z).
      { set (P := (2 ^ (e + 1074))%Z) in *. clearbody P. nia. }
      assert (Hmhi : (2 * Z.pos m < (2 * hi + 1) * t)%Z).
      { set (P := (2 ^ (e + 1074))%Z) in *. clearbody P. nia. }
      rewrite Ht. set (n := ((2 * Z.pos m + t) / (2 * t))%Z).
      assert (Hn0 : (lo <= n)%Z) by (apply Z.div_le_lower_bound; lia).
      assert (Hn1 : (n < hi + 1)%Z) by (apply Z.div_lt_upper_bound; lia).
      destruct (n =? 0)%Z eqn:Hz.
      * apply Z.eqb_eq in Hz. exists 0%Z. split; [lia | reflexivity].
      * exists n. split; [lia | reflexivity].
Qed.

Lemma val_le (x w : float) (N : Z) :
  (val x <= val w)%Z -> val w = (N * 2 ^ 1074)%Z ->
  (2 * val x < (2 * N + 1) * 2 ^ 1074)%Z.
Proof. intros H E. assert (0 < 2 ^ 1074)%Z by reflexivity. lia. Qed.

(** The balance before rounding, segment by segment. *)
Lemma baseBalance_range (s : Segment) (u : float) :
  (0 <=? u) = true -> (u <? 1) = true ->
  let x := baseBalance_of (Some s) u in
  Positive x /\
  match s with
  | MassMarket => (val 1000 <= val x <= val 11000)%Z
  | Affluent => (val 15000 <= val x <= val 65000)%Z
  | HighNetWorth => (val 50000 <= val x <= val 200000)%Z
  end.
Proof.
  intros H0 H1. destruct (unit_draw_val u H0 H1) as (Hu & Hfin & Hv).
  assert (HT : (0 < 2 ^ 1074)%Z) by reflexivity.
  assert (Hmul : forall c, positive_finite c -> Nonneg (u * c) /\ (val (u * c) <= val c)%Z).
  { intros c Hc. apply mul_le; auto.
    pose proof (Nonneg_val c (positive_finite_Nonneg c Hc)).
    rewrite (Z.mul_comm (val c)). apply Z.mul_le_mono_nonneg_r; lia. }
  assert (Hrange : forall a c w : float,
            positive_finite a -> positive_finite c -> positive_finite w ->
            (val a + val c <= val w)%Z ->
            Positive (a + u * c) /\ (val a <= val (a + u * c) <= val w)%Z).
  { intros a c w Ha Hc Hw Hacw. destruct (Hmul c Hc) as [Hn Hle].
    pose proof (Nonneg_val _ Hn).
    destruct (add_ge a (u * c) a (positive_finite_Nonneg a Ha) Hn Ha ltac:(lia)) as [Hp Hge].
    destruct (add_le a (u * c) w (positive_finite_Nonneg a Ha) Hn Hw ltac:(lia)) as [_ Hup].
    auto. }
  destruct s; cbn.
  - apply (Hrange 1000 10000 11000); try constant. vm_compute. discriminate.
  - apply (Hrange 15000 50000 65000); try constant. vm_compute. discriminate.
  - apply (Hrange 50000 150000 200000); try constant. vm_compute. discriminate.
Qed.

Lemma nth_record_amounts (g : source) (i : nat) :
  unit_draws g ->
  let r := nth_record g i in
  exists (s : Segment) (b v : Z),
    segment r = Some s /\
    accountBalance r = Z2F b /\ annualRevenue r = Z2F v /\ (40 <= v <= 8500)%Z /\
    match s with
    | MassMarket => creditLimit r = 15000 /\ (1000 <= b <= 11000)%Z
    | Affluent => creditLimit r = 40000 /\ (15000 <= b <= 65000)%Z
    | HighNetWorth => creditLimit r = 100000 /\ (50000 <= b <= 200000)%Z
    end.
Proof.
  intros Hg r. destruct (generated_names g i Hg) as [(s & Hs) _].
  subst r. unfold nth_record, record_of_draws in *.
  cbn [segment accountBalance annualRevenue creditLimit] in *. rewrite Hs.
  destruct (Hg (6 * i + 2)%nat) as [H0 H1].
  destruct (Hg (6 * i + 5)%nat) as [H0' H1'].
  set (u := g (6 * i + 2)%nat) in *. set (u6 := g (6 * i + 5)%nat) in *.
  destruct (baseBalance_range s u H0 H1) as [Hp Hr]. cbn zeta in Hp, Hr.
  set (x := baseBalance_of (Some s) u) in *.
  assert (HT : (0 < 2 ^ 1074)%Z) by reflexivity.
  assert (Hx : (val x <= val 200000)%Z).
  { assert (val 11000 <= val 200000)%Z by (vm_compute; discriminate).
    assert (val 65000 <= val 200000)%Z by (vm_compute; discriminate).
    destruct s; lia. }
  (* the revenue *)
  assert (Hx1 : (val 1000 <= val x)%Z).
  { assert (val 1000 <= val 15000)%Z by (vm_compute; discriminate).
    assert (val 1000 <= val 50000)%Z by (vm_compute; discriminate).
    destruct s; lia. }
  assert (Hv : exists v : Z, (40 <= v <= 8500)%Z /\ Math_round (x * 0.04 + u6 * 500) = Z2F v).
  { destruct (unit_draw_val u6 H0' H1') as (Hu6 & Hfin6 & Hv6).
    assert (H200 : val 200000 = (200000 * 2 ^ 1074)%Z) by (vm_compute; reflexivity).
    assert (Hfin : (val x < 2 ^ 2098)%Z).
    { rewrite H200 in Hx. eapply Z.le_lt_trans; [exact Hx|]. vm_compute. reflexivity. }
    destruct (mul_le x 0.04 8000.125 (Positive_Nonneg x Hp) Hfin
                ltac:(constant) ltac:(constant)) as [Ha Hale].
    { eapply Z.le_trans; [|assert (E : (val 200000 * val 0.04 <= val 8000.125 * 2 ^ 1074)%Z)
                              by (vm_compute; discriminate); exact E].
      apply Z.mul_le_mono_nonneg_r; [vm_compute; discriminate | exact Hx]. }
    destruct (mul_le u6 500 500 Hu6 Hfin6 ltac:(constant) ltac:(constant)) as [Hb Hble].
    { rewrite (Z.mul_comm (val 500)). apply Z.mul_le_mono_nonneg_r; [vm_compute; discriminate | lia]. }
    destruct (add_le (x * 0.04) (u6 * 500) 8500.25 Ha Hb ltac:(constant)) as [Hs' Hsle].
    { assert (E : (val 8000.125 + val 500 <= val 8500.25)%Z) by (vm_compute; discriminate). lia. }
    destruct (mul_ge x 0.04 40 Hp ltac:(constant) ltac:(constant)) as [_ Hage].
    { eapply Z.le_trans; [assert (E : (val 40 * 2 ^ 1074 <= val 1000 * val 0.04)%Z)
                              by (vm_compute; discriminate); exact E|].
      apply Z.mul_le_mono_nonneg_r; [vm_compute; discriminate | exact Hx1]. }
    destruct (add_ge (x * 0.04) (u6 * 500) 40 Ha Hb ltac:(constant)) as [_ Hsge].
    { pose proof (Nonneg_val _ Hb). lia. }
    apply Math_round_range.
    - apply add_Plus; [apply mul_Plus; [exact Hp | constant] | exact Hb].
    - lia.
    - reflexivity.
    - assert (E : val 40 = (40 * 2 ^ 1074)%Z) by (vm_compute; reflexivity). lia.
    - assert (E : (2 * val 8500.25 < (2 * 8500 + 1) * 2 ^ 1074)%Z) by (vm_compute; reflexivity).
      lia. }
  destruct Hv as (v & Hv & Ev).
  assert (Hb : forall lo hi : float, forall zlo zhi : Z,
            (val lo <= val x <= val hi)%Z ->
            val lo = (zlo * 2 ^ 1074)%Z -> val hi = (zhi * 2 ^ 1074)%Z ->
            (0 <= zlo)%Z -> (zhi < 2 ^ 52)%Z ->
            exists b : Z, (zlo <= b <= zhi)%Z /\ Math_round x = Z2F b).
  { intros lo hi zlo zhi [Hl Hh] El Eh Hz0 Hz1.
    apply Math_round_range; [now apply Positive_Plus | exact Hz0 | exact Hz1 | lia |].
    now apply (val_le x hi). }
  destruct s; cbn [baseLimit_of is_segment name_eqb Segment_eqb].
  - destruct (Hb 1000 11000 1000%Z 11000%Z Hr ltac:(vm_compute; reflexivity)
                ltac:(vm_compute; reflexivity) ltac:(lia) ltac:(reflexivity))
      as (b & Hb' & Eb).
    exists MassMarket, b, v. repeat split; try assumption; lia.
  - destruct (Hb 15000 65000 15000%Z 65000%Z Hr ltac:(vm_compute; reflexivity)
                ltac:(vm_compute; reflexivity) ltac:(lia) ltac:(reflexivity))
      as (b & Hb' & Eb).
    exists Affluent, b, v. repeat split; try assumption; lia.
  - destruct (Hb 50000 200000 50000%Z 200000%Z Hr ltac:(vm_compute; reflexivity)
                ltac:(vm_compute; reflexivity) ltac:(lia) ltac:(reflexivity))
      as (b & Hb' & Eb).
    exists HighNetWorth, b, v. repeat split; try assumption; lia.
Qed.

(** X14: every generated record has the credit limit of its segment, a whole
    balance within the range of its segment, and a whole revenue between
    40 and 8500. *)
Theorem generated_record_amounts (g : source) (r : PortfolioRecord) :
  unit_draws g -> In r (run generatePortfolioData g) ->
  exists (s : Segment) (b v : Z),
    segment r = Some s /\
    accountBalance r = Z2F b /\ annualRevenue r = Z2F v /\ (40 <= v <= 8500)%Z /\
    match s with
    | MassMarket => creditLimit r = 15000 /\ (1000 <= b <= 11000)%Z
    | Affluent => creditLimit r = 40000 /\ (15000 <= b <= 65000)%Z
    | HighNetWorth => creditLimit r = 100000 /\ (50000 <= b <= 200000)%Z
    end.
Proof.
  intros Hg Hr. apply generated_record in Hr as (i & _ & ->).
  now apply nth_record_amounts.
Qed.

Lemma generated_record_amounts_witness :
  exists (s : Segment) (b v : Z),
    segment (nth_record halves 0) = Some s /\
    accountBalance (nth_record halves 0) = Z2F b /\
    annualRevenue (nth_record halves 0) = Z2F v /\ (40 <= v <= 8500)%Z /\
    match s with
    | MassMarket => creditLimit (nth_record halves 0) = 15000 /\ (1000 <= b <= 11000)%Z
    | Affluent => creditLimit (nth_record halves 0) = 40000 /\ (15000 <= b <= 65000)%Z
    | HighNetWorth => creditLimit (nth_record halves 0) = 100000 /\ (50000 <= b <= 200000)%Z
    end.
Proof.
  refine (generated_record_amounts halves (nth_record halves 0) unit_draws_halves _).
  apply (proj2 (generated_record _ _)). exists 0%nat. split; [lia | reflexivity].
Defined.

End Ranges.

(* ================================================================= *)
(** ** The decimals of the stored ratios *)

Section Decimals.

Import JS Rand.
Local Open Scope float_scope.

Lemma fixed_between (x lo hi : float) (fd : nat) (a b : Z) :
  Nonneg x -> (val lo <= val x <= val hi)%Z -> (val hi < val 1e21)%Z ->
  scaled_round (val lo) fd = a -> scaled_round (val hi) fd = b ->
  exists n : Z, toFixed x fd = NumFixed false n fd /\ (a <= n <= b)%Z.
Proof.
  intros Hx [Hlo Hhi] H21 <- <-. exists (scaled_round (val x) fd).
  split; [apply toFixed_Nonneg; [exact Hx | lia]|].
  split; now apply scaled_round_mono.
Qed.

(** X15: every generated record stores a utilization that is one of the
    two-decimal values 0.00 to 1.20 and a risk score that is one of the
    three-decimal values 0.010 to 0.990. *)
Theorem generated_decimals (g : source) (r : PortfolioRecord) :
  unit_draws g -> In r (run generatePortfolioData g) ->
  exists j k : Z,
    utilization r = parseFloat (NumFixed false j 2) /\ (0 <= j <= 120)%Z /\
    riskScore r = parseFloat (NumFixed false k 3) /\ (10 <= k <= 990)%Z.
Proof.
  intros Hg Hr. apply generated_record in Hr as (i & _ & ->).
  assert (Hn : forall k, Nonneg (g k)) by (intros k; apply Nonneg_leb, Hg).
  unfold nth_record, record_of_draws. cbn [utilization riskScore].
  set (segment := index segments _).
  destruct (utilization_of_range segment (g (6 * i + 2)%nat) (Hn _)) as [Hu Huv].
  destruct (riskScore_of_range segment (g (6 * i + 2)%nat) (g (6 * i + 3)%nat) (Hn _) (Hn _))
    as [Hs Hsv].
  destruct (fixed_between _ 0 1.2 2 0 120 Hu) as (j & Ej & Hj);
    [split; [now apply Nonneg_val | exact Huv] | vm_compute; reflexivity
     | vm_compute; reflexivity | vm_compute; reflexivity |].
  destruct (fixed_between _ 0.01 0.99 3 10 990 Hs Hsv) as (k & Ek & Hk);
    [vm_compute; reflexivity | vm_compute; reflexivity | vm_compute; reflexivity |].
  exists j, k. now rewrite Ej, Ek.
Qed.

Lemma generated_decimals_witness :
  exists j k : Z,
    utilization (nth_record halves 0) = parseFloat (NumFixed false j 2) /\ (0 <= j <= 120)%Z /\
    riskScore (nth_record halves 0) = parseFloat (NumFixed false k 3) /\ (10 <= k <= 990)%Z.
Proof.
  refine (generated_decimals halves (nth_record halves 0) unit_draws_halves _).
  apply (proj2 (generated_record _ _)). exists 0%nat. split; [lia | reflexivity].
Defined.

End Decimals.

(* ================================================================= *)
(** ** Totals and groups of generated data *)

Section GeneratedTotals.

Import JS Rand.
Local Open Scope float_scope.

Lemma whole_list {A : Type} (f : A -> float) (lo hi : Z) (l : list A) :
  Forall (fun d => exists n : Z, (lo <= n <= hi)%Z /\ f d = Z2F n) l ->
  exists ns : list Z,
    map f l = map Z2F ns /\ Forall (fun n => lo <= n <= hi)%Z ns.
Proof.
  induction 1 as [|d l (n & Hn & Hd) _ (ns & Hmap & Hns)].
  - exists []. split; [reflexivity | constructor].
  - exists (n :: ns). cbn [map]. split; [now rewrite Hd, Hmap | now constructor].
Qed.

Lemma total_between (lo hi : Z) (ns : list Z) :
  Forall (fun n => lo <= n <= hi)%Z ns ->
  (lo * Z.of_nat (List.length ns) <= total ns <= hi * Z.of_nat (List.length ns))%Z.
Proof.
  induction 1 as [|n ns Hn _ IH]; cbn [total List.length]; [lia|].
  rewrite Nat2Z.inj_succ. lia.
Qed.

Lemma filtered_generated (g : source)
    (selectedSegment : Selection Segment) (selectedRegion : Selection Region)
    (P : PortfolioRecord -> Prop) :
  (forall i : nat, P (nth_record g i)) ->
  let filtered := filteredData (run generatePortfolioData g) selectedSegment selectedRegion in
  Forall P filtered /\ (List.length filtered <= 200)%nat.
Proof.
  intros HP filtered. split.
  - apply Forall_forall. intros d Hd. subst filtered. unfold filteredData in Hd.
    apply filter_In in Hd as [Hd _]. apply generated_record in Hd as (i & _ & ->).
    apply HP.
  - subst filtered. unfold filteredData.
    eapply Nat.le_trans; [apply filter_length_le|].
    rewrite generatePortfolioData_run, length_map, length_seq. lia.
Qed.

Lemma nth_record_balance (g : source) (i : nat) :
  unit_draws g ->
  exists n : Z, (1000 <= n <= 200000)%Z /\ accountBalance (nth_record g i) = Z2F n.
Proof.
  intros Hg. destruct (nth_record_amounts g i Hg) as (s & b & v & _ & Hb & _ & _ & Hs).
  exists b. split; [|exact Hb]. destruct s; lia.
Qed.

Lemma nth_record_revenue (g : source) (i : nat) :
  unit_draws g ->
  exists n : Z, (40 <= n <= 8500)%Z /\ annualRevenue (nth_record g i) = Z2F n.
Proof.
  intros Hg. destruct (nth_record_amounts g i Hg) as (s & b & v & _ & _ & Hv & Hr & _).
  now exists v.
Qed.

(** X16: on generated data, whatever the filters, the two totals of [metrics]
    are whole numbers free of rounding error: a balance of 1000 to 200000
    and a revenue of 40 to 8500 for each record of the filtered set. *)
Theorem generated_totals_whole (g : source)
    (selectedSegment : Selection Segment) (selectedRegion : Selection Region) :
  unit_draws g ->
  let filtered := filteredData (run generatePortfolioData g) selectedSegment selectedRegion in
  let n := Z.of_nat (List.length filtered) in
  exists B V : Z,
    totalBalance (metrics filtered) = Z2F B /\ (1000 * n <= B <= 200000 * n)%Z /\
    totalRevenue (metrics filtered) = Z2F V /\ (40 * n <= V <= 8500 * n)%Z.
Proof.
  intros Hg filtered n.
  destruct (filtered_generated g selectedSegment selectedRegion
              (fun d => exists n : Z, (1000 <= n <= 200000)%Z /\ accountBalance d = Z2F n)
              (fun i => nth_record_balance g i Hg))
    as [Hb Hlen].
  destruct (filtered_generated g selectedSegment selectedRegion
              (fun d => exists n : Z, (40 <= n <= 8500)%Z /\ annualRevenue d = Z2F n)
              (fun i => nth_record_revenue g i Hg))
    as [Hv _].
  fold filtered in Hb, Hv, Hlen.
  destruct (whole_list _ _ _ _ Hb) as (bs & Hbm & Hbs).
  destruct (whole_list _ _ _ _ Hv) as (vs & Hvm & Hvs).
  pose proof (total_between _ _ _ Hbs) as Tb. pose proof (total_between _ _ _ Hvs) as Tv.
  assert (Lb : List.length bs = List.length filtered).
  { rewrite <- (length_map Z2F bs), <- Hbm. apply length_map. }
  assert (Lv : List.length vs = List.length filtered).
  { rewrite <- (length_map Z2F vs), <- Hvm. apply length_map. }
  rewrite Lb in Tb. rewrite Lv in Tv. fold n in Tb, Tv.
  assert (Hn : (n <= 200)%Z) by (subst n; lia).
  assert (H53 : (200000 * 200 < 2 ^ 53)%Z) by reflexivity.
  exists (total bs), (total vs). cbn [metrics totalBalance totalRevenue].
  split; [|split; [exact Tb|split; [|exact Tv]]].
  - apply reduce_sum_exact; [exact Hbm | | lia].
    eapply Forall_impl; [|exact Hbs]. cbn. intros; lia.
  - apply reduce_sum_exact; [exact Hvm | | lia].
    eapply Forall_impl; [|exact Hvs]. cbn. intros; lia.
Qed.

Lemma generated_totals_whole_witness :
  let filtered := filteredData (run generatePortfolioData halves) all all in
  let n := Z.of_nat (List.length filtered) in
  exists B V : Z,
    totalBalance (metrics filtered) = Z2F B /\ (1000 * n <= B <= 200000 * n)%Z /\
    totalRevenue (metrics filtered) = Z2F V /\ (40 * n <= V <= 8500 * n)%Z.
Proof.
  exact (generated_totals_whole halves all all unit_draws_halves).
Defined.

(** X17: on generated data, whatever the filters, the revenues of the regions
    and both revenue columns of the segments add up to
    [metrics.totalRevenue]. *)
Theorem generated_revenues_add_up (g : source)
    (selectedSegment : Selection Segment) (selectedRegion : Selection Region) :
  unit_draws g ->
  let filtered := filteredData (run generatePortfolioData g) selectedSegment selectedRegion in
  reduce_sum Reg.revenue (regionData filtered) = totalRevenue (metrics filtered) /\
  reduce_sum Seg.revenue (segmentData filtered) = totalRevenue (metrics filtered) /\
  reduce_sum Seg.value (segmentData filtered) = totalRevenue (metrics filtered).
Proof.
  intros Hg filtered.
  destruct (filtered_generated g selectedSegment selectedRegion
              (fun d => exists n : Z, (40 <= n <= 8500)%Z /\ annualRevenue d = Z2F n)
              (fun i => nth_record_revenue g i Hg))
    as [Hv Hlen].
  fold filtered in Hv, Hlen.
  destruct (whole_list _ _ _ _ Hv) as (vs & Hvm & Hvs).
  pose proof (total_between _ _ _ Hvs) as Tv.
  assert (Lv : List.length vs = List.length filtered).
  { rewrite <- (length_map Z2F vs), <- Hvm. apply length_map. }
  rewrite Lv in Tv.
  assert (H53 : (8500 * 200 < 2 ^ 53)%Z) by reflexivity.
  assert (Hnn : Forall (fun n => 0 <= n)%Z vs).
  { eapply Forall_impl; [|exact Hvs]. cbn. intros; lia. }
  assert (Hlt : (total vs < 2 ^ 53)%Z) by lia.
  cbn [metrics totalRevenue].
  rewrite (reduce_sum_exact annualRevenue filtered vs Hvm Hnn Hlt).
  split; [now apply region_revenue_sum | now apply segment_revenue_sum].
Qed.

Lemma generated_revenues_add_up_witness :
  let filtered := filteredData (run generatePortfolioData halves) all all in
  reduce_sum Reg.revenue (regionData filtered) = totalRevenue (metrics filtered) /\
  reduce_sum Seg.revenue (segmentData filtered) = totalRevenue (metrics filtered) /\
  reduce_sum Seg.value (segmentData filtered) = totalRevenue (metrics filtered).
Proof.
  exact (generated_revenues_add_up halves all all unit_draws_halves).
Defined.

Lemma NoDup_bounded {A : Type} (l all_values : list A) :
  NoDup l -> incl l all_values -> (List.length l <= List.length all_values)%nat.
Proof. intros Hnd Hincl. now apply NoDup_incl_length. Qed.

(** X18: on generated data, whatever the filters, there are at most three
    segment summaries and at most four region summaries, each under the
    name of a segment or of a region. *)
Theorem generated_groups_named (g : source)
    (selectedSegment : Selection Segment) (selectedRegion : Selection Region) :
  unit_draws g ->
  let filtered := filteredData (run generatePortfolioData g) selectedSegment selectedRegion in
  (List.length (segmentData filtered) <= 3)%nat /\
  Forall (fun s => exists sg : Segment, Seg.name s = Some sg) (segmentData filtered) /\
  (List.length (regionData filtered) <= 4)%nat /\
  Forall (fun r => exists rg : Region, Reg.name r = Some rg) (regionData filtered).
Proof.
  intros Hg filtered.
  destruct (filtered_generated g selectedSegment selectedRegion
              (fun d => (exists s : Segment, segment d = Some s) /\
                        (exists r : Region, region d = Some r))
              (fun i => generated_names g i Hg)) as [Hn _].
  fold filtered in Hn.
  assert (Hs : forall k, In k (map Seg.name (segmentData filtered)) ->
                         exists sg : Segment, k = Some sg).
  { intros k Hk. apply segmentData_one_per_segment_aux in Hk.
    apply in_map_iff in Hk as (d & <- & Hd).
    exact (proj1 (proj1 (Forall_forall _ _) Hn d Hd)). }
  assert (Hr : forall k, In k (map Reg.name (regionData filtered)) ->
                         exists rg : Region, k = Some rg).
  { intros k Hk. apply (Permutation_in _ (regionData_names_keys filtered)) in Hk.
    apply (first_keys_In region_key region region_key_eq) in Hk.
    apply in_map_iff in Hk as (d & <- & Hd).
    exact (proj2 (proj1 (Forall_forall _ _) Hn d Hd)). }
  split; [|split; [|split]].
  - rewrite <- (length_map Seg.name).
    apply (NoDup_bounded _ (map Some segments)).
    + rewrite segmentData_names_keys. apply first_keys_NoDup, segment_key_eq.
    + intros k Hk. destruct (Hs k Hk) as ([] & ->); cbn; tauto.
  - apply Forall_forall. intros s Hin. apply Hs. now apply in_map.
  - rewrite <- (length_map Reg.name).
    apply (NoDup_bounded _ (map Some regions)).
    + eapply Permutation_NoDup; [symmetry; apply regionData_names_keys|].
      apply first_keys_NoDup, region_key_eq.
    + intros k Hk. destruct (Hr k Hk) as ([] & ->); cbn; tauto.
  - apply Forall_forall. intros r Hin. apply Hr. now apply in_map.
Qed.

Lemma generated_groups_named_witness :
  let filtered := filteredData (run generatePortfolioData halves) all all in
  (List.length (segmentData filtered) <= 3)%nat /\
  Forall (fun s => exists sg : Segment, Seg.name s = Some sg) (segmentData filtered) /\
  (List.length (regionData filtered) <= 4)%nat /\
  Forall (fun r => exists rg : Region, Reg.name r = Some rg) (regionData filtered).
Proof.
  exact (generated_groups_named halves all all unit_draws_halves).
Defined.

End GeneratedTotals.

(* ================================================================= *)
(** ** The two ratios of [metrics] *)

Section Ratios.

Import JS Rand.
Local Open Scope float_scope.

Lemma div_le (x c w : float) :
  Nonneg x -> (val x < 2 ^ 2098)%Z -> positive_finite c -> positive_finite w ->
  (val x * 2 ^ 1074 <= val w * val c)%Z ->
  Nonneg (x / c) /\ (val (x / c) <= val w)%Z.
Proof.
  intros Hx Hfin Hc Hw Hle. apply at_most_val; [exact Hw|].
  destruct (positive_finite_shape c Hc) as (mc & ec & Ec & Vc).
  destruct (positive_finite_shape w Hw) as (mw & ew & Ew & Vw).
  rewrite div_spec, Ec, Ew. unfold Nonneg, val in *. rewrite Ec, Ew in Hle.
  pose proof (Prim2SF_valid x) as V.
  destruct (Prim2SF x) as [s|s| |s m e]; cbn [SF.nonneg] in Hx; try contradiction.
  - exact I.
  - subst s. cbn [SF.value cond_Zopp] in Hfin. lia.
  - subst s. now apply SFquotient.SFdiv_at_most.
Qed.

Lemma val_Z2F (k : Z) :
  (0 < k < 2 ^ 53)%Z -> positive_finite (Z2F k) /\ val (Z2F k) = (k * 2 ^ 1074)%Z.
Proof.
  intros Hk. assert (2 ^ 53 < 2 ^ 63)%Z by reflexivity.
  unfold positive_finite, val. rewrite Prim2SF_Z2F by lia.
  destruct k as [|p|p]; try lia.
  rewrite SFacts.normalize_canon by lia.
  split; [exact I | apply SFquotient.value_canon; lia].
Qed.

Lemma val_of_nat (n : nat) :
  (Z.of_nat n < 2 ^ 53)%Z ->
  Nonneg (of_nat n) /\ val (of_nat n) = (Z.of_nat n * 2 ^ 1074)%Z.
Proof.
  intros Hn. unfold of_nat. destruct n as [|n]; [split; [exact I | reflexivity]|].
  destruct (val_Z2F (Z.of_nat (S n)) ltac:(lia)) as [Hp Hv].
  split; [now apply positive_finite_Nonneg | exact Hv].
Qed.

Lemma leb_of_val (x w : float) :
  Nonneg x -> positive_finite w -> (val x <= val w)%Z ->
  (0 <=? x) = true /\ (x <=? w) = true.
Proof.
  intros Hx Hw Hle. split; [now apply Nonneg_leb|].
  rewrite leb_val; [now apply Z.leb_le | now apply Nonneg_not_nan |].
  now apply Nonneg_not_nan, positive_finite_Nonneg.
Qed.

(** A ratio of a part to a whole, in percent. *)
Lemma percent_range (x c : float) :
  Nonneg x -> positive_finite c -> (val x <= val c)%Z ->
  Nonneg (x / c) /\ (val (x / c) <= val 1)%Z /\
  Nonneg (x / c * 100) /\ (val (x / c * 100) <= val 100)%Z.
Proof.
  intros Hx Hc Hle.
  assert (H1 : val 1 = (2 ^ 1074)%Z) by (vm_compute; reflexivity).
  assert (HT : (0 < 2 ^ 1074)%Z) by reflexivity.
  destruct (positive_finite_shape c Hc) as (mc & ec & Ec & Vc).
  pose proof (SFacts.finite_value_bounds _ _ Vc) as Hvc.
  assert (Hcv : (0 < val c < 2 ^ 2098)%Z) by (unfold val; now rewrite Ec).
  destruct (div_le x c 1 Hx ltac:(lia) Hc ltac:(constant)) as [Hq Hq1].
  { rewrite H1. rewrite (Z.mul_comm (2 ^ 1074)). apply Z.mul_le_mono_nonneg_r; lia. }
  split; [exact Hq|]. split; [exact Hq1|].
  apply mul_le; [exact Hq | | constant | constant |].
  - rewrite H1 in Hq1. eapply Z.le_lt_trans; [exact Hq1|]. reflexivity.
  - rewrite H1 in Hq1. rewrite (Z.mul_comm (val 100)).
    apply Z.mul_le_mono_nonneg_r; [vm_compute; discriminate | exact Hq1].
Qed.

Lemma defaultRate_bounds (l : list PortfolioRecord) :
  l <> [] -> (Z.of_nat (List.length l) < 2 ^ 53)%Z ->
  Nonneg (defaultRate (metrics l)) /\ (val (defaultRate (metrics l)) <= val 100)%Z.
Proof.
  intros Hne Hlen. cbn [metrics defaultRate].
  assert (Hd : (List.length (filter defaultFlag l) <= List.length l)%nat)
    by apply filter_length_le.
  assert (Hn : (0 < Z.of_nat (List.length l))%Z) by (destruct l; [contradiction | cbn; lia]).
  destruct (val_of_nat (List.length (filter defaultFlag l)) ltac:(lia)) as [Hx Hxv].
  destruct (val_Z2F (Z.of_nat (List.length l)) ltac:(lia)) as [Hc Hcv].
  assert (HT : (0 < 2 ^ 1074)%Z) by reflexivity.
  apply percent_range; [exact Hx | exact Hc |].
  unfold of_nat at 2. rewrite Hxv, Hcv. apply Z.mul_le_mono_nonneg_r; lia.
Qed.

(** X19: on every non-empty filtered set the default rate is a number between
    0 and 100. *)
Theorem defaultRate_range (filteredData : list PortfolioRecord) :
  filteredData <> [] -> (Z.of_nat (List.length filteredData) < 2 ^ 53)%Z ->
  (0 <=? defaultRate (metrics filteredData)) = true /\
  (defaultRate (metrics filteredData) <=? 100) = true.
Proof.
  intros Hne Hlen. destruct (defaultRate_bounds filteredData Hne Hlen) as [Hn Hv].
  apply leb_of_val; [exact Hn | constant | exact Hv].
Qed.

Lemma defaultRate_range_witness :
  (0 <=? defaultRate (metrics sample)) = true /\
  (defaultRate (metrics sample) <=? 100) = true.
Proof.
  apply (defaultRate_range sample); [discriminate | reflexivity].
Defined.

(** A running sum of numbers between 0 and 1 does not exceed their
    count. *)
Lemma fold_sum_le_count {A : Type} (f : A -> float) (l : list A) :
  forall (acc : float) (k : Z),
    Forall (fun d => Nonneg (f d) /\ (val (f d) <= 2 ^ 1074)%Z) l ->
    Nonneg acc -> (0 <= k)%Z -> (val acc <= k * 2 ^ 1074)%Z ->
    (k + Z.of_nat (List.length l) < 2 ^ 53)%Z ->
    let sum := fold_left (fun acc curr => acc + f curr) l acc in
    Nonneg sum /\ (val sum <= (k + Z.of_nat (List.length l)) * 2 ^ 1074)%Z.
Proof.
  induction l as [|d l IH]; intros acc k Hl Hacc Hk Hv Hlt; cbn [fold_left List.length] in *.
  - split; [exact Hacc|]. now rewrite Z.add_0_r.
  - apply Forall_cons_iff in Hl as [[Hd Hdv] Hl].
    destruct (val_Z2F (k + 1) ltac:(lia)) as [Hw Hwv].
    destruct (add_le acc (f d) (Z2F (k + 1)) Hacc Hd Hw) as [Hs Hsv].
    { rewrite Hwv. lia. }
    rewrite Hwv in Hsv.
    destruct (IH (acc + f d) (k + 1)%Z Hl Hs ltac:(lia) Hsv ltac:(lia)) as [H1 H2].
    split; [exact H1|]. eapply Z.le_trans; [exact H2|].
    apply Z.mul_le_mono_nonneg_r; [apply Z.pow_nonneg|]; lia.
Qed.

Lemma avgRisk_bounds (l : list PortfolioRecord) :
  l <> [] -> (Z.of_nat (List.length l) < 2 ^ 53)%Z ->
  Forall (fun d => Nonneg (riskScore d) /\ (val (riskScore d) <= 2 ^ 1074)%Z) l ->
  Nonneg (avgRisk (metrics l)) /\ (val (avgRisk (metrics l)) <= val 1)%Z.
Proof.
  intros Hne Hlen Hl. cbn [metrics avgRisk].
  assert (Hn : (0 < Z.of_nat (List.length l))%Z) by (destruct l; [contradiction | cbn; lia]).
  destruct (val_Z2F (Z.of_nat (List.length l)) ltac:(lia)) as [Hc Hcv].
  destruct (fold_sum_le_count riskScore l 0 0%Z Hl I ltac:(lia) ltac:(reflexivity) ltac:(lia))
    as [Hs Hsv].
  destruct (percent_range (reduce_sum riskScore l) (of_nat (List.length l)) Hs Hc)
    as (Hq & Hq1 & _); [|now split].
  unfold of_nat. rewrite Hcv. exact Hsv.
Qed.

Lemma nth_record_riskScore (g : source) (i : nat) :
  unit_draws g ->
  Nonneg (riskScore (nth_record g i)) /\ (val (riskScore (nth_record g i)) <= 2 ^ 1074)%Z.
Proof.
  intros Hg. destruct (nth_record_in_range g i Hg) as ((Hlo & Hhi) & _).
  destruct (leb_true_not_nan _ _ Hhi) as [Hnan _].
  rewrite leb_val in Hlo, Hhi by (assumption || reflexivity).
  apply Z.leb_le in Hlo, Hhi.
  assert (H1 : (0 <= val 0.01)%Z) by (vm_compute; discriminate).
  assert (H2 : (val 0.99 <= 2 ^ 1074)%Z) by (vm_compute; discriminate).
  split; [|lia]. apply Nonneg_leb.
  rewrite leb_val by (assumption || reflexivity). apply Z.leb_le.
  change (val 0) with 0%Z. lia.
Qed.

Lemma generated_ratios (g : source)
    (selectedSegment : Selection Segment) (selectedRegion : Selection Region) :
  unit_draws g ->
  let filtered := filteredData (run generatePortfolioData g) selectedSegment selectedRegion in
  filtered <> [] ->
  (Nonneg (avgRisk (metrics filtered)) /\ (val (avgRisk (metrics filtered)) <= val 1)%Z) /\
  (Nonneg (defaultRate (metrics filtered)) /\
   (val (defaultRate (metrics filtered)) <= val 100)%Z).
Proof.
  intros Hg filtered Hne.
  destruct (filtered_generated g selectedSegment selectedRegion
              (fun d => Nonneg (riskScore d) /\ (val (riskScore d) <= 2 ^ 1074)%Z)
              (fun i => nth_record_riskScore g i Hg)) as [Hr Hlen].
  fold filtered in Hr, Hlen.
  assert (H53 : (200 < 2 ^ 53)%Z) by reflexivity.
  split; [apply avgRisk_bounds | apply defaultRate_bounds]; try assumption; lia.
Qed.

(** X20: on every non-empty filtered set of generated records both ratios of
    [metrics] are numbers: the average risk lies between 0 and 1 and the
    default rate between 0 and 100. *)
Theorem metrics_defined (g : source)
    (selectedSegment : Selection Segment) (selectedRegion : Selection Region) :
  unit_draws g ->
  let filtered := filteredData (run generatePortfolioData g) selectedSegment selectedRegion in
  filtered <> [] ->
  let m := metrics filtered in
  (PrimFloat.is_nan (avgRisk m) = false /\
   (0 <=? avgRisk m) = true /\ (avgRisk m <=? 1) = true) /\
  (PrimFloat.is_nan (defaultRate m) = false /\
   (0 <=? defaultRate m) = true /\ (defaultRate m <=? 100) = true).
Proof.
  intros Hg filtered Hne m.
  destruct (generated_ratios g selectedSegment selectedRegion Hg Hne) as [[Ha Hav] [Hd Hdv]].
  fold filtered in Ha, Hav, Hd, Hdv. fold m in Ha, Hav, Hd, Hdv.
  split; (split; [now apply Nonneg_not_nan|]); apply leb_of_val; try assumption; constant.
Qed.

Lemma filteredData_all (portfolioData : list PortfolioRecord) :
  filteredData portfolioData all all = portfolioData.
Proof. apply filter_true. Qed.

Lemma generated_not_empty (g : source) :
  filteredData (run generatePortfolioData g) all all <> [].
Proof.
  rewrite filteredData_all, generatePortfolioData_run. intros H.
  apply (f_equal (@List.length _)) in H. rewrite length_map, length_seq in H.
  discriminate.
Qed.

Lemma metrics_defined_witness :
  let m := metrics (filteredData (run generatePortfolioData halves) all all) in
  (PrimFloat.is_nan (avgRisk m) = false /\
   (0 <=? avgRisk m) = true /\ (avgRisk m <=? 1) = true) /\
  (PrimFloat.is_nan (defaultRate m) = false /\
   (0 <=? defaultRate m) = true /\ (defaultRate m <=? 100) = true).
Proof.
  exact (metrics_defined halves all all unit_draws_halves (generated_not_empty halves)).
Defined.

Lemma fixed_text (x : float) (w : float) (fd : nat) (N : Z) :
  Nonneg x -> (val x <= val w)%Z -> (val w < val 1e21)%Z ->
  scaled_round (val w) fd = N ->
  exists n : Z, toFixed x fd = NumFixed false n fd /\ (0 <= n <= N)%Z.
Proof.
  intros Hx Hle H21 HN. exists (scaled_round (val x) fd).
  split; [apply toFixed_Nonneg; [exact Hx | lia]|].
  rewrite <- HN. split; [|now apply scaled_round_mono].
  change 0%Z with (scaled_round 0 fd) at 1.
  - apply scaled_round_mono. now apply Nonneg_val.
Qed.

(** X21: the third and fourth KPI cards on generated data: both read "NaN"
    when the filtered set is empty, and otherwise the average risk reads
    as a decimal between 0.000 and 1.000 and the default rate as a
    decimal between 0.0 and 100.0. *)
Theorem kpi_texts (g : source)
    (selectedSegment : Selection Segment) (selectedRegion : Selection Region) :
  unit_draws g ->
  let filtered := filteredData (run generatePortfolioData g) selectedSegment selectedRegion in
  (filtered = [] ->
   avgRisk_text (metrics filtered) = NumNaN /\ defaultRate_text (metrics filtered) = NumNaN) /\
  (filtered <> [] ->
   exists a b : Z,
     avgRisk_text (metrics filtered) = NumFixed false a 3 /\ (0 <= a <= 1000)%Z /\
     defaultRate_text (metrics filtered) = NumFixed false b 1 /\ (0 <= b <= 1000)%Z).
Proof.
  intros Hg filtered. split.
  - intros ->. split; reflexivity.
  - intros Hne.
    destruct (generated_ratios g selectedSegment selectedRegion Hg Hne) as [[Ha Hav] [Hd Hdv]].
    fold filtered in Ha, Hav, Hd, Hdv.
    destruct (fixed_text _ 1 3 1000 Ha Hav) as (a & Ea & Ra);
      [vm_compute; reflexivity | vm_compute; reflexivity|].
    destruct (fixed_text _ 100 1 1000 Hd Hdv) as (b & Eb & Rb);
      [vm_compute; reflexivity | vm_compute; reflexivity|].
    exists a, b. unfold avgRisk_text, defaultRate_text. auto.
Qed.

Lemma kpi_texts_witness :
  let filtered := filteredData (run generatePortfolioData halves) all all in
  (filtered = [] ->
   avgRisk_text (metrics filtered) = NumNaN /\ defaultRate_text (metrics filtered) = NumNaN) /\
  (filtered <> [] ->
   exists a b : Z,
     avgRisk_text (metrics filtered) = NumFixed false a 3 /\ (0 <= a <= 1000)%Z /\
     defaultRate_text (metrics filtered) = NumFixed false b 1 /\ (0 <= b <= 1000)%Z).
Proof.
  exact (kpi_texts halves all all unit_draws_halves).
Defined.

End Ratios.

(* ================================================================= *)
(** ** The leading region and the High Net Worth share *)

Section DisplayProperties.

Import JS Rand.
Local Open Scope float_scope.

Lemma regionData_nil (l : list PortfolioRecord) : regionData l = [] <-> l = [].
Proof.
  split; [|now intros ->].
  intros H. destruct l as [|d l]; [reflexivity|]. exfalso.
  pose proof (regionData_names_keys (d :: l)) as P. rewrite H in P.
  apply Permutation_nil in P.
  assert (Hin : In (region d) (first_keys region_key region (d :: l))).
  { apply (first_keys_In region_key region region_key_eq). now left. }
  now rewrite P in Hin.
Qed.

(** X22: the third default insight reads [regionData[0].name] without a guard:
    it throws exactly when the filtered set is empty. *)
Theorem leading_region_throws (filteredData : list PortfolioRecord) :
  leading_region (regionData filteredData) = TypeError <-> filteredData = [].
Proof.
  rewrite <- regionData_nil. unfold leading_region.
  destruct (regionData filteredData) as [|r rest]; cbn [nth_error].
  - split; reflexivity.
  - split; discriminate.
Qed.

Lemma desc_trans (a b c : Reg.t) : desc a b -> desc b c -> desc a c.
Proof.
  unfold desc. intros Hab Hbc.
  destruct (leb_true_not_nan _ _ Hab) as [Nb Na].
  destruct (leb_true_not_nan _ _ Hbc) as [Nc _].
  rewrite leb_val in * by assumption.
  apply Z.leb_le in Hab, Hbc. apply Z.leb_le. lia.
Qed.

(** X23: when no revenue is negative, [regionData[0]] is a region whose revenue
    no other region exceeds. *)
Theorem first_region_leads (filteredData : list PortfolioRecord) :
  Forall (fun d => (0 <=? annualRevenue d) = true) filteredData ->
  forall (first : Reg.t) (others : list Reg.t),
    regionData filteredData = first :: others ->
    Forall (fun r => (Reg.revenue r <=? Reg.revenue first) = true) others.
Proof.
  intros H first others E.
  assert (Hs : Sorted desc (regionData filteredData)).
  { apply regionData_Sorted. eapply Forall_impl; [|exact H].
    intros d Hd. now apply Nonneg_leb. }
  apply Sorted_StronglySorted in Hs; [|exact desc_trans].
  rewrite E in Hs. apply StronglySorted_inv in Hs as [_ Hf]. exact Hf.
Qed.

Lemma first_region_leads_witness :
  Forall (fun r => (Reg.revenue r <=? 5800) = true)
         [{| Reg.name := Some NorthAmerica; Reg.revenue := 700 |}].
Proof.
  refine (first_region_leads sample _ {| Reg.name := Some EMEA; Reg.revenue := 5800 |}
            [{| Reg.name := Some NorthAmerica; Reg.revenue := 700 |}] _).
  - repeat constructor.
  - vm_compute. reflexivity.
Defined.

(** X24: when every record of the filtered set has a region, the guarded
    reading [regionData[0]?.name || "N/A"] gives "N/A" exactly when the
    set is empty, and otherwise the name of a region of the set. *)
Theorem leading_region_or_NA_spec (filteredData : list PortfolioRecord) :
  Forall (fun d => exists r : Region, region d = Some r) filteredData ->
  (leading_region_or_NA (regionData filteredData) = "N/A"%string <-> filteredData = []) /\
  (filteredData <> [] ->
   exists d : PortfolioRecord, In d filteredData /\
     exists r : Region, region d = Some r /\
       leading_region_or_NA (regionData filteredData) = Region_name r).
Proof.
  intros H.
  assert (Hd : filteredData <> [] ->
               exists d : PortfolioRecord, In d filteredData /\
                 exists r : Region, region d = Some r /\
                   leading_region_or_NA (regionData filteredData) = Region_name r).
  { intros Hne. unfold leading_region_or_NA.
    destruct (regionData filteredData) as [|top rest] eqn:E.
    - apply regionData_nil in E. contradiction.
    - cbn [nth_error].
      assert (Hin : In (Reg.name top) (map Reg.name (regionData filteredData))).
      { rewrite E. now left. }
      apply (Permutation_in _ (regionData_names_keys filteredData)) in Hin.
      apply (first_keys_In region_key region region_key_eq) in Hin.
      apply in_map_iff in Hin as (d & Hd & Hin).
      pose proof (proj1 (Forall_forall _ _) H d Hin) as (r & Hr).
      exists d. split; [exact Hin|]. exists r. split; [exact Hr|].
      now rewrite <- Hd, Hr. }
  split; [|exact Hd].
  split.
  - intros E. destruct filteredData as [|d l]; [reflexivity|]. exfalso.
    destruct Hd as (d' & _ & r & _ & Hr); [discriminate|].
    rewrite Hr in E. destruct r; discriminate.
  - intros ->. reflexivity.
Qed.

Lemma leading_region_or_NA_spec_witness :
  (leading_region_or_NA (regionData sample) = "N/A"%string <-> sample = []) /\
  (sample <> [] ->
   exists d : PortfolioRecord, In d sample /\
     exists r : Region, region d = Some r /\
       leading_region_or_NA (regionData sample) = Region_name r).
Proof.
  apply (leading_region_or_NA_spec sample).
  repeat constructor; eexists; reflexivity.
Defined.

Lemma nan_share (x : float) : toFixed (nan / x * 100) 0 = NumNaN.
Proof.
  unfold toFixed. rewrite mul_spec, div_spec.
  change (Prim2SF nan) with S754_nan. reflexivity.
Qed.

Lemma share_without_group (l : list PortfolioRecord) (m : Metrics) :
  ~ In (Some HighNetWorth) (map segment l) ->
  high_net_worth_share (segmentData l) m = NumNaN.
Proof.
  intros Hnin. unfold high_net_worth_share.
  destruct (find _ (segmentData l)) as [s|] eqn:E; [exfalso|apply nan_share].
  apply find_some in E as [Hin Hs].
  apply segment_key_eq in Hs. apply Hnin.
  apply (segmentData_one_per_segment_aux l). rewrite <- Hs. now apply in_map.
Qed.

(** X25: when the segment filter selects a segment other than High Net Worth,
    the High Net Worth share of the first default insight and of the
    report is the text "NaN", whatever the portfolio and the region
    filter. *)
Theorem high_net_worth_share_NaN (portfolioData : list PortfolioRecord)
    (sg : Segment) (selectedRegion : Selection Region) :
  sg <> HighNetWorth ->
  let filtered := filteredData portfolioData (only sg) selectedRegion in
  high_net_worth_share (segmentData filtered) (metrics filtered) = NumNaN.
Proof.
  intros Hsg filtered. apply share_without_group. intros Hk.
  apply in_map_iff in Hk as (d & Hd & Hf).
  subst filtered. unfold filteredData in Hf. apply filter_In in Hf as [_ Hf].
  rewrite Hd in Hf. cbn [is_all orb selected] in Hf.
  apply andb_true_iff in Hf as [Hf _]. apply Segment_eqb_eq in Hf. congruence.
Qed.

Lemma high_net_worth_share_NaN_witness :
  let filtered := filteredData sample (only Affluent) all in
  high_net_worth_share (segmentData filtered) (metrics filtered) = NumNaN.
Proof.
  apply (high_net_worth_share_NaN sample Affluent all). discriminate.
Defined.

End DisplayProperties.

(* ================================================================= *)
(** ** The High Net Worth share on generated data *)

Section Share.

Import JS Rand.
Local Open Scope float_scope.

Lemma val_whole (k : Z) :
  (0 <= k < 2 ^ 53)%Z -> Nonneg (Z2F k) /\ val (Z2F k) = (k * 2 ^ 1074)%Z.
Proof.
  intros Hk. destruct (Z.eq_dec k 0) as [->|Hne]; [split; [exact I | reflexivity]|].
  destruct (val_Z2F k ltac:(lia)) as [Hp Hv].
  split; [now apply positive_finite_Nonneg | exact Hv].
Qed.

Lemma whole_Z2F (n : Z) : (0 <= n < 2 ^ 53)%Z -> whole (Z2F n) = n.
Proof.
  intros Hn. unfold whole. rewrite (proj2 (val_whole n Hn)).
  apply Z.div_mul. discriminate.
Qed.

Lemma amounts_of {A : Type} (f : A -> float) (lo hi : Z) (l : list A) :
  (0 <= lo)%Z -> (hi < 2 ^ 53)%Z ->
  Forall (fun d => exists n : Z, (lo <= n <= hi)%Z /\ f d = Z2F n) l ->
  map f l = map Z2F (map (fun d => whole (f d)) l) /\
  Forall (fun d => lo <= whole (f d) <= hi)%Z l.
Proof.
  intros Hlo Hhi. induction 1 as [|d l (n & Hn & Hd) _ [IH1 IH2]].
  - split; [reflexivity | constructor].
  - assert (Hw : whole (f d) = n) by (rewrite Hd; apply whole_Z2F; lia).
    cbn [map]. rewrite Hw. split; [now rewrite Hd, IH1|].
    constructor; [lia | exact IH2].
Qed.

Lemma total_filter {A : Type} (amt : A -> Z) (p : A -> bool) (l : list A) :
  Forall (fun d => 0 <= amt d)%Z l ->
  (0 <= total (map amt (filter p l)) <= total (map amt l))%Z.
Proof.
  induction 1 as [|d l Hd _ IH]; cbn [filter map total]; [lia|].
  destruct (p d); cbn [map total]; lia.
Qed.

Lemma total_at_least {A : Type} (amt : A -> Z) (lo : Z) (l : list A) :
  Forall (fun d => lo <= amt d)%Z l ->
  (lo * Z.of_nat (List.length l) <= total (map amt l))%Z.
Proof.
  induction 1 as [|d l Hd _ IH]; cbn [map total List.length]; [lia|].
  rewrite Nat2Z.inj_succ. lia.
Qed.

Lemma total_at_most {A : Type} (amt : A -> Z) (hi : Z) (l : list A) :
  Forall (fun d => amt d <= hi)%Z l ->
  (total (map amt l) <= hi * Z.of_nat (List.length l))%Z.
Proof.
  induction 1 as [|d l Hd _ IH]; cbn [map total List.length]; [lia|].
  rewrite Nat2Z.inj_succ. lia.
Qed.

(** On generated data the revenue of a part of the filtered set, as a
    percentage of the revenue of the set, reads as a decimal between 0
    and 100. *)
Lemma revenue_part_text (g : source)
    (selectedSegment : Selection Segment) (selectedRegion : Selection Region)
    (p : PortfolioRecord -> bool) (fd : nat) (N : Z) :
  unit_draws g ->
  let filtered := filteredData (run generatePortfolioData g) selectedSegment selectedRegion in
  filtered <> [] -> scaled_round (val 100) fd = N ->
  exists n : Z,
    toFixed (reduce_sum annualRevenue (filter p filtered) /
             reduce_sum annualRevenue filtered * 100) fd = NumFixed false n fd /\
    (0 <= n <= N)%Z.
Proof.
  intros Hg filtered Hne0 HN.
  destruct (filtered_generated g selectedSegment selectedRegion
              (fun d => exists n : Z, (40 <= n <= 8500)%Z /\ annualRevenue d = Z2F n)
              (fun i => nth_record_revenue g i Hg)) as [Hr Hlen].
  fold filtered in Hr, Hlen.
  assert (Hne : (1 <= List.length filtered)%nat).
  { destruct filtered; [contradiction | cbn; lia]. }
  set (amt := fun d => whole (annualRevenue d)).
  destruct (amounts_of annualRevenue 40 8500 filtered ltac:(lia) ltac:(reflexivity) Hr)
    as [Hmap Hamt].
  fold amt in Hmap, Hamt.
  set (sub := filter p filtered).
  assert (Hrs : Forall (fun d => exists n : Z, (40 <= n <= 8500)%Z /\ annualRevenue d = Z2F n) sub).
  { apply Forall_forall. intros d Hd. subst sub.
    apply filter_In in Hd as [Hd _]. exact (proj1 (Forall_forall _ _) Hr d Hd). }
  destruct (amounts_of annualRevenue 40 8500 sub ltac:(lia) ltac:(reflexivity) Hrs)
    as [Hmaps _].
  fold amt in Hmaps.
  assert (Hnn : Forall (fun d => 0 <= amt d)%Z filtered).
  { eapply Forall_impl; [|exact Hamt]. intros d Hd. unfold amt in *. cbn beta in Hd |- *. lia. }
  pose proof (total_filter amt p filtered Hnn) as Hsub. fold sub in Hsub.
  pose proof (total_at_least amt 40 filtered
                ltac:(eapply Forall_impl; [|exact Hamt]; intros d Hd; unfold amt in *; cbn beta in Hd |- *; lia)) as Hlo.
  pose proof (total_at_most amt 8500 filtered
                ltac:(eapply Forall_impl; [|exact Hamt]; intros d Hd; unfold amt in *; cbn beta in Hd |- *; lia)) as Hhi.
  set (T := total (map amt filtered)) in *. set (Th := total (map amt sub)) in *.
  assert (H53 : (8500 * 200 < 2 ^ 53)%Z) by reflexivity.
  assert (HT : (0 < T < 2 ^ 53)%Z) by lia.
  assert (Forall (fun n => 0 <= n)%Z (map amt filtered)).
  { apply Forall_map. exact Hnn. }
  assert (Forall (fun n => 0 <= n)%Z (map amt sub)).
  { apply Forall_map, Forall_forall. intros d Hd. subst sub.
    apply filter_In in Hd as [Hd _]. exact (proj1 (Forall_forall _ _) Hnn d Hd). }
  rewrite (reduce_sum_exact annualRevenue sub (map amt sub) Hmaps) by (assumption || (fold Th; lia)).
  rewrite (reduce_sum_exact annualRevenue filtered (map amt filtered) Hmap)
    by (assumption || (fold T; lia)).
  fold T Th.
  destruct (val_Z2F T HT) as [Hc Hcv].
  destruct (val_whole Th ltac:(lia)) as [Hx Hxv].
  destruct (percent_range (Z2F Th) (Z2F T) Hx Hc) as (_ & _ & Hp & Hpv).
  { rewrite Hxv, Hcv. apply Z.mul_le_mono_nonneg_r; [apply Z.pow_nonneg|]; lia. }
  apply (fixed_text _ 100 fd N Hp Hpv); [vm_compute; reflexivity | exact HN].
Qed.

(** X26: on generated data, whatever the filters, the High Net Worth share
    reads "NaN" when the filtered set holds no High Net Worth record, and
    otherwise as a whole percentage between 0 and 100. *)
Theorem high_net_worth_share_generated (g : source)
    (selectedSegment : Selection Segment) (selectedRegion : Selection Region) :
  unit_draws g ->
  let filtered := filteredData (run generatePortfolioData g) selectedSegment selectedRegion in
  let share := high_net_worth_share (segmentData filtered) (metrics filtered) in
  (~ In (Some HighNetWorth) (map segment filtered) -> share = NumNaN) /\
  (In (Some HighNetWorth) (map segment filtered) ->
   exists n : Z, share = NumFixed false n 0 /\ (0 <= n <= 100)%Z).
Proof.
  intros Hg filtered share. split; [apply share_without_group|].
  intros Hin. subst share. unfold high_net_worth_share.
  assert (Hne : filtered <> []) by (intros E; rewrite E in Hin; destruct Hin).
  apply (segmentData_one_per_segment_aux filtered) in Hin.
  apply in_map_iff in Hin as (s0 & Hs0 & Hin0).
  destruct (find (fun s => is_segment (Seg.name s) HighNetWorth) (segmentData filtered))
    as [s|] eqn:E.
  2:{ exfalso. pose proof (find_none _ _ E s0 Hin0) as Hf. cbn beta in Hf.
      now rewrite Hs0 in Hf. }
  apply find_some in E as [Hin Hs]. apply segment_key_eq in Hs.
  rewrite (segment_summary_group filtered s HighNetWorth Hin Hs).
  rewrite (proj2 (proj2 (segment_group_totals filtered HighNetWorth))).
  cbn [metrics totalRevenue].
  exact (revenue_part_text g selectedSegment selectedRegion _ 0 100 Hg Hne eq_refl).
Qed.

Lemma high_net_worth_share_generated_witness :
  let filtered := filteredData (run generatePortfolioData halves) all all in
  let share := high_net_worth_share (segmentData filtered) (metrics filtered) in
  (~ In (Some HighNetWorth) (map segment filtered) -> share = NumNaN) /\
  (In (Some HighNetWorth) (map segment filtered) ->
   exists n : Z, share = NumFixed false n 0 /\ (0 <= n <= 100)%Z).
Proof.
  exact (high_net_worth_share_generated halves all all unit_draws_halves).
Defined.

(** X27: on generated data, whatever the filters, every row of the regional
    table of the report shows a percentage of the total between 0.0 and
    100.0. *)
Theorem region_percent_generated (g : source)
    (selectedSegment : Selection Segment) (selectedRegion : Selection Region) :
  unit_draws g ->
  let filtered := filteredData (run generatePortfolioData g) selectedSegment selectedRegion in
  Forall (fun r => exists n : Z,
            region_percent r (metrics filtered) = NumFixed false n 1 /\ (0 <= n <= 1000)%Z)
         (regionData filtered).
Proof.
  intros Hg filtered. apply Forall_forall. intros r Hin.
  assert (Hne : filtered <> []).
  { intros E. rewrite E in Hin. destruct Hin. }
  destruct (filtered_generated g selectedSegment selectedRegion
              (fun d => (exists s : Segment, segment d = Some s) /\
                        (exists r : Region, region d = Some r))
              (fun i => generated_names g i Hg)) as [Hn _].
  fold filtered in Hn.
  assert (Hname : exists rg : Region, Reg.name r = Some rg).
  { pose proof (in_map Reg.name _ _ Hin) as Hk.
    apply (regionData_one_per_region_aux filtered) in Hk.
    apply in_map_iff in Hk as (d & <- & Hd).
    exact (proj2 (proj1 (Forall_forall _ _) Hn d Hd)). }
  destruct Hname as (rg & Hrg). unfold region_percent.
  rewrite (region_summary_group filtered r rg Hin Hrg), region_group_revenue.
  cbn [metrics totalRevenue].
  exact (revenue_part_text g selectedSegment selectedRegion _ 1 1000 Hg Hne eq_refl).
Qed.

Lemma region_percent_generated_witness :
  let filtered := filteredData (run generatePortfolioData halves) all all in
  Forall (fun r => exists n : Z,
            region_percent r (metrics filtered) = NumFixed false n 1 /\ (0 <= n <= 1000)%Z)
         (regionData filtered).
Proof.
  exact (region_percent_generated halves all all unit_draws_halves).
Defined.

End Share.
